(** * HouseForm: the form engine of [src/lib/form/form.tsx]

    A shallow embedding of the working set of the [Form] component: the
    field registry, the four lazily armed derived-state caches, [reset],
    [getFieldValue] and the asynchronous [submit] pipeline.

    Modelling conventions
    - JavaScript values are the inductive [JsValue]; plain objects are finite
      maps from property names to values, arrays are lists (a hole reads as
      [JUndefined]), numbers are integers.
    - A [useState] pair is a [Cell]: the callbacks of a render read [cur], a
      setter writes [nxt], and [rerender] commits [nxt] into [cur].  A
      [useRef] is an ordinary component of the state, updated at once.
    - The registry [formFieldsRef.current] is a list of field handles; a
      handle is identified by its position in the registry.  The three
      listener registries are only handed on by the form and are left out.
    - The utilities imported from [../utils] ([validate],
      [getValidationError], [stringToPath], [fillPath]) are parameters of the
      engine; the specification's description of them is given separately.
      [submit] calls [getValidationError] and [fillPath] outside its [try]:
      the engine of [Section Submit] takes them as functions that return,
      [Throwing.submit] as functions that return or throw.
    - [submit] is asynchronous: every field owns a chain of three awaited
      phases, and a schedule (a list of registry positions) says which chain
      resumes next.  A validator is taken to settle, and user code is taken
      by its outcome only: it does not write to the form while [submit]
      runs.
    - The two objects [baseValue] and [value] are told apart by the function
      in their [submit] member, which [callSubmit] interprets. *)

From stdpp Require Import gmap strings list fin_maps sorting.
From Stdlib Require Import ZArith Ascii.

Open Scope string_scope.
Open Scope list_scope.
Open Scope nat_scope.
Set Warnings "-register-all,-clear-no-such-hyp".

(** ** JavaScript values *)

Inductive JsValue : Type :=
| JUndefined
| JNull
| JBool (b : bool)
| JNum (n : Z)
| JStr (s : string)
| JArr (xs : list JsValue)
| JObj (m : gmap string JsValue).

(** ToBoolean: what [!v], [v || w] and [if (v)] test. *)
Definition truthy (v : JsValue) : bool :=
  match v with
  | JUndefined | JNull => false
  | JBool b => b
  | JNum n => negb (n =? 0)%Z
  | JStr s => negb (bool_decide (s = ""))
  | JArr _ | JObj _ => true
  end.

(** [a || b] *)
Definition jsOr (a b : JsValue) : JsValue := if truthy a then a else b.

(** [Array.isArray(v)] *)
Definition isArray (v : JsValue) : bool :=
  match v with JArr _ => true | _ => false end.

(** ** React state cells *)

Record Cell (A : Type) : Type := mkCell { cur : A; nxt : A }.
Arguments mkCell {A} cur nxt.
Arguments cur {A} c.
Arguments nxt {A} c.

(** [useState(a)] at mount. *)
Definition useState {A : Type} (a : A) : Cell A := mkCell a a.
(** The setter returned by [useState]: visible from the next render on. *)
Definition setState {A : Type} (a : A) (c : Cell A) : Cell A := mkCell (cur c) a.
(** The next render reads the value last set. *)
Definition commit {A : Type} (c : Cell A) : Cell A := mkCell (nxt c) (nxt c).

(** The promise returned by [validate]. *)
Inductive Settled : Type :=
| Fulfilled
| RejectedWith (reason : JsValue).

(** What a call of the user's [onSubmit] callback does. *)
Inductive CallResult : Type :=
| Returned
| Threw (exn : JsValue).

(** The promise returned by [submit]. *)
Inductive SubmitResult : Type :=
| Resolved (b : bool)
| Rejected (exn : JsValue).

(** A call that returns a value or throws. *)
Inductive Outcome (A : Type) : Type :=
| Returns (a : A)
| Throws (exn : JsValue).
Arguments Returns {A} a.
Arguments Throws {A} exn.

Inductive ValidationType : Type :=
| onChangeValidate_t
| onBlurValidate_t
| onSubmitValidate_t.

(** The two functions that sit in the [submit] member of a form instance:
    [() => Promise.resolve(true)] of [baseValue], and the [submit] callback
    of the public handle. *)
Inductive SubmitMember : Type :=
| SubmitStub
| SubmitReal.

Inductive Slot : Type := SlotErrors | SlotIsValid | SlotIsDirty | SlotIsTouched.

Section Engine.

Context {Validator : Type}.

(** ** Field handles *)

Record FieldProps : Type := mkProps {
  name : string;
  initialValue : JsValue;          (* [JUndefined] when not declared *)
  resetWithValue : JsValue;        (* [JUndefined] when not declared *)
  onChangeValidate : option Validator;
  onBlurValidate : option Validator;
  onSubmitValidate : option Validator
}.

Record Field : Type := mkField {
  props : FieldProps;
  value : JsValue;
  errors : list string;
  isDirty : bool;
  isTouched : bool;
  _normalizedDotName : string
}.

(** Modelled from the spec: the setters of a field handle belong to the field
    collaborators and are not part of the form's source; each one replaces
    the attribute it is named after and leaves the others alone. *)
Definition setValue (v : JsValue) (f : Field) : Field :=
  mkField (props f) v (errors f) (isDirty f) (isTouched f) (_normalizedDotName f).
Definition setValues (v : JsValue) (f : Field) : Field :=
  mkField (props f) v (errors f) (isDirty f) (isTouched f) (_normalizedDotName f).
Definition setErrors (e : list string) (f : Field) : Field :=
  mkField (props f) (value f) e (isDirty f) (isTouched f) (_normalizedDotName f).
Definition field_setIsTouched (b : bool) (f : Field) : Field :=
  mkField (props f) (value f) (errors f) (isDirty f) b (_normalizedDotName f).
Definition field_setIsDirty (b : bool) (f : Field) : Field :=
  mkField (props f) (value f) (errors f) b (isTouched f) (_normalizedDotName f).

(** [formField.props[type]] *)
Definition propsValidator (p : FieldProps) (type : ValidationType) : option Validator :=
  match type with
  | onChangeValidate_t => onChangeValidate p
  | onBlurValidate_t => onBlurValidate p
  | onSubmitValidate_t => onSubmitValidate p
  end.

(** ** The component's state *)

Record FormState : Type := mkForm {
  formFieldsRef : list Field;
  isSubmitted : Cell bool;
  _errors : Cell (option (list string));
  _isValid : Cell (option bool);
  _isDirty : Cell (option bool);
  _isTouched : Cell (option bool);
  shouldRerenderErrorOnRecompute : bool;
  shouldRerenderIsValidOnRecompute : bool;
  shouldRerenderIsDirtyOnRecompute : bool;
  shouldRerenderIsTouchedOnRecompute : bool
}.

(** The state of a freshly mounted form over a registry. *)
Definition mount (fields : list Field) : FormState :=
  mkForm fields (useState false) (useState None) (useState None)
         (useState None) (useState None) false false false false.

(** React renders again after state setters ran. *)
Definition rerender (st : FormState) : FormState :=
  mkForm (formFieldsRef st) (commit (isSubmitted st)) (commit (_errors st))
         (commit (_isValid st)) (commit (_isDirty st)) (commit (_isTouched st))
         (shouldRerenderErrorOnRecompute st) (shouldRerenderIsValidOnRecompute st)
         (shouldRerenderIsDirtyOnRecompute st) (shouldRerenderIsTouchedOnRecompute st).

Definition with_fields (fs : list Field) (st : FormState) : FormState :=
  mkForm fs (isSubmitted st) (_errors st) (_isValid st) (_isDirty st) (_isTouched st)
         (shouldRerenderErrorOnRecompute st) (shouldRerenderIsValidOnRecompute st)
         (shouldRerenderIsDirtyOnRecompute st) (shouldRerenderIsTouchedOnRecompute st).

Definition setIsSubmitted (b : bool) (st : FormState) : FormState :=
  mkForm (formFieldsRef st) (setState b (isSubmitted st)) (_errors st) (_isValid st)
         (_isDirty st) (_isTouched st)
         (shouldRerenderErrorOnRecompute st) (shouldRerenderIsValidOnRecompute st)
         (shouldRerenderIsDirtyOnRecompute st) (shouldRerenderIsTouchedOnRecompute st).

Definition _setErrors (v : option (list string)) (st : FormState) : FormState :=
  mkForm (formFieldsRef st) (isSubmitted st) (setState v (_errors st)) (_isValid st)
         (_isDirty st) (_isTouched st)
         (shouldRerenderErrorOnRecompute st) (shouldRerenderIsValidOnRecompute st)
         (shouldRerenderIsDirtyOnRecompute st) (shouldRerenderIsTouchedOnRecompute st).

Definition _setIsValid (v : option bool) (st : FormState) : FormState :=
  mkForm (formFieldsRef st) (isSubmitted st) (_errors st) (setState v (_isValid st))
         (_isDirty st) (_isTouched st)
         (shouldRerenderErrorOnRecompute st) (shouldRerenderIsValidOnRecompute st)
         (shouldRerenderIsDirtyOnRecompute st) (shouldRerenderIsTouchedOnRecompute st).

Definition _setIsDirty (v : option bool) (st : FormState) : FormState :=
  mkForm (formFieldsRef st) (isSubmitted st) (_errors st) (_isValid st)
         (setState v (_isDirty st)) (_isTouched st)
         (shouldRerenderErrorOnRecompute st) (shouldRerenderIsValidOnRecompute st)
         (shouldRerenderIsDirtyOnRecompute st) (shouldRerenderIsTouchedOnRecompute st).

Definition _setIsTouched (v : option bool) (st : FormState) : FormState :=
  mkForm (formFieldsRef st) (isSubmitted st) (_errors st) (_isValid st)
         (_isDirty st) (setState v (_isTouched st))
         (shouldRerenderErrorOnRecompute st) (shouldRerenderIsValidOnRecompute st)
         (shouldRerenderIsDirtyOnRecompute st) (shouldRerenderIsTouchedOnRecompute st).

(** [shouldRerender<S>OnRecompute.current = true] *)
Definition arm (s : Slot) (st : FormState) : FormState :=
  mkForm (formFieldsRef st) (isSubmitted st) (_errors st) (_isValid st)
         (_isDirty st) (_isTouched st)
         (match s with SlotErrors => true | _ => shouldRerenderErrorOnRecompute st end)
         (match s with SlotIsValid => true | _ => shouldRerenderIsValidOnRecompute st end)
         (match s with SlotIsDirty => true | _ => shouldRerenderIsDirtyOnRecompute st end)
         (match s with SlotIsTouched => true | _ => shouldRerenderIsTouchedOnRecompute st end).

Definition armed (s : Slot) (st : FormState) : bool :=
  match s with
  | SlotErrors => shouldRerenderErrorOnRecompute st
  | SlotIsValid => shouldRerenderIsValidOnRecompute st
  | SlotIsDirty => shouldRerenderIsDirtyOnRecompute st
  | SlotIsTouched => shouldRerenderIsTouchedOnRecompute st
  end.

(** ** Aggregates over the registry *)

Definition getErrors (fields : list Field) : list string :=
  foldl (λ acc field, acc ++ errors field) [] fields.

Definition getValidBoolean (fields : list Field) : bool :=
  if bool_decide (length fields = 0) then true
  else forallb (λ field, bool_decide (length (errors field) = 0)) fields.

Definition getFieldBoolean (booleanField : Field → bool) (fields : list Field) : bool :=
  existsb (λ field, booleanField field) fields.

(** ** Recompute entry points

    Each operation on the caches returns, next to the new state, the slots
    whose aggregate it computed (one entry per call of [getErrors],
    [getValidBoolean] or [getFieldBoolean]). *)

Definition recomputeErrors (st : FormState) : FormState * list Slot :=
  let '(st1, log1) :=
    if shouldRerenderErrorOnRecompute st
    then (_setErrors (Some (getErrors (formFieldsRef st))) st, [SlotErrors])
    else (st, []) in
  if shouldRerenderIsValidOnRecompute st1
  then (_setIsValid (Some (getValidBoolean (formFieldsRef st1))) st1, log1 ++ [SlotIsValid])
  else (st1, log1).

Definition recomputeIsDirty (st : FormState) : FormState * list Slot :=
  if shouldRerenderIsDirtyOnRecompute st
  then (_setIsDirty (Some (getFieldBoolean isDirty (formFieldsRef st))) st, [SlotIsDirty])
  else (st, []).

Definition recomputeIsTouched (st : FormState) : FormState * list Slot :=
  if shouldRerenderIsTouchedOnRecompute st
  then (_setIsTouched (Some (getFieldBoolean isTouched (formFieldsRef st))) st, [SlotIsTouched])
  else (st, []).

(** ** Getters *)

Definition errorGetter (st : FormState) : list string * FormState * list Slot :=
  let st := arm SlotErrors st in
  match cur (_errors st) with
  | None =>
      let val := getErrors (formFieldsRef st) in
      (val, _setErrors (Some val) st, [SlotErrors])
  | Some e => (e, st, [])
  end.

Definition isValidGetter (st : FormState) : bool * FormState * list Slot :=
  let st := arm SlotIsValid st in
  match cur (_isValid st) with
  | None =>
      let val := getValidBoolean (formFieldsRef st) in
      (val, _setIsValid (Some val) st, [SlotIsValid])
  | Some b => (b, st, [])
  end.

Definition isDirtyGetter (st : FormState) : bool * FormState * list Slot :=
  match cur (_isDirty st) with
  | None =>
      let st := arm SlotIsDirty st in
      let val := getFieldBoolean isDirty (formFieldsRef st) in
      (val, _setIsDirty (Some val) st, [SlotIsDirty])
  | Some b => (b, st, [])
  end.

Definition isTouchedGetter (st : FormState) : bool * FormState * list Slot :=
  match cur (_isTouched st) with
  | None =>
      let st := arm SlotIsTouched st in
      let val := getFieldBoolean isTouched (formFieldsRef st) in
      (val, _setIsTouched (Some val) st, [SlotIsTouched])
  | Some b => (b, st, [])
  end.

(** ** [setIsTouched], [setIsDirty] and [reset] *)

Definition setIsTouched (val : bool) (st : FormState) : FormState :=
  with_fields (field_setIsTouched val <$> formFieldsRef st) st.

Definition setIsDirty (val : bool) (st : FormState) : FormState :=
  with_fields (field_setIsDirty val <$> formFieldsRef st) st.

(** The body of the [forEach] of [reset]. *)
Definition resetField (field : Field) : Field :=
  let value_ := jsOr (resetWithValue (props field)) (initialValue (props field)) in
  if isArray (value field)
  then setValues (jsOr value_ (JArr [])) field
  else setValue (jsOr value_ (JStr "")) field.

Definition reset (st : FormState) : FormState :=
  let st := with_fields (resetField <$> formFieldsRef st) st in
  let st := _setIsDirty (Some false) st in
  let st := _setIsTouched (Some false) st in
  _setErrors None st.

(** ** [getFieldValue]

    The handle found is returned with its position in the registry, which
    is what tells two handles apart. *)

Section Lookup.
Context (stringToPath : string → list string).

(** [stringToPath(name).join(".")] *)
Definition dottedName (name : string) : string :=
  String.concat "." (stringToPath name).

Definition getFieldValue (name_ : string) (st : FormState) : option (nat * Field) :=
  match list_find (λ field, name (props field) = name_) (formFieldsRef st) with
  | Some found => Some found
  | None =>
      let normalizedName := dottedName name_ in
      list_find (λ field, _normalizedDotName field = normalizedName) (formFieldsRef st)
  end.

End Lookup.

(** ** Form instances

    [baseValue] and the public handle ([value] in the source) expose the
    same working set; they differ in their [submit] member. *)

Record FormInstance : Type := mkInstance {
  instanceState : FormState;
  submit_member : SubmitMember
}.

Definition baseValue (st : FormState) : FormInstance := mkInstance st SubmitStub.

(** The memoised [value] of the source: the handle given to the children,
    the context and the forwarded ref. *)
Definition handleValue (st : FormState) : FormInstance := mkInstance st SubmitReal.

Record FormProps : Type := mkFormProps {
  onSubmit : option (JsValue → FormInstance → CallResult);
  submitWhenInvalid : option bool    (* [None]: not given, defaults to false *)
}.

(** ** [submit] *)

Inductive Event : Type :=
| ValidateCalled (i : nat) (type : ValidationType) (v : JsValue)
                 (form : FormInstance) (r : Settled)
| SetErrorsCalled (i : nat) (errs : list string)
| FillPathCalled (i : nat) (path : string) (v : JsValue)
| OnSubmitCalled (values : JsValue) (form : FormInstance).

(** Where the async callback of field [i] is suspended: at the [await] of
    one of its three phases, or settled with what it returned. *)
Inductive Chain : Type :=
| Awaiting (type : ValidationType)
| Done (isValid : bool).

Record SubmitRun : Type := mkRun {
  run_form : FormState;
  run_chains : list Chain;
  run_values : JsValue;
  run_trace : list Event
}.

Section Submit.

(** [validate(value, form, validator)] of [../utils], by the way its promise
    settles.  A validator is user code and may look at anything; the first
    argument is the moment of the call (the number of events before it), so
    that no two calls need to settle alike. *)
Context (validate : nat → JsValue → FormInstance → Validator → Settled).
Context (getValidationError : JsValue → list string).
Context (fillPath : JsValue → string → JsValue → JsValue).

Definition run_fields (r : SubmitRun) : list Field := formFieldsRef (run_form r).

Definition emit (evs : list Event) (r : SubmitRun) : SubmitRun :=
  mkRun (run_form r) (run_chains r) (run_values r) (run_trace r ++ evs).

Definition setChain (i : nat) (c : Chain) (r : SubmitRun) : SubmitRun :=
  mkRun (run_form r) (<[i := c]> (run_chains r)) (run_values r) (run_trace r).

(** [formField.setErrors(errs)] for the handle at position [i]. *)
Definition run_setErrors (i : nat) (formField : Field) (errs : list string)
    (r : SubmitRun) : SubmitRun :=
  mkRun (with_fields (<[i := setErrors errs formField]> (run_fields r)) (run_form r))
        (run_chains r) (run_values r) (run_trace r).

Definition run_fillPath (path : string) (v : JsValue) (r : SubmitRun) : SubmitRun :=
  mkRun (run_form r) (run_chains r) (fillPath (run_values r) path v) (run_trace r).

Definition runValidationType (i : nat) (formField : Field) (type : ValidationType)
    (r : SubmitRun) : bool * SubmitRun :=
  match propsValidator (props formField) type with
  | None => (true, r)
  | Some validator =>
      let form := baseValue (run_form r) in
      match validate (length (run_trace r)) (value formField) form validator with
      | Fulfilled =>
          (true, emit [ValidateCalled i type (value formField) form Fulfilled] r)
      | RejectedWith error =>
          let errs := getValidationError error in
          (false,
           emit [ValidateCalled i type (value formField) form (RejectedWith error);
                 SetErrorsCalled i errs]
                (run_setErrors i formField errs r))
      end
  end.

(** One resumption of the chain of field [i]: the awaited phase settles and
    the callback runs on to its next [await] or to its [return]. *)
Definition chainStep (i : nat) (r : SubmitRun) : SubmitRun :=
  match run_chains r !! i, run_fields r !! i with
  | Some (Awaiting type), Some formField =>
      let '(res, r1) := runValidationType i formField type r in
      if negb res then setChain i (Done false) r1
      else
        match type with
        | onChangeValidate_t => setChain i (Awaiting onBlurValidate_t) r1
        | onBlurValidate_t => setChain i (Awaiting onSubmitValidate_t) r1
        | onSubmitValidate_t =>
            if bool_decide (0 < length (errors formField))
            then setChain i (Done false) r1
            else
              setChain i (Done true)
                (emit [FillPathCalled i (name (props formField)) (value formField)]
                   (run_fillPath (name (props formField)) (value formField) r1))
        end
  | _, _ => r
  end.

Definition runChains (sched : list nat) (r : SubmitRun) : SubmitRun :=
  foldl (λ r i, chainStep i r) r sched.

(** The run at the moment [Promise.all] is called: [values] is [{}] and
    every callback is about to await its first phase. *)
Definition startRun (st : FormState) : SubmitRun :=
  mkRun st ((λ _, Awaiting onChangeValidate_t) <$> formFieldsRef st) (JObj ∅) [].

Definition chainResult (c : Chain) : option bool :=
  match c with Done b => Some b | Awaiting _ => None end.

(** What [Promise.all] resolves to, once every chain has settled. *)
Definition validArrays (r : SubmitRun) : option (list bool) :=
  mapM chainResult (run_chains r).

(** [submit] under a schedule; [None] while some chain is still pending. *)
Definition submit (props_ : FormProps) (sched : list nat) (st : FormState)
    : option (SubmitResult * FormState * list Event) :=
  let st := setIsSubmitted true st in
  let r := runChains sched (startRun st) in
  match validArrays r with
  | None => None
  | Some valid =>
      if negb (default false (submitWhenInvalid props_))
         && negb (forallb (λ isValid, isValid) valid)
      then Some (Resolved false, run_form r, run_trace r)
      else
        match onSubmit props_ with
        | None => Some (Resolved true, run_form r, run_trace r)
        | Some callback =>
            let form := baseValue (run_form r) in
            let trace := run_trace r ++ [OnSubmitCalled (run_values r) form] in
            match callback (run_values r) form with
            | Returned => Some (Resolved true, run_form r, trace)
            | Threw exn => Some (Rejected exn, run_form r, trace)
            end
        end
  end.

(** Calling the [submit] member of an instance. *)
Definition callSubmit (props_ : FormProps) (form : FormInstance) (sched : list nat)
    (st : FormState) : option (SubmitResult * FormState * list Event) :=
  match submit_member form with
  | SubmitStub => Some (Resolved true, st, [])
  | SubmitReal => submit props_ sched st
  end.

(** The schedule that lets the chains settle one after the other, in
    registry order. *)
Definition sequential (n : nat) : list nat :=
  flat_map (λ i, [i; i; i]) (seq 0 n).

End Submit.

End Engine.

(** ** The utilities of [../utils], as the specification describes them *)

(** Modelled from the spec: the characters that end a segment of a path
    string, for [stringToPath]. *)
Definition isSeparator (c : ascii) : bool :=
  bool_decide (c = "."%char) || bool_decide (c = "["%char) || bool_decide (c = "]"%char).

(** Modelled from the spec: the segments of a path string, for
    [stringToPath]; [seg] is the segment being read. *)
Fixpoint splitSegments (s : string) (seg : string) : list string :=
  match s with
  | EmptyString => if bool_decide (seg = "") then [] else [seg]
  | String c rest =>
      if isSeparator c
      then (if bool_decide (seg = "") then splitSegments rest ""
            else seg :: splitSegments rest "")
      else splitSegments rest (seg +:+ String c EmptyString)
  end.

(** Modelled from the spec: [stringToPath] of [../utils] is not among the
    sources.  A field name is a path string such as ["address.city"] or
    ["list[0]"]; its segments are what stands between the dots and the
    brackets, so that the dot-joined form does not depend on the array-index
    notation. *)
Definition stringToPath_spec (path : string) : list string := splitSegments path "".

(** Modelled from the spec: reading a segment as an array index, for
    [fillPath]. *)
Definition digitOf (c : ascii) : option nat :=
  let n := nat_of_ascii c in
  if bool_decide (48 ≤ n ∧ n ≤ 57) then Some (n - 48) else None.

(** Modelled from the spec: the number a run of digits denotes, for
    [fillPath]. *)
Fixpoint readIndex (s : string) (acc : nat) : option nat :=
  match s with
  | EmptyString => Some acc
  | String c rest =>
      match digitOf c with
      | Some d => readIndex rest (10 * acc + d)
      | None => None
      end
  end.

(** Modelled from the spec: a segment of [fillPath] that is an array index
    is a non-empty run of digits. *)
Definition toIndex (seg : string) : option nat :=
  match seg with
  | EmptyString => None
  | _ => readIndex seg 0
  end.

(** Modelled from the spec: [o[key]], as [fillPath] reads it; a property
    that is absent reads as undefined. *)
Definition getProp (o : JsValue) (key : string) : option JsValue :=
  match o with
  | JObj m => m !! key
  | JArr xs => match toIndex key with Some n => xs !! n | None => None end
  | _ => None
  end.

(** Modelled from the spec: [xs[n] = v], as [fillPath] writes it; an
    assignment past the end extends the array with holes. *)
Definition setIndex (xs : list JsValue) (n : nat) (v : JsValue) : list JsValue :=
  if bool_decide (n < length xs) then <[n := v]> xs
  else xs ++ replicate (n - length xs) JUndefined ++ [v].

(** Modelled from the spec: [fillPath] is not among the sources; this is
    the [TypeError] that an assignment to a property of something that is
    no object throws in module code. *)
Definition typeError (message : string) : JsValue :=
  JObj (<["name" := JStr "TypeError"]> (<["message" := JStr message]> ∅)).

(** Modelled from the spec: [o[key] = v], as [fillPath] writes it, in the
    strict mode of module code: on an object the property is set; on an
    array an index is set (a named property of an array has no place in
    [JsValue] and the array is left as it is); on any other value the
    assignment throws a [TypeError]. *)
Definition setProp (o : JsValue) (key : string) (v : JsValue) : Outcome JsValue :=
  match o with
  | JObj m => Returns (JObj (<[key := v]> m))
  | JArr xs =>
      match toIndex key with
      | Some n => Returns (JArr (setIndex xs n v))
      | None => Returns o
      end
  | JUndefined | JNull => Throws (typeError "Cannot set properties of undefined")
  | JBool _ | JNum _ | JStr _ => Throws (typeError "Cannot create property")
  end.

(** Modelled from the spec: the walk of [fillPath] along the segments.  The
    value goes under the last segment; under a segment before it that
    holds nothing (no value, or a falsy one) an empty object is created on
    demand, and the walk goes on inside what the segment holds. *)
Fixpoint fillSegments (current : JsValue) (path : list string) (v : JsValue)
    : Outcome JsValue :=
  match path with
  | [] => Returns current
  | key :: rest =>
      match rest with
      | [] => setProp current key v
      | _ :: _ =>
          let child :=
            match getProp current key with
            | Some c => if truthy c then c else JObj ∅
            | None => JObj ∅
            end in
          match fillSegments child rest v with
          | Returns child' => setProp current key child'
          | Throws exn => Throws exn
          end
      end
  end.

(** Modelled from the spec: [fillPath] of [../utils] is not among the
    sources.  It projects a value into the result object at the field's
    path, "using the field's path string as the projection key": the value
    is placed directly at the last segment, and "nested path segments are
    intermediate objects created on demand".  It throws when a segment on
    the way holds a value that is no object, as the assignment there does. *)
Definition fillPath_spec (values : JsValue) (path : string) (v : JsValue)
    : Outcome JsValue :=
  fillSegments values (stringToPath_spec path) v.

(** What a call gave where it returned; [d] where it threw. *)
Definition returned {A : Type} (d : A) (o : Outcome A) : A :=
  match o with Returns a => a | Throws _ => d end.

(** Modelled from the spec: [getValidationError] of [../utils] is not among
    the sources.  It turns what a validator threw into a list of messages:
    the messages of a structured schema error (an object whose [errors] are
    objects with a [message]), or the plain string itself. *)
Definition getValidationError_spec (error : JsValue) : list string :=
  match error with
  | JStr s => [s]
  | JObj m =>
      match m !! "errors" with
      | Some (JArr issues) =>
          omap (λ issue,
                match issue with
                | JObj im => match im !! "message" with Some (JStr s) => Some s | _ => None end
                | _ => None
                end) issues
      | _ => []
      end
  | _ => []
  end.

(** ** A concrete instance of the engine

    Validators as predicates on the value they are given; [validate]
    fulfils when the predicate holds and rejects with a message when it
    does not. *)

Definition FnValidator : Type := JsValue → bool.

Definition validate_fn (now : nat) (v : JsValue) (form : @FormInstance FnValidator)
    (validator : FnValidator) : Settled :=
  if validator v then Fulfilled else RejectedWith (JStr "invalid").

Definition accepting : FnValidator := λ _, true.
Definition rejecting : FnValidator := λ _, false.

(** The engine of this part takes its utilities as functions that return.
    For the concrete forms its projection is [fillPath_spec] where that
    returns, which it does on every path these forms use; the engine with
    utilities that may throw is [Throwing.submit]. *)
Definition fillPath_returning (values : JsValue) (path : string) (v : JsValue) : JsValue :=
  returned values (fillPath_spec values path v).

Definition submit_fn :=
  @submit FnValidator validate_fn getValidationError_spec fillPath_returning.
Definition runChains_fn :=
  @runChains FnValidator validate_fn getValidationError_spec fillPath_returning.

(** A field without validators, reset values or errors. *)
Definition plainField (n : string) (v : JsValue) : @Field FnValidator :=
  mkField (mkProps n JUndefined JUndefined None None None) v [] false false
          (String.concat "." (stringToPath_spec n)).

(** A field with the three validators given. *)
Definition checkedField (n : string) (v : JsValue)
    (onChange onBlur onSubmit_ : option FnValidator) : @Field FnValidator :=
  mkField (mkProps n JUndefined JUndefined onChange onBlur onSubmit_) v [] false false
          (String.concat "." (stringToPath_spec n)).

Definition four (v vbc v0 v1 : JsValue) : list (@Field FnValidator) :=
  [plainField "a" v; plainField "b.c" vbc; plainField "list[0]" v0; plainField "list[1]" v1].

(** A number input that starts at 0 and now holds 5. *)
Definition zeroField : @Field FnValidator :=
  mkField (mkProps "age" (JNum 0) JUndefined None None None) (JNum 5) [] true true "age".

(** Two handles whose names differ and denote the same path. *)
Definition bracketField : @Field FnValidator := plainField "list[0]" (JStr "x").
Definition dottedField : @Field FnValidator := plainField "list.0" (JStr "y").

(** A field the user has edited. *)
Definition editedField : @Field FnValidator :=
  mkField (mkProps "a" JUndefined JUndefined None None None) (JStr "x") [] true true "a".

(** ** Sequences of operations on the caches *)

Inductive Op {V : Type} : Type :=
| OpGet (s : Slot)
| OpRecomputeErrors
| OpRecomputeIsDirty
| OpRecomputeIsTouched
| OpReset
| OpRerender
| OpSetIsDirty (b : bool)
| OpSetIsTouched (b : bool)
| OpFields (fields : list (@Field V)).   (* the collaborators change the registry *)
Arguments Op V : clear implicits.

Definition runOp {V : Type} (op : Op V) (st : @FormState V) : @FormState V * list Slot :=
  match op with
  | OpGet SlotErrors => let '(_, st', log) := errorGetter st in (st', log)
  | OpGet SlotIsValid => let '(_, st', log) := isValidGetter st in (st', log)
  | OpGet SlotIsDirty => let '(_, st', log) := isDirtyGetter st in (st', log)
  | OpGet SlotIsTouched => let '(_, st', log) := isTouchedGetter st in (st', log)
  | OpRecomputeErrors => recomputeErrors st
  | OpRecomputeIsDirty => recomputeIsDirty st
  | OpRecomputeIsTouched => recomputeIsTouched st
  | OpReset => (reset st, [])
  | OpRerender => (rerender st, [])
  | OpSetIsDirty b => (setIsDirty b st, [])
  | OpSetIsTouched b => (setIsTouched b st, [])
  | OpFields fields => (with_fields fields st, [])
  end.

(** The state after the operations, and every aggregate computed on the
    way, oldest first. *)
Definition runOps {V : Type} (ops : list (Op V)) (st : @FormState V)
    : @FormState V * list Slot :=
  foldl (λ '(st, log) op, let '(st', log') := runOp op st in (st', log ++ log'))
        (st, []) ops.

(** ** [reset] in the specification's words *)

(** The reset value a field declares: [resetWithValue] if it is given,
    otherwise [initialValue] if it is given. *)
Definition declaredResetValue {V : Type} (field : @Field V) : option JsValue :=
  match resetWithValue (props field), initialValue (props field) with
  | JUndefined, JUndefined => None
  | JUndefined, v => Some v
  | v, _ => Some v
  end.

(** "if its value is list-shaped, replace with its declared
    reset-value-or-fallback-empty-list; if scalar-shaped, replace with its
    declared reset-value-or-fallback-empty-string" *)
Definition resetValue_as_stated {V : Type} (field : @Field V) : JsValue :=
  default (if isArray (value field) then JArr [] else JStr "")
          (declaredResetValue field).

(** ** Reading a trace of [submit] *)

Definition rank (type : ValidationType) : nat :=
  match type with
  | onChangeValidate_t => 0
  | onBlurValidate_t => 1
  | onSubmitValidate_t => 2
  end.

(** The validator calls made for the field at position [i], oldest first,
    each with the way it settled. *)
Definition calls {V : Type} (i : nat) (trace : list (@Event V))
    : list (ValidationType * Settled) :=
  omap (λ ev, match ev with
              | ValidateCalled j type _ _ r =>
                  if bool_decide (j = i) then Some (type, r) else None
              | _ => None
              end) trace.

(** The positions of the fields whose value was projected, oldest first. *)
Definition fillOrder {V : Type} (trace : list (@Event V)) : list nat :=
  omap (λ ev, match ev with FillPathCalled i _ _ => Some i | _ => None end) trace.

(** The result object built by projecting the fields at the positions
    [order], one after the other, into [{}]. *)
Definition project {V : Type} (fillPath : JsValue → string → JsValue → JsValue)
    (fields : list (@Field V)) (order : list nat) : JsValue :=
  foldl (λ values i,
           match fields !! i with
           | Some field => fillPath values (name (props field)) (value field)
           | None => values
           end) (JObj ∅) order.

(** The phases before rank [k] for which a field declares a validator. *)
Definition declaredBelow {V : Type} (field : @Field V) (k : nat) : list ValidationType :=
  filter (λ type, rank type < k ∧ is_Some (propsValidator (props field) type))
         [onChangeValidate_t; onBlurValidate_t; onSubmitValidate_t].

(** The form instance an event hands to user code. *)
Definition eventForm {V : Type} (ev : @Event V) : option (@FormInstance V) :=
  match ev with
  | ValidateCalled _ _ _ form _ => Some form
  | OnSubmitCalled _ form => Some form
  | _ => None
  end.

(** ** Schedules *)

(** How often the chain at position [i] is resumed by a schedule. *)
Definition resumptions (i : nat) (sched : list nat) : nat :=
  length (filter (λ j, j = i) sched).

(** A schedule that resumes each of the [n] chains at least three times:
    every awaited validator settles. *)
Definition fair (n : nat) (sched : list nat) : Prop :=
  ∀ i, i < n → 3 ≤ resumptions i sched.

(** The resumptions a chain still needs to settle. *)
Definition stepsLeft (c : Chain) : nat :=
  match c with
  | Awaiting type => 3 - rank type
  | Done _ => 0
  end.

(** ** The four slots, uniformly *)

(** What a slot holds: the error list, or one of the three booleans. *)
Inductive SlotValue : Type :=
| ErrorsValue (errs : list string)
| BoolValue (b : bool).

(** The aggregate of a slot over a registry. *)
Definition aggregate {V : Type} (s : Slot) (fields : list (@Field V)) : SlotValue :=
  match s with
  | SlotErrors => ErrorsValue (getErrors fields)
  | SlotIsValid => BoolValue (getValidBoolean fields)
  | SlotIsDirty => BoolValue (getFieldBoolean isDirty fields)
  | SlotIsTouched => BoolValue (getFieldBoolean isTouched fields)
  end.

(** The getter of a slot. *)
Definition readSlot {V : Type} (s : Slot) (st : @FormState V)
    : SlotValue * @FormState V * list Slot :=
  match s with
  | SlotErrors => let '(v, st', log) := errorGetter st in (ErrorsValue v, st', log)
  | SlotIsValid => let '(v, st', log) := isValidGetter st in (BoolValue v, st', log)
  | SlotIsDirty => let '(v, st', log) := isDirtyGetter st in (BoolValue v, st', log)
  | SlotIsTouched => let '(v, st', log) := isTouchedGetter st in (BoolValue v, st', log)
  end.

(** The recompute entry point of a slot: [recomputeErrors] serves both
    [errors] and [isValid]. *)
Definition recomputeSlot {V : Type} (s : Slot) (st : @FormState V)
    : @FormState V * list Slot :=
  match s with
  | SlotErrors | SlotIsValid => recomputeErrors st
  | SlotIsDirty => recomputeIsDirty st
  | SlotIsTouched => recomputeIsTouched st
  end.

(** The state cell of a slot. *)
Definition cached {V : Type} (s : Slot) (st : @FormState V) : Cell (option SlotValue) :=
  match s with
  | SlotErrors => mkCell (ErrorsValue <$> cur (_errors st)) (ErrorsValue <$> nxt (_errors st))
  | SlotIsValid => mkCell (BoolValue <$> cur (_isValid st)) (BoolValue <$> nxt (_isValid st))
  | SlotIsDirty => mkCell (BoolValue <$> cur (_isDirty st)) (BoolValue <$> nxt (_isDirty st))
  | SlotIsTouched => mkCell (BoolValue <$> cur (_isTouched st)) (BoolValue <$> nxt (_isTouched st))
  end.

(** ** The objects [baseValue] and [value], member by member *)

(** What sits under a key of a form instance. *)
Inductive Member : Type :=
| M_getFieldValue
| M_onChangeListenerRefs
| M_onBlurListenerRefs
| M_onMountListenerRefs
| M_isSubmitted
| M_setIsSubmitted
| M_formFieldsRef
| M_setIsTouched
| M_setIsDirty
| M_recomputeErrors
| M_recomputeIsDirty
| M_recomputeIsTouched
| M_reset
| M_getter (s : Slot)
| M_submit (impl : SubmitMember).

(** An object literal: its keys in insertion order, which is the order of
    [Object.keys]. *)
Definition JsObject : Type := list (string * Member).

(** [obj[key]] *)
Fixpoint getMember (key : string) (obj : JsObject) : option Member :=
  match obj with
  | [] => None
  | (k, m) :: rest => if bool_decide (k = key) then Some m else getMember key rest
  end.

(** [obj[key] = m]: an own key keeps its place, a new key goes last. *)
Fixpoint setMember (key : string) (m : Member) (obj : JsObject) : JsObject :=
  match obj with
  | [] => [(key, m)]
  | (k, m') :: rest =>
      if bool_decide (k = key) then (k, m) :: rest else (k, m') :: setMember key m rest
  end.

(** The object literal of the [baseValue] memo. *)
Definition baseValueObject : JsObject :=
  [("getFieldValue", M_getFieldValue);
   ("onChangeListenerRefs", M_onChangeListenerRefs);
   ("onBlurListenerRefs", M_onBlurListenerRefs);
   ("onMountListenerRefs", M_onMountListenerRefs);
   ("isSubmitted", M_isSubmitted);
   ("setIsSubmitted", M_setIsSubmitted);
   ("formFieldsRef", M_formFieldsRef);
   ("setIsTouched", M_setIsTouched);
   ("setIsDirty", M_setIsDirty);
   ("recomputeErrors", M_recomputeErrors);
   ("recomputeIsDirty", M_recomputeIsDirty);
   ("recomputeIsTouched", M_recomputeIsTouched);
   ("reset", M_reset);
   ("errors", M_getter SlotErrors);
   ("isValid", M_getter SlotIsValid);
   ("isDirty", M_getter SlotIsDirty);
   ("isTouched", M_getter SlotIsTouched);
   ("submit", M_submit SubmitStub)].

Definition omittedKeysToPick : list string :=
  ["errors"; "isValid"; "isDirty"; "isTouched"; "submit"; "reset"].

(** The object literal [val] of the [value] memo, before the loop. *)
Definition valLiteral : JsObject :=
  [("reset", M_reset);
   ("submit", M_submit SubmitReal);
   ("errors", M_getter SlotErrors);
   ("isValid", M_getter SlotIsValid);
   ("isDirty", M_getter SlotIsDirty);
   ("isTouched", M_getter SlotIsTouched)].

(** One turn of [for (const key of Object.keys(base))]: an omitted key is
    skipped, any other key is copied from [base]. *)
Definition pickKey (base : JsObject) (omitted : list string) (val : JsObject)
    (key : string) : JsObject :=
  if bool_decide (key ∈ omitted) then val
  else match getMember key base with
       | Some m => setMember key m val
       | None => val
       end.

Definition pickKeys (base : JsObject) (omitted : list string) (val : JsObject) : JsObject :=
  foldl (pickKey base omitted) val base.*1.

(** The object of the [value] memo. *)
Definition valueObject : JsObject := pickKeys baseValueObject omittedKeysToPick valLiteral.

(** ** Validators that look at the value only *)




(** ** [submit] with utilities that may throw

    In the source only the call of [validate] stands inside a [try]: the
    call of [getValidationError] stands in the [catch] handler and the call
    of [fillPath] after the three phases, so what either throws makes the
    async callback of the field reject, [Promise.all] reject with it, and
    [submit] reject in turn.  This is [submit] again, with the two
    utilities as functions that return or throw.  The setters of a field
    are state setters and return. *)

Module Throwing.

Section Engine.

Context {Validator : Type}.

Inductive Event : Type :=
| ValidateCalled (i : nat) (type : ValidationType) (v : JsValue)
                 (form : @FormInstance Validator) (r : Settled)
| GetValidationErrorThrew (i : nat) (error : JsValue) (exn : JsValue)
| SetErrorsCalled (i : nat) (errs : list string)
| FillPathCalled (i : nat) (path : string) (v : JsValue)
| FillPathThrew (i : nat) (path : string) (v : JsValue) (exn : JsValue)
| OnSubmitCalled (values : JsValue) (form : @FormInstance Validator).

(** Where the async callback of field [i] stands: suspended at the [await]
    of a phase, returned, or rejected with what was thrown in it. *)
Inductive Chain : Type :=
| Awaiting (type : ValidationType)
| Done (isValid : bool)
| Failed (exn : JsValue).

Record SubmitRun : Type := mkRun {
  run_form : @FormState Validator;
  run_chains : list Chain;
  run_values : JsValue;
  run_trace : list Event
}.

Context (validate : nat → JsValue → @FormInstance Validator → Validator → Settled).
Context (getValidationError : JsValue → Outcome (list string)).
Context (fillPath : JsValue → string → JsValue → Outcome JsValue).

Definition run_fields (r : SubmitRun) : list (@Field Validator) :=
  formFieldsRef (run_form r).

Definition emit (evs : list Event) (r : SubmitRun) : SubmitRun :=
  mkRun (run_form r) (run_chains r) (run_values r) (run_trace r ++ evs).

Definition setChain (i : nat) (c : Chain) (r : SubmitRun) : SubmitRun :=
  mkRun (run_form r) (<[i := c]> (run_chains r)) (run_values r) (run_trace r).

(** [formField.setErrors(errs)] for the handle at position [i]. *)
Definition run_setErrors (i : nat) (formField : @Field Validator) (errs : list string)
    (r : SubmitRun) : SubmitRun :=
  mkRun (with_fields (<[i := setErrors errs formField]> (run_fields r)) (run_form r))
        (run_chains r) (run_values r) (run_trace r).

Definition run_setValues (values : JsValue) (r : SubmitRun) : SubmitRun :=
  mkRun (run_form r) (run_chains r) values (run_trace r).

(** [runValidationType]: what it returns, or what was thrown in its
    [catch] handler. *)
Definition runValidationType (i : nat) (formField : @Field Validator)
    (type : ValidationType) (r : SubmitRun) : Outcome bool * SubmitRun :=
  match propsValidator (props formField) type with
  | None => (Returns true, r)
  | Some validator =>
      let form := baseValue (run_form r) in
      match validate (length (run_trace r)) (value formField) form validator with
      | Fulfilled =>
          (Returns true, emit [ValidateCalled i type (value formField) form Fulfilled] r)
      | RejectedWith error =>
          let called := ValidateCalled i type (value formField) form (RejectedWith error) in
          match getValidationError error with
          | Returns errs =>
              (Returns false,
               emit [called; SetErrorsCalled i errs] (run_setErrors i formField errs r))
          | Throws exn =>
              (Throws exn, emit [called; GetValidationErrorThrew i error exn] r)
          end
      end
  end.

(** One resumption of the chain of field [i]. *)
Definition chainStep (i : nat) (r : SubmitRun) : SubmitRun :=
  match run_chains r !! i, run_fields r !! i with
  | Some (Awaiting type), Some formField =>
      let '(res, r1) := runValidationType i formField type r in
      match res with
      | Throws exn => setChain i (Failed exn) r1
      | Returns false => setChain i (Done false) r1
      | Returns true =>
          match type with
          | onChangeValidate_t => setChain i (Awaiting onBlurValidate_t) r1
          | onBlurValidate_t => setChain i (Awaiting onSubmitValidate_t) r1
          | onSubmitValidate_t =>
              if bool_decide (0 < length (errors formField))
              then setChain i (Done false) r1
              else
                match fillPath (run_values r1) (name (props formField)) (value formField) with
                | Returns values =>
                    setChain i (Done true)
                      (emit [FillPathCalled i (name (props formField)) (value formField)]
                         (run_setValues values r1))
                | Throws exn =>
                    setChain i (Failed exn)
                      (emit [FillPathThrew i (name (props formField)) (value formField) exn]
                         r1)
                end
          end
      end
  | _, _ => r
  end.

Definition runChains (sched : list nat) (r : SubmitRun) : SubmitRun :=
  foldl (λ r i, chainStep i r) r sched.

Definition startRun (st : @FormState Validator) : SubmitRun :=
  mkRun st ((λ _, Awaiting onChangeValidate_t) <$> formFieldsRef st) (JObj ∅) [].

Definition chainResult (c : Chain) : option bool :=
  match c with Done b => Some b | Awaiting _ | Failed _ => None end.

(** What [Promise.all] resolves to, once every chain has returned. *)
Definition validArrays (r : SubmitRun) : option (list bool) :=
  mapM chainResult (run_chains r).

(** What was thrown in the async callbacks, oldest first: [Promise.all]
    rejects with the first. *)
Definition thrown (trace : list Event) : list JsValue :=
  omap (λ ev, match ev with
              | GetValidationErrorThrew _ _ exn => Some exn
              | FillPathThrew _ _ _ exn => Some exn
              | _ => None
              end) trace.

(** [submit] under a schedule; [None] while [Promise.all] is pending.  A
    throw in a chain settles [Promise.all], and with it [submit], at once;
    the chains of the other fields run on as the schedule says, and the
    state given back is the one they leave. *)
Definition submit (props_ : @FormProps Validator) (sched : list nat)
    (st : @FormState Validator)
    : option (SubmitResult * @FormState Validator * list Event) :=
  let st := setIsSubmitted true st in
  let r := runChains sched (startRun st) in
  match thrown (run_trace r) with
  | exn :: _ => Some (Rejected exn, run_form r, run_trace r)
  | [] =>
      match validArrays r with
      | None => None
      | Some valid =>
          if negb (default false (submitWhenInvalid props_))
             && negb (forallb (λ isValid, isValid) valid)
          then Some (Resolved false, run_form r, run_trace r)
          else
            match onSubmit props_ with
            | None => Some (Resolved true, run_form r, run_trace r)
            | Some callback =>
                let form := baseValue (run_form r) in
                let trace := run_trace r ++ [OnSubmitCalled (run_values r) form] in
                match callback (run_values r) form with
                | Returned => Some (Resolved true, run_form r, trace)
                | Threw exn => Some (Rejected exn, run_form r, trace)
                end
            end
      end
  end.

(** *** Reading a trace *)

(** The positions of the fields whose value was projected, oldest first. *)
Definition fillOrder (trace : list Event) : list nat :=
  omap (λ ev, match ev with FillPathCalled i _ _ => Some i | _ => None end) trace.

(** The validator calls made for the field at position [i], oldest first,
    each with the way it settled. *)
Definition calls (i : nat) (trace : list Event) : list (ValidationType * Settled) :=
  omap (λ ev, match ev with
              | ValidateCalled j type _ _ r =>
                  if bool_decide (j = i) then Some (type, r) else None
              | _ => None
              end) trace.

(** The result object built by projecting the fields at the positions
    [order], one after the other, into [{}]; it is there when every
    projection returned. *)
Definition project (fields : list (@Field Validator)) (order : list nat)
    : option JsValue :=
  foldl (λ acc i,
           match acc, fields !! i with
           | Some values, Some field =>
               match fillPath values (name (props field)) (value field) with
               | Returns values' => Some values'
               | Throws _ => None
               end
           | _, _ => None
           end) (Some (JObj ∅)) order.

(** The resumptions a chain still needs to settle. *)
Definition stepsLeft (c : Chain) : nat :=
  match c with
  | Awaiting type => 3 - rank type
  | Done _ | Failed _ => 0
  end.

End Engine.

(** *** A concrete instance *)

Definition submit_fn :=
  @submit FnValidator validate_fn (λ error, Returns (getValidationError_spec error))
          fillPath_spec.
Definition runChains_fn :=
  @runChains FnValidator validate_fn (λ error, Returns (getValidationError_spec error))
             fillPath_spec.

End Throwing.

(** *** The two engines side by side

    A run of the engine whose utilities return, read as a run of the
    engine whose utilities may throw. *)





(** Two fields whose paths collide: the value of the first is no object,
    the second belongs inside it. *)
Definition collidingFields : list (@Field FnValidator) :=
  [plainField "a" (JNum 5); plainField "a.b" (JNum 1)].

(** A field declared with the empty string as its reset value and 7 as its
    initial value, now holding 3. *)
Definition blankResetField : @Field FnValidator :=
  mkField (mkProps "n" (JNum 7) (JStr "") None None None) (JNum 3) [] true true "n".

(** * Properties *)

Section CacheProperties.

Context {Validator : Type}.
Implicit Types (st : @FormState Validator) (field : @Field Validator).
Implicit Types (fields R : list (@Field Validator)).

Lemma getErrors_foldl fields acc :
  foldl (λ acc field, acc ++ errors field) acc fields = acc ++ getErrors fields.
Proof.
  unfold getErrors. revert acc.
  induction fields as [|f fs IH] using rev_ind; intros acc.
  - simpl. by rewrite app_nil_r.
  - rewrite !foldl_app. simpl. rewrite IH. by rewrite app_assoc.
Qed.

Lemma getErrors_cons field fields :
  getErrors (field :: fields) = errors field ++ getErrors fields.
Proof. unfold getErrors at 1. simpl. apply getErrors_foldl. Qed.

Lemma getErrors_concat fields : getErrors fields = concat (errors <$> fields).
Proof.
  induction fields as [|f fs IH]; [done|].
  rewrite getErrors_cons, IH. done.
Qed.

Lemma elem_of_getErrors fields (msg : string) :
  msg ∈ getErrors fields ↔ ∃ field, field ∈ fields ∧ msg ∈ errors field.
Proof.
  induction fields as [|f fs IH].
  - split; [by intros ?%elem_of_nil|]. by intros (f & ?%elem_of_nil & _).
  - rewrite getErrors_cons, elem_of_app, IH. split.
    + intros [Hin|(g & Hg & Hin)]; [exists f|exists g]; split; try done;
        [left|by right].
    + intros (g & [->|Hg]%elem_of_cons & Hin); [by left|right; eauto].
Qed.

Lemma getValidBoolean_Forall R :
  getValidBoolean R = true ↔ Forall (λ field, errors field = []) R.
Proof.
  unfold getValidBoolean. case_bool_decide as Hlen.
  - destruct R; [|done]. split; [constructor|done].
  - rewrite forallb_forall, Forall_forall. split.
    + intros H f Hf. apply list_elem_of_In, H in Hf.
      apply bool_decide_eq_true in Hf. by apply nil_length_inv.
    + intros H f Hf. apply list_elem_of_In, H in Hf.
      apply bool_decide_eq_true. by rewrite Hf.
Qed.

(** C1 - the validity aggregate is true exactly when every field of the
    registry has an empty error list, so it is true on the empty registry;
    this aggregate is what the [isValid] getter computes, caches and returns
    when it is first read. *)
Theorem C1_isValid_aggregation R :
  (getValidBoolean R = true ↔ Forall (λ field, errors field = []) R)
  ∧ getValidBoolean (@nil (@Field Validator)) = true
  ∧ (isValidGetter (mount R)).1.1 = getValidBoolean R
  ∧ nxt (_isValid (isValidGetter (mount R)).1.2) = Some (getValidBoolean R).
Proof.
  split; [apply getValidBoolean_Forall|]. by repeat split.
Qed.

(** *** Laziness of the caches *)

Lemma recomputeIsDirty_unarmed st :
  armed SlotIsDirty st = false → recomputeIsDirty st = (st, []).
Proof. simpl. unfold recomputeIsDirty. by intros ->. Qed.

Lemma recomputeIsTouched_unarmed st :
  armed SlotIsTouched st = false → recomputeIsTouched st = (st, []).
Proof. simpl. unfold recomputeIsTouched. by intros ->. Qed.

Lemma recomputeErrors_unarmed st :
  armed SlotErrors st = false → armed SlotIsValid st = false →
  recomputeErrors st = (st, []).
Proof. simpl. unfold recomputeErrors. by intros -> ->. Qed.

Lemma recomputeErrors_armed_errors st :
  armed SlotErrors st = true →
  nxt (_errors (recomputeErrors st).1) = Some (getErrors (formFieldsRef st))
  ∧ SlotErrors ∈ (recomputeErrors st).2.
Proof.
  simpl. unfold recomputeErrors. intros ->. simpl.
  destruct (shouldRerenderIsValidOnRecompute st); simpl; split; try done;
    set_solver.
Qed.

Lemma recomputeErrors_armed_isValid st :
  armed SlotIsValid st = true →
  nxt (_isValid (recomputeErrors st).1) = Some (getValidBoolean (formFieldsRef st))
  ∧ SlotIsValid ∈ (recomputeErrors st).2.
Proof.
  simpl. unfold recomputeErrors. intros Hv.
  destruct (shouldRerenderErrorOnRecompute st); simpl; rewrite Hv; simpl;
    split; try done; set_solver.
Qed.

Lemma recomputeIsDirty_armed st :
  armed SlotIsDirty st = true →
  recomputeIsDirty st =
    (_setIsDirty (Some (getFieldBoolean isDirty (formFieldsRef st))) st, [SlotIsDirty]).
Proof. simpl. unfold recomputeIsDirty. by intros ->. Qed.

Lemma recomputeIsTouched_armed st :
  armed SlotIsTouched st = true →
  recomputeIsTouched st =
    (_setIsTouched (Some (getFieldBoolean isTouched (formFieldsRef st))) st, [SlotIsTouched]).
Proof. simpl. unfold recomputeIsTouched. by intros ->. Qed.

Lemma errorGetter_arms st : armed SlotErrors (errorGetter st).1.2 = true.
Proof. unfold errorGetter. simpl. by destruct (cur (_errors st)). Qed.

Lemma isValidGetter_arms st : armed SlotIsValid (isValidGetter st).1.2 = true.
Proof. unfold isValidGetter. simpl. by destruct (cur (_isValid st)). Qed.

Lemma isDirtyGetter_arms_when_uncached st :
  cur (_isDirty st) = None → armed SlotIsDirty (isDirtyGetter st).1.2 = true.
Proof. unfold isDirtyGetter. by intros ->. Qed.

Lemma isTouchedGetter_arms_when_uncached st :
  cur (_isTouched st) = None → armed SlotIsTouched (isTouchedGetter st).1.2 = true.
Proof. unfold isTouchedGetter. by intros ->. Qed.

(** A getter that finds a cached value hands it back and leaves the
    [isDirty] flag as it was. *)
Lemma isDirtyGetter_cached st b :
  cur (_isDirty st) = Some b → isDirtyGetter st = (b, st, []).
Proof. unfold isDirtyGetter. by intros ->. Qed.

Lemma isTouchedGetter_cached st b :
  cur (_isTouched st) = Some b → isTouchedGetter st = (b, st, []).
Proof. unfold isTouchedGetter. by intros ->. Qed.

End CacheProperties.

Section ResetProperties.

Context {Validator : Type}.
Implicit Types (st : @FormState Validator) (field : @Field Validator).

Lemma resetField_frame field :
  props (resetField field) = props field
  ∧ errors (resetField field) = errors field
  ∧ isDirty (resetField field) = isDirty field
  ∧ isTouched (resetField field) = isTouched field
  ∧ _normalizedDotName (resetField field) = _normalizedDotName field.
Proof. unfold resetField. by destruct (isArray (value field)). Qed.

Lemma resetField_value field :
  value (resetField field) =
    if truthy (resetWithValue (props field)) then resetWithValue (props field)
    else if truthy (initialValue (props field)) then initialValue (props field)
    else if isArray (value field) then JArr [] else JStr "".
Proof.
  unfold resetField, jsOr.
  destruct (isArray (value field)); simpl;
    destruct (truthy (resetWithValue (props field))) eqn:Hr; rewrite ?Hr; try done;
    destruct (truthy (initialValue (props field))) eqn:Hi; rewrite ?Hi; done.
Qed.

(** C9 - [reset] does not write the [isValid] cache nor its arming flag: a
    validity cached before the reset is what the getter returns after it,
    from the next render and from the same one, without computing the
    aggregate again; the cache follows the registry again when
    [recomputeErrors] runs on the armed slot. *)
Theorem C9_reset_keeps_isValid st (b : bool) (Hcached : nxt (_isValid st) = Some b) :
  _isValid (reset st) = _isValid st
  ∧ shouldRerenderIsValidOnRecompute (reset st) = shouldRerenderIsValidOnRecompute st
  ∧ isValidGetter (rerender (reset st)) = (b, arm SlotIsValid (rerender (reset st)), [])
  ∧ (∀ b', cur (_isValid st) = Some b' →
       isValidGetter (reset st) = (b', arm SlotIsValid (reset st), []))
  ∧ (shouldRerenderIsValidOnRecompute st = true →
       nxt (_isValid (recomputeErrors (reset st)).1)
       = Some (getValidBoolean (formFieldsRef (reset st)))).
Proof.
  split; [done|]. split; [done|]. split; [|split].
  - unfold isValidGetter. simpl. by rewrite Hcached.
  - intros b' Hcur. unfold isValidGetter. simpl. by rewrite Hcur.
  - intros Harmed. by apply recomputeErrors_armed_isValid.
Qed.

End ResetProperties.

Section LookupProperties.

Context {Validator : Type}.
Context (stringToPath : string → list string).
Implicit Types (st : @FormState Validator) (field f g : @Field Validator).

Lemma getFieldValue_exact st q j g :
  list_find (λ field, name (props field) = q) (formFieldsRef st) = Some (j, g) →
  getFieldValue stringToPath q st = Some (j, g).
Proof. unfold getFieldValue. by intros ->. Qed.

Lemma getFieldValue_fallback st q :
  list_find (λ field, name (props field) = q) (formFieldsRef st) = None →
  getFieldValue stringToPath q st =
    list_find (λ field, _normalizedDotName field = dottedName stringToPath q)
              (formFieldsRef st).
Proof. unfold getFieldValue. by intros ->. Qed.

Lemma getFieldValue_miss st q :
  getFieldValue stringToPath q st = None ↔
  Forall (λ field, name (props field) ≠ q
                   ∧ _normalizedDotName field ≠ dottedName stringToPath q)
         (formFieldsRef st).
Proof.
  unfold getFieldValue.
  destruct (list_find (λ field, name (props field) = q) (formFieldsRef st))
    as [[j g]|] eqn:Hexact.
  - split; [done|]. intros Hall.
    apply list_find_Some in Hexact as (Hj & Hq & _).
    rewrite Forall_forall in Hall.
    apply list_elem_of_lookup_2 in Hj. destruct (Hall g Hj) as [Hne _]. done.
  - rewrite list_find_None in Hexact. rewrite list_find_None.
    rewrite Forall_and. tauto.
Qed.

(** C8 (amended) - a query by the literal name of a registered handle, and a
    query by any path with the same dotted form, both resolve to that handle,
    provided every handle carries the dotted form of its own name and no
    other handle of the registry has the same dotted form.  The lookup takes
    the first handle with exactly the queried name; without one it takes the
    first handle whose normalized name is the dotted form of the query; it
    answers "not found" exactly when no handle matches either way. *)
Theorem C8_lookup_amended st i f (q : string)
    (Hreg : formFieldsRef st !! i = Some f)
    (Hnorm : ∀ j g, formFieldsRef st !! j = Some g →
               _normalizedDotName g = dottedName stringToPath (name (props g)))
    (Huniq : ∀ j g, formFieldsRef st !! j = Some g →
               _normalizedDotName g = _normalizedDotName f → j = i)
    (Hequiv : dottedName stringToPath q = dottedName stringToPath (name (props f))) :
  getFieldValue stringToPath (name (props f)) st = Some (i, f)
  ∧ getFieldValue stringToPath q st = Some (i, f)
  ∧ (∀ q' j g,
       list_find (λ field, name (props field) = q') (formFieldsRef st) = Some (j, g) →
       getFieldValue stringToPath q' st = Some (j, g))
  ∧ (∀ q',
       list_find (λ field, name (props field) = q') (formFieldsRef st) = None →
       getFieldValue stringToPath q' st =
         list_find (λ field, _normalizedDotName field = dottedName stringToPath q')
                   (formFieldsRef st))
  ∧ (∀ q',
       getFieldValue stringToPath q' st = None ↔
       Forall (λ field, name (props field) ≠ q'
                        ∧ _normalizedDotName field ≠ dottedName stringToPath q')
              (formFieldsRef st)).
Proof.
  assert (Hsame : ∀ q0, dottedName stringToPath q0 = dottedName stringToPath (name (props f)) →
            getFieldValue stringToPath q0 st = Some (i, f)).
  { intros q0 Hq0. unfold getFieldValue.
    destruct (list_find (λ field, name (props field) = q0) (formFieldsRef st))
      as [[j g]|] eqn:Hexact.
    - apply list_find_Some in Hexact as (Hj & Hq & _).
      assert (j = i) as ->.
      { apply (Huniq j g Hj). rewrite (Hnorm j g Hj), (Hnorm i f Hreg).
        simpl in Hq. by rewrite Hq. }
      congruence.
    - destruct (list_find (λ field, _normalizedDotName field = dottedName stringToPath q0)
                  (formFieldsRef st)) as [[j g]|] eqn:Hfb.
      + apply list_find_Some in Hfb as (Hj & Hq & _). simpl in Hq.
        assert (j = i) as ->.
        { apply (Huniq j g Hj). by rewrite Hq, Hq0, (Hnorm i f Hreg). }
        congruence.
      + rewrite list_find_None, Forall_forall in Hfb.
        apply list_elem_of_lookup_2 in Hreg as Hin. apply Hfb in Hin as Hfb'.
        rename Hfb' into Hfb''. clear Hfb. rename Hfb'' into Hfb.
        exfalso. apply Hfb. by rewrite Hq0, <- (Hnorm i f Hreg). }
  split; [by apply Hsame|]. split; [by apply Hsame|].
  split; [intros; by apply getFieldValue_exact|].
  split; [intros; by apply getFieldValue_fallback|].
  intros; apply getFieldValue_miss.
Qed.

End LookupProperties.

Section SubmitProperties.

Context {Validator : Type}.
Context (validate : nat → JsValue → @FormInstance Validator → Validator → Settled).
Context (getValidationError : JsValue → list string).
Context (fillPath : JsValue → string → JsValue → JsValue).

Implicit Types (st : @FormState Validator) (f field : @Field Validator).
Implicit Types (r : @SubmitRun Validator) (c : Chain) (i j : nat).

Local Abbreviation chainStep_ := (chainStep validate getValidationError fillPath).
Local Abbreviation runChains_ := (runChains validate getValidationError fillPath).
Local Abbreviation submit_ := (submit validate getValidationError fillPath).

(** *** One resumption, as a relation *)

(** The awaited phase of [f] is passed: no validator is declared for it, or
    the declared one is called and fulfils. *)
Definition passed j f (type : ValidationType) r (evs : list (@Event Validator)) : Prop :=
  (propsValidator (props f) type = None ∧ evs = [])
  ∨ (∃ validator,
       propsValidator (props f) type = Some validator
       ∧ validate (length (run_trace r)) (value f) (baseValue (run_form r)) validator
         = Fulfilled
       ∧ evs = [ValidateCalled j type (value f) (baseValue (run_form r)) Fulfilled]).

Inductive stepOf j r r' : Prop :=
| step_idle :
    r' = r →
    (∀ type f, run_chains r !! j = Some (Awaiting type) → run_fields r !! j = Some f → False) →
    stepOf j r r'
| step_advance type next f evs :
    run_chains r !! j = Some (Awaiting type) →
    run_fields r !! j = Some f →
    passed j f type r evs →
    rank next = S (rank type) →
    run_form r' = run_form r →
    run_chains r' = <[j := Awaiting next]> (run_chains r) →
    run_values r' = run_values r →
    run_trace r' = run_trace r ++ evs →
    stepOf j r r'
| step_stale f evs :
    run_chains r !! j = Some (Awaiting onSubmitValidate_t) →
    run_fields r !! j = Some f →
    passed j f onSubmitValidate_t r evs →
    errors f ≠ [] →
    run_form r' = run_form r →
    run_chains r' = <[j := Done false]> (run_chains r) →
    run_values r' = run_values r →
    run_trace r' = run_trace r ++ evs →
    stepOf j r r'
| step_fill f evs :
    run_chains r !! j = Some (Awaiting onSubmitValidate_t) →
    run_fields r !! j = Some f →
    passed j f onSubmitValidate_t r evs →
    errors f = [] →
    run_form r' = run_form r →
    run_chains r' = <[j := Done true]> (run_chains r) →
    run_values r' = fillPath (run_values r) (name (props f)) (value f) →
    run_trace r' = run_trace r ++ evs ++ [FillPathCalled j (name (props f)) (value f)] →
    stepOf j r r'
| step_reject type f validator error :
    run_chains r !! j = Some (Awaiting type) →
    run_fields r !! j = Some f →
    propsValidator (props f) type = Some validator →
    validate (length (run_trace r)) (value f) (baseValue (run_form r)) validator
      = RejectedWith error →
    run_form r' =
      with_fields (<[j := setErrors (getValidationError error) f]> (run_fields r)) (run_form r) →
    run_chains r' = <[j := Done false]> (run_chains r) →
    run_values r' = run_values r →
    run_trace r' = run_trace r ++
      [ValidateCalled j type (value f) (baseValue (run_form r)) (RejectedWith error);
       SetErrorsCalled j (getValidationError error)] →
    stepOf j r r'.

Lemma chainStep_stepOf j r : stepOf j r (chainStep_ j r).
Proof.
  unfold chainStep.
  destruct (run_chains r !! j) as [[type|b]|] eqn:Hc;
    [|by apply step_idle; [|intros; congruence]..].
  destruct (run_fields r !! j) as [f|] eqn:Hf;
    [|by apply step_idle; [|intros; congruence]].
  unfold runValidationType.
  destruct (propsValidator (props f) type) as [validator|] eqn:Hv.
  - destruct (validate (length (run_trace r)) (value f) (baseValue (run_form r)) validator)
      as [|error] eqn:Hr.
    + assert (passed j f type r
                [ValidateCalled j type (value f) (baseValue (run_form r)) Fulfilled])
        as Hp by (right; eauto).
      destruct type; simpl.
      * by eapply (step_advance _ _ _ _ onBlurValidate_t).
      * by eapply (step_advance _ _ _ _ onSubmitValidate_t).
      * case_bool_decide as He.
        -- eapply step_stale; eauto. intros E. rewrite E in He. simpl in He. lia.
        -- eapply step_fill; eauto; simpl.
           ++ destruct (errors f); [done|]. simpl in He. lia.
           ++ by rewrite <- app_assoc.
    + simpl. by eapply step_reject.
  - assert (passed j f type r []) as Hp by (by left).
    destruct type; simpl.
    + eapply (step_advance _ _ _ _ onBlurValidate_t); eauto; simpl; by rewrite ?app_nil_r.
    + eapply (step_advance _ _ _ _ onSubmitValidate_t); eauto; simpl; by rewrite ?app_nil_r.
    + case_bool_decide as He.
      * eapply step_stale; eauto; simpl; rewrite ?app_nil_r; try done.
        intros E. rewrite E in He. simpl in He. lia.
      * eapply step_fill; eauto; simpl.
        destruct (errors f); [done|]. simpl in He. lia.
Qed.

Lemma runChains_snoc sched j r :
  runChains_ (sched ++ [j]) r = chainStep_ j (runChains_ sched r).
Proof. unfold runChains. by rewrite foldl_app. Qed.

(** Induction over the resumptions of a run. *)
Lemma runChains_invariant (P : @SubmitRun Validator → Prop) r0 :
  P r0 → (∀ j r r', P r → stepOf j r r' → P r') → ∀ sched, P (runChains_ sched r0).
Proof.
  intros H0 Hstep sched. induction sched as [|j sched IH] using rev_ind; [done|].
  rewrite runChains_snoc. eapply Hstep; [exact IH|apply chainStep_stepOf].
Qed.

(** *** Reading traces *)

Lemma calls_app i (t1 t2 : list (@Event Validator)) :
  calls i (t1 ++ t2) = calls i t1 ++ calls i t2.
Proof. apply omap_app. Qed.

Lemma fillOrder_app (t1 t2 : list (@Event Validator)) :
  fillOrder (t1 ++ t2) = fillOrder t1 ++ fillOrder t2.
Proof. apply omap_app. Qed.

Lemma passed_calls i j f type r evs :
  passed j f type r evs →
  calls i evs =
    if bool_decide (j = i)
    then (if propsValidator (props f) type is Some _ then [(type, Fulfilled)] else [])
    else [].
Proof.
  intros [[Hv ->]|(validator & Hv & _ & ->)]; rewrite Hv; simpl;
    by case_bool_decide.
Qed.

Lemma passed_fillOrder j f type r evs : passed j f type r evs → fillOrder evs = [].
Proof. by intros [[_ ->]|(validator & _ & _ & ->)]. Qed.

Lemma declaredBelow_S f type :
  declaredBelow f (S (rank type)) =
    declaredBelow f (rank type)
      ++ (if propsValidator (props f) type is Some _ then [type] else []).
Proof.
  unfold declaredBelow.
  destruct f as [[n iv rv [?|] [?|] [?|]] v e d t nn]; destruct type; reflexivity.
Qed.

Lemma project_snoc (fields : list (@Field Validator)) order i f :
  fields !! i = Some f →
  project fillPath fields (order ++ [i]) =
    fillPath (project fillPath fields order) (name (props f)) (value f).
Proof. intros Hf. unfold project. rewrite foldl_app. simpl. by rewrite Hf. Qed.

(** *** The invariant of a run *)

(** What the chain of a field says about the validator calls made for it.
    [f0] is the field as it was when [submit] started. *)
Definition chainInv (f0 : @Field Validator) c (cs : list (ValidationType * Settled)) : Prop :=
  match c with
  | Awaiting type =>
      cs.*1 = declaredBelow f0 (rank type) ∧ Forall (λ call, call.2 = Fulfilled) cs
  | Done true =>
      cs.*1 = declaredBelow f0 3 ∧ Forall (λ call, call.2 = Fulfilled) cs
      ∧ errors f0 = []
  | Done false =>
      (∃ cs' type error,
         cs = cs' ++ [(type, RejectedWith error)]
         ∧ cs'.*1 = declaredBelow f0 (rank type)
         ∧ Forall (λ call, call.2 = Fulfilled) cs'
         ∧ is_Some (propsValidator (props f0) type))
      ∨ (cs.*1 = declaredBelow f0 3 ∧ Forall (λ call, call.2 = Fulfilled) cs
         ∧ errors f0 ≠ [])
  end.

(** Every call of user code gets the value the field had at the start, the
    base instance, and settles as [validate] says; every projection uses
    the field's own name and value. *)
Definition eventOk (fields0 : list (@Field Validator)) (ev : @Event Validator) : Prop :=
  match ev with
  | ValidateCalled i type v form res =>
      ∃ f0 validator st' now,
        fields0 !! i = Some f0
        ∧ propsValidator (props f0) type = Some validator
        ∧ v = value f0 ∧ form = baseValue st'
        ∧ res = validate now v form validator
  | FillPathCalled i path v =>
      ∃ f0, fields0 !! i = Some f0 ∧ path = name (props f0) ∧ v = value f0
  | SetErrorsCalled i errs => True
  | OnSubmitCalled values form => False
  end.

Record RunInv (st0 : @FormState Validator) r : Prop := mkRunInv {
  inv_form : run_form r = with_fields (run_fields r) st0;
  inv_chains_length : length (run_chains r) = length (formFieldsRef st0);
  inv_fields_length : length (run_fields r) = length (formFieldsRef st0);
  inv_fields : ∀ i f, run_fields r !! i = Some f →
      ∃ f0, formFieldsRef st0 !! i = Some f0
            ∧ props f = props f0 ∧ value f = value f0
            ∧ (run_chains r !! i ≠ Some (Done false) → f = f0);
  inv_values : run_values r = project fillPath (formFieldsRef st0) (fillOrder (run_trace r));
  inv_fill_NoDup : NoDup (fillOrder (run_trace r));
  inv_fill_done : ∀ i, i ∈ fillOrder (run_trace r) ↔ run_chains r !! i = Some (Done true);
  inv_chain : ∀ i c f0, run_chains r !! i = Some c → formFieldsRef st0 !! i = Some f0 →
      chainInv f0 c (calls i (run_trace r));
  inv_events : Forall (eventOk (formFieldsRef st0)) (run_trace r);
  inv_reject : ∀ i type v form error,
      ValidateCalled i type v form (RejectedWith error) ∈ run_trace r →
      run_chains r !! i = Some (Done false)
      ∧ ∃ f, run_fields r !! i = Some f ∧ errors f = getValidationError error
}.

Lemma startRun_inv st0 : RunInv st0 (startRun st0).
Proof.
  split; simpl; try done.
  - by destruct st0.
  - by rewrite length_fmap.
  - intros i f Hf. by exists f.
  - constructor.
  - intros i. rewrite list_lookup_fmap. split; [by intros ?%elem_of_nil|].
    by destruct (formFieldsRef st0 !! i).
  - intros i c f0. rewrite list_lookup_fmap. intros Hc Hf0. rewrite Hf0 in Hc.
    simplify_eq/=. split; [|constructor].
    unfold declaredBelow. simpl.
    repeat (rewrite filter_cons, decide_False by (simpl; lia)). done.
  - intros i type v form error Hin. by apply elem_of_nil in Hin.
Qed.

(** *** What one resumption changes *)

Ltac step_cases H :=
  destruct H as
    [-> Hidle
    | type next f evs Hc Hf Hp Hrank Hform Hch Hval Htr
    | f evs Hc Hf Hp Herr Hform Hch Hval Htr
    | f evs Hc Hf Hp Herr Hform Hch Hval Htr
    | type f validator error Hc Hf Hv Hres Hform Hch Hval Htr].

Lemma step_chain_other i j r r' :
  stepOf j r r' → i ≠ j → run_chains r' !! i = run_chains r !! i.
Proof.
  intros Hstep Hne. step_cases Hstep; [done|..];
    rewrite Hch; by apply list_lookup_insert_ne.
Qed.

Lemma step_fields_other i j r r' :
  stepOf j r r' → i ≠ j → run_fields r' !! i = run_fields r !! i.
Proof.
  intros Hstep Hne. unfold run_fields.
  step_cases Hstep; [done|..]; rewrite Hform; try done.
  simpl. by apply list_lookup_insert_ne.
Qed.

Lemma step_calls_other i j r r' :
  stepOf j r r' → i ≠ j → calls i (run_trace r') = calls i (run_trace r).
Proof.
  intros Hstep Hne. step_cases Hstep; [done|..]; rewrite Htr, ?calls_app;
    rewrite ?(passed_calls i _ _ _ _ _ Hp); simpl;
    rewrite ?bool_decide_eq_false_2 by done; by rewrite ?app_nil_r.
Qed.

Lemma step_inv_form st0 j r r' :
  RunInv st0 r → stepOf j r r' → run_form r' = with_fields (run_fields r') st0.
Proof.
  intros Hinv Hstep. pose proof (inv_form _ _ Hinv) as Hfm. unfold run_fields in *.
  step_cases Hstep; [done|..]; rewrite Hform; try done.
  rewrite Hfm. done.
Qed.

Lemma step_inv_lengths st0 j r r' :
  RunInv st0 r → stepOf j r r' →
  length (run_chains r') = length (formFieldsRef st0)
  ∧ length (run_fields r') = length (formFieldsRef st0).
Proof.
  intros Hinv Hstep.
  pose proof (inv_chains_length _ _ Hinv) as Hlc.
  pose proof (inv_fields_length _ _ Hinv) as Hlf. unfold run_fields in *.
  step_cases Hstep; [done|..]; rewrite Hch, Hform, length_insert; try done.
  simpl. by rewrite length_insert.
Qed.

Lemma step_inv_fields st0 j r r' :
  RunInv st0 r → stepOf j r r' →
  ∀ i f, run_fields r' !! i = Some f →
    ∃ f0, formFieldsRef st0 !! i = Some f0
          ∧ props f = props f0 ∧ value f = value f0
          ∧ (run_chains r' !! i ≠ Some (Done false) → f = f0).
Proof.
  intros Hinv Hstep i fi Hfi.
  destruct (decide (i = j)) as [->|Hne].
  - pose proof (inv_fields _ _ Hinv j) as Hold.
    assert (∀ type f, run_chains r !! j = Some (Awaiting type) →
              run_fields r !! j = Some f →
              ∃ f0, formFieldsRef st0 !! j = Some f0 ∧ f = f0) as Hsame.
    { intros type f Hc Hf. destruct (Hold f Hf) as (f0 & Hf0 & _ & _ & Heq).
      exists f0. split; [done|]. apply Heq. by rewrite Hc. }
    unfold run_fields in Hfi.
    step_cases Hstep; [by apply Hold|..]; rewrite Hform in Hfi.
    + destruct (Hsame _ _ Hc Hf) as (f0 & Hf0 & ->).
      unfold run_fields in Hf. simplify_eq. by exists f0.
    + destruct (Hsame _ _ Hc Hf) as (f0 & Hf0 & ->).
      unfold run_fields in Hf. simplify_eq. by exists f0.
    + destruct (Hsame _ _ Hc Hf) as (f0 & Hf0 & ->).
      unfold run_fields in Hf. simplify_eq. by exists f0.
    + destruct (Hsame _ _ Hc Hf) as (f0 & Hf0 & ->).
      simpl in Hfi. rewrite list_lookup_insert_eq in Hfi
        by (by eapply lookup_lt_Some).
      simplify_eq. exists f0. repeat split; try done.
      rewrite Hch, list_lookup_insert_eq by (by eapply lookup_lt_Some). done.
  - rewrite (step_fields_other _ _ _ _ Hstep Hne) in Hfi.
    rewrite (step_chain_other _ _ _ _ Hstep Hne).
    by apply (inv_fields _ _ Hinv).
Qed.

Lemma step_inv_fill st0 j r r' :
  RunInv st0 r → stepOf j r r' →
  run_values r' = project fillPath (formFieldsRef st0) (fillOrder (run_trace r'))
  ∧ NoDup (fillOrder (run_trace r'))
  ∧ (∀ i, i ∈ fillOrder (run_trace r') ↔ run_chains r' !! i = Some (Done true)).
Proof.
  intros Hinv Hstep.
  pose proof (inv_values _ _ Hinv) as Hv0.
  pose proof (inv_fill_NoDup _ _ Hinv) as Hnd.
  pose proof (inv_fill_done _ _ Hinv) as Hdone.
  assert (∀ type, run_chains r !! j = Some (Awaiting type) →
            j ∉ fillOrder (run_trace r)) as Hfresh.
  { intros type Hc Hin. apply Hdone in Hin. congruence. }
  assert (∀ c i, c ≠ Done true → run_chains r !! j ≠ Some (Done true) →
            (i ∈ fillOrder (run_trace r) ↔ <[j := c]> (run_chains r) !! i = Some (Done true)))
    as Hkeep.
  { intros c i Hc Hold. destruct (decide (i = j)) as [->|Hne].
    - rewrite Hdone. split; [done|].
      intros Hl. apply list_lookup_insert_Some in Hl. naive_solver.
    - by rewrite list_lookup_insert_ne. }
  step_cases Hstep; [done|..]; rewrite Hval, Htr, Hch, ?fillOrder_app.
  - rewrite (passed_fillOrder _ _ _ _ _ Hp), app_nil_r.
    repeat split; try done; apply Hkeep; congruence.
  - rewrite (passed_fillOrder _ _ _ _ _ Hp), app_nil_r.
    repeat split; try done; apply Hkeep; congruence.
  - rewrite (passed_fillOrder _ _ _ _ _ Hp). simpl.
    destruct (inv_fields _ _ Hinv j f Hf) as (f0 & Hf0 & _ & _ & Heq).
    rewrite Heq in * by (by rewrite Hc). split; [|split].
    + rewrite (project_snoc _ _ _ _ Hf0). by rewrite Hv0.
    + apply NoDup_app. split; [done|]. split; [|apply NoDup_singleton].
      intros x Hx ->%list_elem_of_singleton. by eapply Hfresh.
    + intros i. rewrite elem_of_app, list_elem_of_singleton.
      destruct (decide (i = j)) as [->|Hne].
      * rewrite list_lookup_insert_eq by (by eapply lookup_lt_Some). naive_solver.
      * rewrite list_lookup_insert_ne by done. rewrite Hdone. naive_solver.
  - simpl. rewrite app_nil_r.
    repeat split; try done; apply Hkeep; congruence.
Qed.

Lemma step_inv_chain st0 j r r' :
  RunInv st0 r → stepOf j r r' →
  ∀ i c f0, run_chains r' !! i = Some c → formFieldsRef st0 !! i = Some f0 →
    chainInv f0 c (calls i (run_trace r')).
Proof.
  intros Hinv Hstep i c f0 Hci Hf0.
  destruct (decide (i = j)) as [->|Hne].
  2:{ rewrite (step_calls_other _ _ _ _ Hstep Hne).
      rewrite (step_chain_other _ _ _ _ Hstep Hne) in Hci.
      by apply (inv_chain _ _ Hinv). }
  assert (∀ type f, run_chains r !! j = Some (Awaiting type) →
            run_fields r !! j = Some f →
            f = f0 ∧ (calls j (run_trace r)).*1 = declaredBelow f0 (rank type)
            ∧ Forall (λ call, call.2 = Fulfilled) (calls j (run_trace r))) as Hold.
  { intros type f Hc Hf.
    destruct (inv_fields _ _ Hinv j f Hf) as (f0' & Hf0' & _ & _ & Heq).
    rewrite Heq by (by rewrite Hc). split; [congruence|].
    apply (inv_chain _ _ Hinv j (Awaiting type) f0 Hc Hf0). }
  assert (∀ type f evs, passed j f type r evs → f = f0 →
            (calls j (run_trace r)).*1 = declaredBelow f0 (rank type) →
            Forall (λ call, call.2 = Fulfilled) (calls j (run_trace r)) →
            (calls j (run_trace r ++ evs)).*1 = declaredBelow f0 (S (rank type))
            ∧ Forall (λ call, call.2 = Fulfilled) (calls j (run_trace r ++ evs)))
    as Hpass.
  { intros type f evs Hp -> Hcs Hful.
    rewrite calls_app, (passed_calls j _ _ _ _ _ Hp), bool_decide_eq_true_2 by done.
    rewrite declaredBelow_S, fmap_app, Hcs.
    destruct (propsValidator (props f0) type); simpl.
    - split; [done|]. apply Forall_app. split; [done|]. by repeat constructor.
    - by rewrite !app_nil_r. }
  step_cases Hstep.
  - by apply (inv_chain _ _ Hinv).
  - rewrite Hch, list_lookup_insert_eq in Hci by (by eapply lookup_lt_Some).
    simplify_eq. destruct (Hold _ _ Hc Hf) as (-> & Hcs & Hful).
    rewrite Htr. simpl. rewrite Hrank. by eapply Hpass.
  - rewrite Hch, list_lookup_insert_eq in Hci by (by eapply lookup_lt_Some).
    simplify_eq. destruct (Hold _ _ Hc Hf) as (-> & Hcs & Hful).
    rewrite Htr. simpl. right.
    destruct (Hpass _ _ _ Hp eq_refl Hcs Hful) as [H1 H2]. done.
  - rewrite Hch, list_lookup_insert_eq in Hci by (by eapply lookup_lt_Some).
    simplify_eq. destruct (Hold _ _ Hc Hf) as (-> & Hcs & Hful).
    rewrite Htr. simpl.
    destruct (Hpass _ _ _ Hp eq_refl Hcs Hful) as [H1 H2].
    rewrite app_assoc, calls_app. simpl. rewrite app_nil_r. done.
  - rewrite Hch, list_lookup_insert_eq in Hci by (by eapply lookup_lt_Some).
    simplify_eq. destruct (Hold _ _ Hc Hf) as (-> & Hcs & Hful).
    rewrite Htr. simpl. left.
    exists (calls j (run_trace r)), type, error.
    rewrite calls_app. simpl. rewrite bool_decide_eq_true_2 by done.
    rewrite Hv. eauto.
Qed.

Lemma passed_eventOk st0 j f0 type r evs :
  formFieldsRef st0 !! j = Some f0 →
  passed j f0 type r evs → Forall (eventOk (formFieldsRef st0)) evs.
Proof.
  intros Hf0 [[_ ->]|(validator & Hv & Hres & ->)]; [constructor|].
  repeat constructor. exists f0, validator, (run_form r), (length (run_trace r)).
  by rewrite Hres.
Qed.

Lemma step_inv_events st0 j r r' :
  RunInv st0 r → stepOf j r r' → Forall (eventOk (formFieldsRef st0)) (run_trace r').
Proof.
  intros Hinv Hstep. pose proof (inv_events _ _ Hinv) as Hev.
  assert (∀ type f, run_chains r !! j = Some (Awaiting type) →
            run_fields r !! j = Some f → formFieldsRef st0 !! j = Some f) as Hsame.
  { intros type f Hc Hf.
    destruct (inv_fields _ _ Hinv j f Hf) as (f0 & Hf0 & _ & _ & Heq).
    by rewrite Heq by (by rewrite Hc). }
  step_cases Hstep; [done|..]; rewrite Htr; apply Forall_app; split; try done.
  - eapply passed_eventOk; eauto.
  - eapply passed_eventOk; eauto.
  - apply Forall_app. split; [eapply passed_eventOk; eauto|].
    repeat constructor. exists f. eauto.
  - repeat constructor. exists f, validator, (run_form r), (length (run_trace r)).
    rewrite Hres. eauto 10.
Qed.

Lemma passed_no_reject i j f type0 r evs type v form error :
  passed j f type0 r evs →
  ValidateCalled i type v form (RejectedWith error) ∉ evs.
Proof.
  intros [[_ ->]|(validator & _ & _ & ->)] Hin; [by apply elem_of_nil in Hin|].
  apply list_elem_of_singleton in Hin. congruence.
Qed.

Lemma step_inv_reject st0 j r r' :
  RunInv st0 r → stepOf j r r' →
  ∀ i type v form error,
    ValidateCalled i type v form (RejectedWith error) ∈ run_trace r' →
    run_chains r' !! i = Some (Done false)
    ∧ ∃ f, run_fields r' !! i = Some f ∧ errors f = getValidationError error.
Proof.
  intros Hinv Hstep i type0 v form error0 Hin.
  pose proof (inv_reject _ _ Hinv i type0 v form error0) as Hold.
  assert (ValidateCalled i type0 v form (RejectedWith error0) ∈ run_trace r → i ≠ j →
          run_chains r' !! i = Some (Done false)
          ∧ ∃ f, run_fields r' !! i = Some f ∧ errors f = getValidationError error0)
    as Hother.
  { intros Hin' Hne. rewrite (step_chain_other _ _ _ _ Hstep Hne).
    rewrite (step_fields_other _ _ _ _ Hstep Hne). by apply Hold. }
  assert (∀ type, run_chains r !! j = Some (Awaiting type) →
            ValidateCalled i type0 v form (RejectedWith error0) ∈ run_trace r → i ≠ j)
    as Hne.
  { intros type Hc Hin' ->. apply Hold in Hin' as [Hd _]. congruence. }
  step_cases Hstep; [by apply Hold|..]; rewrite Htr in Hin;
    repeat (apply elem_of_app in Hin as [Hin|Hin]); eauto;
    try (by eapply passed_no_reject in Hin).
  - by apply list_elem_of_singleton in Hin.
  - apply elem_of_cons in Hin as [Hin|Hin];
      [|by apply list_elem_of_singleton in Hin].
    simplify_eq. rewrite Hch. unfold run_fields. rewrite Hform. simpl.
    rewrite !list_lookup_insert_eq by (by eapply lookup_lt_Some).
    split; [done|]. by eexists.
Qed.

(** Every resumption keeps the invariant. *)
Lemma step_inv st0 j r r' : RunInv st0 r → stepOf j r r' → RunInv st0 r'.
Proof.
  intros Hinv Hstep.
  destruct (step_inv_lengths _ _ _ _ Hinv Hstep) as [Hlc Hlf].
  destruct (step_inv_fill _ _ _ _ Hinv Hstep) as (Hv & Hnd & Hdone).
  split; try done.
  - by eapply step_inv_form.
  - by eapply step_inv_fields.
  - by eapply step_inv_chain.
  - by eapply step_inv_events.
  - by eapply step_inv_reject.
Qed.

Lemma runChains_inv st0 sched : RunInv st0 (runChains_ sched (startRun st0)).
Proof.
  apply runChains_invariant; [apply startRun_inv|].
  intros j r r'. apply step_inv.
Qed.

(** *** Every chain settles *)

Lemma step_progress st0 j r r' c :
  RunInv st0 r → stepOf j r r' → run_chains r !! j = Some c →
  ∃ c', run_chains r' !! j = Some c' ∧ stepsLeft c' ≤ stepsLeft c - 1.
Proof.
  intros Hinv Hstep Hcj.
  assert (j < length (run_chains r)) as Hlt by (by eapply lookup_lt_Some).
  step_cases Hstep.
  - destruct c as [type|b]; [|exists (Done b); split; [done|simpl; lia]].
    destruct (lookup_lt_is_Some_2 (run_fields r) j) as [f Hf].
    { rewrite (inv_fields_length _ _ Hinv), <- (inv_chains_length _ _ Hinv). done. }
    destruct (Hidle _ _ Hcj Hf).
  - rewrite Hch, list_lookup_insert_eq by done. eexists; split; [done|].
    simplify_eq. simpl. lia.
  - rewrite Hch, list_lookup_insert_eq by done. eexists; split; [done|simpl; lia].
  - rewrite Hch, list_lookup_insert_eq by done. eexists; split; [done|simpl; lia].
  - rewrite Hch, list_lookup_insert_eq by done. eexists; split; [done|simpl; lia].
Qed.

Lemma runChains_progress st0 sched r i c :
  RunInv st0 r → run_chains r !! i = Some c →
  ∃ c', run_chains (runChains_ sched r) !! i = Some c'
        ∧ stepsLeft c' ≤ stepsLeft c - resumptions i sched.
Proof.
  revert r c. induction sched as [|j sched IH]; intros r c Hinv Hc.
  - exists c. split; [done|]. unfold resumptions. simpl. lia.
  - pose proof (chainStep_stepOf j r) as Hstep.
    pose proof (step_inv _ _ _ _ Hinv Hstep) as Hinv'.
    change (runChains_ (j :: sched) r) with (runChains_ sched (chainStep_ j r)).
    unfold resumptions. rewrite filter_cons. case_decide as Hji.
    + subst j. destruct (step_progress _ _ _ _ _ Hinv Hstep Hc) as (c1 & Hc1 & Hle1).
      destruct (IH _ _ Hinv' Hc1) as (c' & Hc' & Hle).
      exists c'. split; [done|]. unfold resumptions in Hle. simpl. lia.
    + rewrite <- (step_chain_other i j _ _ Hstep) in Hc by done.
      destruct (IH _ _ Hinv' Hc) as (c' & Hc' & Hle). by exists c'.
Qed.

(** Under a fair schedule [Promise.all] resolves, with one boolean per
    field: the one its chain settled with. *)
Lemma fair_validArrays st0 sched :
  fair (length (formFieldsRef st0)) sched →
  ∃ valid, validArrays (runChains_ sched (startRun st0)) = Some valid
           ∧ length valid = length (formFieldsRef st0)
           ∧ ∀ i b, valid !! i = Some b ↔
                    run_chains (runChains_ sched (startRun st0)) !! i = Some (Done b).
Proof.
  intros Hfair. set (r := runChains_ sched (startRun st0)).
  pose proof (runChains_inv st0 sched) as Hinv. fold r in Hinv.
  assert (∀ i c, run_chains r !! i = Some c → ∃ b, c = Done b) as Hsettled.
  { intros i c Hc.
    assert (i < length (formFieldsRef st0)) as Hlt.
    { rewrite <- (inv_chains_length _ _ Hinv). by eapply lookup_lt_Some. }
    destruct (runChains_progress st0 sched (startRun st0) i (Awaiting onChangeValidate_t))
      as (c' & Hc' & Hle); [apply startRun_inv| |].
    { simpl. rewrite list_lookup_fmap.
      destruct (lookup_lt_is_Some_2 _ _ Hlt) as [f ->]. done. }
    fold r in Hc'. simplify_eq. specialize (Hfair i Hlt).
    destruct c as [type|b]; [|by eexists].
    simpl in Hle. destruct type; simpl in Hle; lia. }
  assert (∃ valid, Forall2 (λ c b, chainResult c = Some b) (run_chains r) valid)
    as [valid Hvalid].
  { clear Hinv. induction (run_chains r) as [|c cs IH]; [by exists []|].
    destruct IH as [valid Hvalid].
    { intros i c' Hc'. by apply (Hsettled (S i)). }
    destruct (Hsettled 0 c eq_refl) as [b ->].
    exists (b :: valid). by constructor. }
  exists valid. split; [by apply mapM_Some|]. split.
  - rewrite <- (Forall2_length _ _ _ Hvalid). apply (inv_chains_length _ _ Hinv).
  - intros i b. split.
    + intros Hb. destruct (Forall2_lookup_r _ _ _ _ _ Hvalid Hb) as (c & Hc & Hres).
      destruct c; simpl in Hres; by simplify_eq.
    + intros Hc. destruct (Forall2_lookup_l _ _ _ _ _ Hvalid Hc) as (b' & Hb' & Hres).
      simpl in Hres. by simplify_eq.
Qed.

Lemma resumptions_sequential n i : i < n → resumptions i (sequential n) = 3.
Proof.
  intros Hlt. unfold sequential, resumptions.
  assert (∀ l, length (filter (λ j, j = i) (flat_map (λ i, [i; i; i]) l))
               = 3 * length (filter (λ j, j = i) l)) as Hflat.
  { induction l as [|x l IH]; [done|]. simpl.
    rewrite !filter_cons. case_decide; simpl; rewrite IH; lia. }
  rewrite Hflat.
  assert (∀ k m, length (filter (λ j, j = i) (seq k m))
                 = if bool_decide (k ≤ i < k + m) then 1 else 0) as Hseq.
  { intros k m. revert k. induction m as [|m IH]; intros k; simpl.
    - case_bool_decide; [lia|done].
    - rewrite filter_cons. case_decide; simpl; rewrite IH; repeat case_bool_decide; lia. }
  rewrite Hseq. case_bool_decide; lia.
Qed.

Lemma sequential_fair n : fair n (sequential n).
Proof. intros i Hlt. by rewrite resumptions_sequential. Qed.

(** *** The order of the validator calls *)

(** Of two calls for one field the earlier one is for a strictly earlier
    phase, and it was fulfilled. *)
Definition precedes (c1 c2 : ValidationType * Settled) : Prop :=
  rank c1.1 < rank c2.1 ∧ c1.2 = Fulfilled.

Lemma elem_of_calls i (trace : list (@Event Validator)) type res :
  (type, res) ∈ calls i trace ↔ ∃ v form, ValidateCalled i type v form res ∈ trace.
Proof.
  unfold calls. rewrite list_elem_of_omap. split.
  - intros ([j type' v form res'| | |] & Hin & Heq); try done.
    case_bool_decide; simplify_eq. eauto.
  - intros (v & form & Hin). eexists. split; [done|]. simpl.
    by rewrite bool_decide_eq_true_2.
Qed.

Lemma declaredBelow_elem f k type :
  type ∈ declaredBelow f k → rank type < k ∧ is_Some (propsValidator (props f) type).
Proof. unfold declaredBelow. rewrite list_elem_of_filter. tauto. Qed.

Lemma declaredBelow_sorted f k :
  StronglySorted (λ a b, rank a < rank b) (declaredBelow f k).
Proof.
  unfold declaredBelow.
  assert (StronglySorted (λ a b, rank a < rank b)
            [onChangeValidate_t; onBlurValidate_t; onSubmitValidate_t]) as Hs.
  { repeat (constructor; simpl; try lia). }
  revert Hs.
  generalize [onChangeValidate_t; onBlurValidate_t; onSubmitValidate_t].
  induction l as [|x l IH]; intros Hs; [constructor|].
  apply StronglySorted_cons in Hs as [Hx Hl].
  rewrite filter_cons. case_decide; [|by apply IH].
  apply StronglySorted_cons. split; [|by apply IH].
  rewrite Forall_forall in Hx. apply Forall_forall.
  intros y [_ Hy]%list_elem_of_filter. by apply Hx.
Qed.

Lemma fulfilled_calls_sorted f k (cs : list (ValidationType * Settled)) :
  cs.*1 = declaredBelow f k → Forall (λ call, call.2 = Fulfilled) cs →
  StronglySorted precedes cs.
Proof.
  intros Hcs Hful. pose proof (declaredBelow_sorted f k) as Hs.
  rewrite <- Hcs in Hs. clear Hcs.
  induction cs as [|[t res] cs IH]; [constructor|].
  rewrite fmap_cons in Hs. apply StronglySorted_cons in Hs as [Hx Hl].
  apply Forall_cons in Hful as [Hres Hful]. simpl in *.
  apply StronglySorted_cons. split; [|by apply IH].
  rewrite Forall_forall in Hx. apply Forall_forall. intros [t' res'] Hin.
  split; [|done]. apply Hx. simpl. apply list_elem_of_fmap. by exists (t', res').
Qed.

Lemma chainInv_sorted f0 c cs : chainInv f0 c cs → StronglySorted precedes cs.
Proof.
  destruct c as [type|[|]]; simpl.
  - intros [Hcs Hful]. by eapply fulfilled_calls_sorted.
  - intros (Hcs & Hful & _). by eapply fulfilled_calls_sorted.
  - intros [(cs' & type & error & -> & Hcs & Hful & _)|(Hcs & Hful & _)];
      [|by eapply fulfilled_calls_sorted].
    apply StronglySorted_app. split; [|split].
    + intros [t res] [t' res'] Hin ->%list_elem_of_singleton.
      rewrite Forall_forall in Hful. split; [|by apply (Hful _ Hin)]. simpl.
      apply (declaredBelow_elem f0). rewrite <- Hcs.
      apply list_elem_of_fmap. by exists (t, res).
    + by eapply fulfilled_calls_sorted.
    + repeat constructor.
Qed.

Lemma chainInv_first_rejected f0 c cs error :
  chainInv f0 c cs → (onChangeValidate_t, RejectedWith error) ∈ cs →
  cs = [(onChangeValidate_t, RejectedWith error)] ∧ c = Done false.
Proof.
  assert (∀ cs', Forall (λ call : ValidationType * Settled, call.2 = Fulfilled) cs' →
            (onChangeValidate_t, RejectedWith error) ∈ cs' → False) as Hno.
  { intros cs' Hful Hin. rewrite Forall_forall in Hful. by apply Hful in Hin. }
  destruct c as [type|[|]]; simpl.
  - intros [_ Hful] Hin. destruct (Hno _ Hful Hin).
  - intros (_ & Hful & _) Hin. destruct (Hno _ Hful Hin).
  - intros [(cs' & type & error' & -> & Hcs & Hful & _)|(_ & Hful & _)] Hin;
      [|destruct (Hno _ Hful Hin)].
    apply elem_of_app in Hin as [Hin|Hin]; [destruct (Hno _ Hful Hin)|].
    apply list_elem_of_singleton in Hin. simplify_eq. split; [|done].
    destruct cs' as [|call cs']; [done|].
    assert (call.1 ∈ declaredBelow f0 (rank onChangeValidate_t)) as Hin.
    { rewrite <- Hcs. simpl. left. }
    apply declaredBelow_elem in Hin as [Hlt _]. simpl in Hlt. lia.
Qed.

(** C3 - in every run of [submit], complete or not, the validators called
    for a field are called in the order onChange, onBlur, onSubmit, each at
    most once and only after the earlier ones fulfilled, so that a
    rejection is the last call for its field: when the onChange validator
    rejects it is the field's only call.  Only declared validators are
    called; a phase without one is passed without a call, and a chain that
    settles with true has called every declared validator. *)
Theorem C3_validation_phase_order sched st i f0
    (Hreg : formFieldsRef st !! i = Some f0) :
  let r := runChains_ sched (startRun (setIsSubmitted true st)) in
  StronglySorted precedes (calls i (run_trace r))
  ∧ (∀ type v form res, ValidateCalled i type v form res ∈ run_trace r →
       ∃ validator now, propsValidator (props f0) type = Some validator
                        ∧ v = value f0 ∧ res = validate now v form validator)
  ∧ (∀ v form error,
       ValidateCalled i onChangeValidate_t v form (RejectedWith error) ∈ run_trace r →
       calls i (run_trace r) = [(onChangeValidate_t, RejectedWith error)]
       ∧ run_chains r !! i = Some (Done false))
  ∧ (∀ type j f r0, propsValidator (props f) type = None →
       runValidationType validate getValidationError j f type r0 = (true, r0))
  ∧ (run_chains r !! i = Some (Done true) →
       (calls i (run_trace r)).*1 = declaredBelow f0 3
       ∧ Forall (λ call, call.2 = Fulfilled) (calls i (run_trace r))).
Proof.
  intros r. pose proof (runChains_inv (setIsSubmitted true st) sched) as Hinv.
  fold r in Hinv.
  destruct (lookup_lt_is_Some_2 (run_chains r) i) as [c Hc].
  { rewrite (inv_chains_length _ _ Hinv). simpl. by eapply lookup_lt_Some. }
  pose proof (inv_chain _ _ Hinv i c f0 Hc Hreg) as Hchain.
  split; [by eapply chainInv_sorted|]. split; [|split; [|split]].
  - intros type v form res Hin.
    pose proof (inv_events _ _ Hinv) as Hev. rewrite Forall_forall in Hev.
    destruct (Hev _ Hin) as (f0' & validator & st' & now & Hf0' & Hv & -> & -> & ->).
    simpl in Hf0'. simplify_eq. eauto.
  - intros v form error Hin.
    destruct (chainInv_first_rejected f0 c _ error Hchain) as [Hcs ->].
    { apply elem_of_calls. eauto. }
    done.
  - intros type j f r0 Hnone. unfold runValidationType. by rewrite Hnone.
  - intros Hdone. simplify_eq. simpl in Hchain. tauto.
Qed.

(** *** The outcome of [submit] *)




(** C10 - every form instance that [submit] hands to a validator or to the
    [onSubmit] callback is the base instance: its [submit] member is the
    stub, which resolves true at once, whatever the form, its props and
    the schedule, leaving the state alone, calling no validator and no
    callback.  It is not the public handle, whose [submit] member is the
    real [submit]. *)
Theorem C10_callbacks_get_base_instance props_ st sched
    (Hfair : fair (length (formFieldsRef st)) sched) :
  ∃ res st' trace,
    submit_ props_ sched st = Some (res, st', trace)
    ∧ (∀ ev form, ev ∈ trace → eventForm ev = Some form →
         (∃ s, form = baseValue s)
         ∧ submit_member form = SubmitStub
         ∧ (∀ s, form ≠ handleValue s)
         ∧ ∀ props' sched' s,
             callSubmit validate getValidationError fillPath props' form sched' s
             = Some (Resolved true, s, []))
    ∧ (∀ s props' sched' s',
         callSubmit validate getValidationError fillPath props' (handleValue s) sched' s'
         = submit_ props' sched' s').
Proof.
  set (r := runChains_ sched (startRun (setIsSubmitted true st))).
  destruct (fair_validArrays (setIsSubmitted true st) sched Hfair)
    as (valid & Hvalid & _ & _).
  fold r in Hvalid.
  pose proof (runChains_inv (setIsSubmitted true st) sched) as Hinv. fold r in Hinv.
  assert (∀ s : @FormState Validator,
            (∃ s', baseValue s = baseValue s')
            ∧ submit_member (baseValue s) = SubmitStub
            ∧ (∀ s', baseValue s ≠ handleValue s')
            ∧ ∀ props' sched' s',
                callSubmit validate getValidationError fillPath props' (baseValue s) sched' s'
                = Some (Resolved true, s', [])) as Hbase.
  { intros s. split; [by exists s|]. repeat split; try done. }
  assert (∀ ev form, ev ∈ run_trace r → eventForm ev = Some form →
            ∃ s, form = baseValue s) as Hrun.
  { intros ev form Hin Hform.
    pose proof (inv_events _ _ Hinv) as Hev. rewrite Forall_forall in Hev.
    apply Hev in Hin. destruct ev; simpl in *; simplify_eq; [|done].
    destruct Hin as (f0 & validator & st' & now & _ & _ & _ & -> & _). by exists st'. }
  assert (∀ trace : list (@Event Validator),
            (∀ ev form, ev ∈ trace → eventForm ev = Some form →
                      ∃ s, form = baseValue s) →
            ∀ ev form, ev ∈ trace → eventForm ev = Some form →
              (∃ s, form = baseValue s)
              ∧ submit_member form = SubmitStub
              ∧ (∀ s, form ≠ handleValue s)
              ∧ ∀ props' sched' s,
                  callSubmit validate getValidationError fillPath props' form sched' s
                  = Some (Resolved true, s, [])) as Hall.
  { intros trace Htrace ev form Hin Hform.
    destruct (Htrace ev form Hin Hform) as [s ->]. apply Hbase. }
  assert (∀ values, ∀ ev form,
            ev ∈ run_trace r ++ [OnSubmitCalled values (baseValue (run_form r))] →
            eventForm ev = Some form → ∃ s, form = baseValue s) as Hsnoc.
  { intros values ev form [Hin|Hin]%elem_of_app Hform; [by eapply Hrun|].
    apply list_elem_of_singleton in Hin. subst ev. simpl in Hform. simplify_eq.
    by eexists. }
  unfold submit. fold r. rewrite Hvalid.
  destruct (negb (default false (submitWhenInvalid props_))
            && negb (forallb (λ isValid, isValid) valid)).
  { eexists _, _, _. split; [done|]. split; [by apply Hall|done]. }
  destruct (onSubmit props_) as [callback|] eqn:Hcb.
  2:{ eexists _, _, _. split; [done|]. split; [by apply Hall|done]. }
  destruct (callback (run_values r) (baseValue (run_form r))) as [|exn0] eqn:Hcall;
    (eexists _, _, _; split; [done|]; split; [|done]); apply Hall, Hsnoc.
Qed.

End SubmitProperties.

(** ** [submit] with utilities that may throw *)

Section ThrowingProperties.

Import Throwing.

Context {Validator : Type}.
Context (validate : nat → JsValue → @FormInstance Validator → Validator → Settled).
Context (getValidationError : JsValue → Outcome (list string)).
Context (fillPath : JsValue → string → JsValue → Outcome JsValue).

Implicit Types (st : @FormState Validator) (f field : @Field Validator).
Implicit Types (r : @SubmitRun Validator) (c : @Chain) (i j : nat).
Implicit Types (cs : list (ValidationType * Settled)).

Local Abbreviation chainStep_ := (chainStep validate getValidationError fillPath).
Local Abbreviation runChains_ := (runChains validate getValidationError fillPath).
Local Abbreviation submit_ := (submit validate getValidationError fillPath).

(** *** One resumption, as a relation *)

(** The awaited phase of [f] is passed: no validator is declared for it, or
    the declared one is called and fulfils. *)
Definition awaitPassed j f (type : ValidationType) r (evs : list (@Event Validator)) : Prop :=
  (propsValidator (props f) type = None ∧ evs = [])
  ∨ (∃ validator,
       propsValidator (props f) type = Some validator
       ∧ validate (length (run_trace r)) (value f) (baseValue (run_form r)) validator
         = Fulfilled
       ∧ evs = [ValidateCalled j type (value f) (baseValue (run_form r)) Fulfilled]).

Inductive resumption j r r' : Prop :=
| resumption_idle :
    r' = r →
    (∀ type f, run_chains r !! j = Some (Awaiting type) → run_fields r !! j = Some f → False) →
    resumption j r r'
| resumption_advance type next f evs :
    run_chains r !! j = Some (Awaiting type) →
    run_fields r !! j = Some f →
    awaitPassed j f type r evs →
    rank next = S (rank type) →
    run_form r' = run_form r →
    run_chains r' = <[j := Awaiting next]> (run_chains r) →
    run_values r' = run_values r →
    run_trace r' = run_trace r ++ evs →
    resumption j r r'
| resumption_stale f evs :
    run_chains r !! j = Some (Awaiting onSubmitValidate_t) →
    run_fields r !! j = Some f →
    awaitPassed j f onSubmitValidate_t r evs →
    errors f ≠ [] →
    run_form r' = run_form r →
    run_chains r' = <[j := Done false]> (run_chains r) →
    run_values r' = run_values r →
    run_trace r' = run_trace r ++ evs →
    resumption j r r'
| resumption_fill f evs values :
    run_chains r !! j = Some (Awaiting onSubmitValidate_t) →
    run_fields r !! j = Some f →
    awaitPassed j f onSubmitValidate_t r evs →
    errors f = [] →
    fillPath (run_values r) (name (props f)) (value f) = Returns values →
    run_form r' = run_form r →
    run_chains r' = <[j := Done true]> (run_chains r) →
    run_values r' = values →
    run_trace r' = run_trace r ++ evs ++ [FillPathCalled j (name (props f)) (value f)] →
    resumption j r r'
| resumption_fill_throws f evs exn :
    run_chains r !! j = Some (Awaiting onSubmitValidate_t) →
    run_fields r !! j = Some f →
    awaitPassed j f onSubmitValidate_t r evs →
    errors f = [] →
    fillPath (run_values r) (name (props f)) (value f) = Throws exn →
    run_form r' = run_form r →
    run_chains r' = <[j := Failed exn]> (run_chains r) →
    run_values r' = run_values r →
    run_trace r' = run_trace r ++ evs ++ [FillPathThrew j (name (props f)) (value f) exn] →
    resumption j r r'
| resumption_reject type f validator error errs :
    run_chains r !! j = Some (Awaiting type) →
    run_fields r !! j = Some f →
    propsValidator (props f) type = Some validator →
    validate (length (run_trace r)) (value f) (baseValue (run_form r)) validator
      = RejectedWith error →
    getValidationError error = Returns errs →
    run_form r' =
      with_fields (<[j := setErrors errs f]> (run_fields r)) (run_form r) →
    run_chains r' = <[j := Done false]> (run_chains r) →
    run_values r' = run_values r →
    run_trace r' = run_trace r ++
      [ValidateCalled j type (value f) (baseValue (run_form r)) (RejectedWith error);
       SetErrorsCalled j errs] →
    resumption j r r'
| resumption_reject_throws type f validator error exn :
    run_chains r !! j = Some (Awaiting type) →
    run_fields r !! j = Some f →
    propsValidator (props f) type = Some validator →
    validate (length (run_trace r)) (value f) (baseValue (run_form r)) validator
      = RejectedWith error →
    getValidationError error = Throws exn →
    run_form r' = run_form r →
    run_chains r' = <[j := Failed exn]> (run_chains r) →
    run_values r' = run_values r →
    run_trace r' = run_trace r ++
      [ValidateCalled j type (value f) (baseValue (run_form r)) (RejectedWith error);
       GetValidationErrorThrew j error exn] →
    resumption j r r'.

Lemma chainStep_resumption j r : resumption j r (chainStep_ j r).
Proof.
  unfold chainStep.
  destruct (run_chains r !! j) as [[type|b|exn]|] eqn:Hc;
    [|by apply resumption_idle; [|intros; congruence]..].
  destruct (run_fields r !! j) as [f|] eqn:Hf;
    [|by apply resumption_idle; [|intros; congruence]].
  unfold runValidationType.
  destruct (propsValidator (props f) type) as [validator|] eqn:Hv.
  - destruct (validate (length (run_trace r)) (value f) (baseValue (run_form r)) validator)
      as [|error] eqn:Hr.
    + assert (awaitPassed j f type r
                [ValidateCalled j type (value f) (baseValue (run_form r)) Fulfilled])
        as Hp by (right; eauto).
      destruct type; simpl.
      * by eapply (resumption_advance _ _ _ _ onBlurValidate_t).
      * by eapply (resumption_advance _ _ _ _ onSubmitValidate_t).
      * case_bool_decide as He.
        -- eapply resumption_stale; eauto. intros E. rewrite E in He. simpl in He. lia.
        -- assert (errors f = []) as Herr
             by (destruct (errors f); [done|]; simpl in He; lia).
           destruct (fillPath (run_values r) (name (props f)) (value f))
             as [values|exn] eqn:Hfill.
           ++ eapply resumption_fill; eauto; simpl. by rewrite <- app_assoc.
           ++ eapply resumption_fill_throws; eauto; simpl. by rewrite <- app_assoc.
    + destruct (getValidationError error) as [errs|exn] eqn:Hg; simpl.
      * by eapply resumption_reject.
      * by eapply resumption_reject_throws.
  - assert (awaitPassed j f type r []) as Hp by (by left).
    destruct type; simpl.
    + eapply (resumption_advance _ _ _ _ onBlurValidate_t); eauto; simpl;
        by rewrite ?app_nil_r.
    + eapply (resumption_advance _ _ _ _ onSubmitValidate_t); eauto; simpl;
        by rewrite ?app_nil_r.
    + case_bool_decide as He.
      * eapply resumption_stale; eauto; simpl; rewrite ?app_nil_r; try done.
        intros E. rewrite E in He. simpl in He. lia.
      * assert (errors f = []) as Herr
          by (destruct (errors f); [done|]; simpl in He; lia).
        destruct (fillPath (run_values r) (name (props f)) (value f))
          as [values|exn] eqn:Hfill.
        -- eapply resumption_fill; eauto; simpl.
        -- eapply resumption_fill_throws; eauto; simpl.
Qed.

Lemma runChains_throwing_snoc sched j r :
  runChains_ (sched ++ [j]) r = chainStep_ j (runChains_ sched r).
Proof. unfold runChains. by rewrite foldl_app. Qed.

(** Induction over the resumptions of a run. *)
Lemma runChains_resumptions (P : @SubmitRun Validator → Prop) r0 :
  P r0 → (∀ j r r', P r → resumption j r r' → P r') → ∀ sched, P (runChains_ sched r0).
Proof.
  intros H0 Hstep sched. induction sched as [|j sched IH] using rev_ind; [done|].
  rewrite runChains_throwing_snoc. eapply Hstep; [exact IH|apply chainStep_resumption].
Qed.

(** *** Reading traces *)

Lemma calls_throwing_app i (t1 t2 : list (@Event Validator)) :
  calls i (t1 ++ t2) = calls i t1 ++ calls i t2.
Proof. apply omap_app. Qed.

Lemma fillOrder_throwing_app (t1 t2 : list (@Event Validator)) :
  fillOrder (t1 ++ t2) = fillOrder t1 ++ fillOrder t2.
Proof. apply omap_app. Qed.

Lemma thrown_app (t1 t2 : list (@Event Validator)) :
  thrown (t1 ++ t2) = thrown t1 ++ thrown t2.
Proof. apply omap_app. Qed.

(** What was thrown is the exception of a throw recorded in the trace. *)
Lemma elem_of_thrown (trace : list (@Event Validator)) exn :
  exn ∈ thrown trace ↔
    (∃ i error, GetValidationErrorThrew i error exn ∈ trace)
    ∨ (∃ i path v, FillPathThrew i path v exn ∈ trace).
Proof.
  unfold thrown. rewrite list_elem_of_omap. split.
  - intros (ev & Hin & Hev). destruct ev; simplify_eq; eauto.
  - intros [(i & error & Hin)|(i & path & v & Hin)]; eexists; (split; [exact Hin|done]).
Qed.

Lemma awaitPassed_calls i j f type r evs :
  awaitPassed j f type r evs →
  calls i evs =
    if bool_decide (j = i)
    then (if propsValidator (props f) type is Some _ then [(type, Fulfilled)] else [])
    else [].
Proof.
  intros [[Hv ->]|(validator & Hv & _ & ->)]; rewrite Hv; simpl;
    by case_bool_decide.
Qed.

Lemma awaitPassed_fillOrder j f type r evs : awaitPassed j f type r evs → fillOrder evs = [].
Proof. by intros [[_ ->]|(validator & _ & _ & ->)]. Qed.

Lemma awaitPassed_thrown j f type r evs : awaitPassed j f type r evs → thrown evs = [].
Proof. by intros [[_ ->]|(validator & _ & _ & ->)]. Qed.

Lemma project_throwing_snoc (fields : list (@Field Validator)) order i f values :
  fields !! i = Some f →
  project fillPath fields order = Some values →
  project fillPath fields (order ++ [i]) =
    match fillPath values (name (props f)) (value f) with
    | Returns values' => Some values'
    | Throws _ => None
    end.
Proof.
  intros Hf Hv. unfold project in *. rewrite foldl_app. simpl. by rewrite Hv, Hf.
Qed.

(** *** The invariant of a run *)

Definition allFulfilled cs : Prop := Forall (λ call, call.2 = Fulfilled) cs.

(** The calls made for a field are those of its declared phases, in
    order, all fulfilled. *)
Definition allPassed (f0 : @Field Validator) cs : Prop :=
  cs.*1 = declaredBelow f0 3 ∧ allFulfilled cs.

(** The calls made for a field are those of its declared phases up to
    [type], in order, fulfilled but for the last, which rejected with
    [error]. *)
Definition rejectedAt (f0 : @Field Validator) cs (type : ValidationType)
    (error : JsValue) : Prop :=
  ∃ cs', cs = cs' ++ [(type, RejectedWith error)]
         ∧ cs'.*1 = declaredBelow f0 (rank type)
         ∧ allFulfilled cs'
         ∧ is_Some (propsValidator (props f0) type).

(** What the chain of a field says about the validator calls made for it.
    [f0] is the field as it was when [submit] started. *)
Definition chainSays (f0 : @Field Validator) c cs : Prop :=
  match c with
  | Awaiting type => cs.*1 = declaredBelow f0 (rank type) ∧ allFulfilled cs
  | Done true => allPassed f0 cs ∧ errors f0 = []
  | Done false =>
      (∃ type error errs,
         rejectedAt f0 cs type error ∧ getValidationError error = Returns errs)
      ∨ (allPassed f0 cs ∧ errors f0 ≠ [])
  | Failed exn =>
      (∃ type error,
         rejectedAt f0 cs type error ∧ getValidationError error = Throws exn)
      ∨ (allPassed f0 cs ∧ errors f0 = []
         ∧ ∃ values, fillPath values (name (props f0)) (value f0) = Throws exn)
  end.

(** Every call of user code gets the value the field had at the start, the
    base instance, and settles as [validate] says; every projection uses
    the field's own name and value; a throw that is recorded is a throw of
    the utility. *)
Definition eventSays (fields0 : list (@Field Validator)) (ev : @Event Validator) : Prop :=
  match ev with
  | ValidateCalled i type v form res =>
      ∃ f0 validator st' now,
        fields0 !! i = Some f0
        ∧ propsValidator (props f0) type = Some validator
        ∧ v = value f0 ∧ form = baseValue st'
        ∧ res = validate now v form validator
  | GetValidationErrorThrew i error exn => getValidationError error = Throws exn
  | SetErrorsCalled i errs => ∃ error, getValidationError error = Returns errs
  | FillPathCalled i path v =>
      ∃ f0, fields0 !! i = Some f0 ∧ path = name (props f0) ∧ v = value f0
  | FillPathThrew i path v exn =>
      ∃ f0 values, fields0 !! i = Some f0 ∧ path = name (props f0) ∧ v = value f0
                   ∧ fillPath values path v = Throws exn
  | OnSubmitCalled values form => False
  end.

(** What a rejection of a validator has led to. *)
Definition rejectionHandled r i (error : JsValue) : Prop :=
  match getValidationError error with
  | Returns errs =>
      run_chains r !! i = Some (Done false)
      ∧ SetErrorsCalled i errs ∈ run_trace r
      ∧ ∃ f, run_fields r !! i = Some f ∧ errors f = errs
  | Throws exn =>
      run_chains r !! i = Some (Failed exn)
      ∧ GetValidationErrorThrew i error exn ∈ run_trace r
  end.

Record Settling (st0 : @FormState Validator) r : Prop := mkSettling {
  sett_form : run_form r = with_fields (run_fields r) st0;
  sett_chains_length : length (run_chains r) = length (formFieldsRef st0);
  sett_fields_length : length (run_fields r) = length (formFieldsRef st0);
  sett_fields : ∀ i f, run_fields r !! i = Some f →
      ∃ f0, formFieldsRef st0 !! i = Some f0
            ∧ f = setErrors (errors f) f0
            ∧ (run_chains r !! i ≠ Some (Done false) → f = f0);
  sett_values :
    project fillPath (formFieldsRef st0) (fillOrder (run_trace r)) = Some (run_values r);
  sett_fill_NoDup : NoDup (fillOrder (run_trace r));
  sett_fill_done : ∀ i, i ∈ fillOrder (run_trace r) ↔ run_chains r !! i = Some (Done true);
  sett_chain : ∀ i c f0, run_chains r !! i = Some c → formFieldsRef st0 !! i = Some f0 →
      chainSays f0 c (calls i (run_trace r));
  sett_events : Forall (eventSays (formFieldsRef st0)) (run_trace r);
  sett_reject : ∀ i type v form error,
      ValidateCalled i type v form (RejectedWith error) ∈ run_trace r →
      rejectionHandled r i error;
  sett_failed : ∀ i exn, run_chains r !! i = Some (Failed exn) → exn ∈ thrown (run_trace r);
  sett_thrown : ∀ exn, exn ∈ thrown (run_trace r) → ∃ i, run_chains r !! i = Some (Failed exn)
}.

Lemma setErrors_same f : setErrors (errors f) f = f.
Proof. by destruct f. Qed.

Lemma startRun_settling st0 : Settling st0 (startRun st0).
Proof.
  split; simpl; try done.
  - by destruct st0.
  - by rewrite length_fmap.
  - intros i f Hf. exists f. by rewrite setErrors_same.
  - constructor.
  - intros i. rewrite list_lookup_fmap. split; [by intros ?%elem_of_nil|].
    by destruct (formFieldsRef st0 !! i).
  - intros i c f0. rewrite list_lookup_fmap. intros Hc Hf0. rewrite Hf0 in Hc.
    simplify_eq/=. split; [|constructor].
    unfold declaredBelow. simpl.
    repeat (rewrite filter_cons, decide_False by (simpl; lia)). done.
  - intros i type v form error Hin. by apply elem_of_nil in Hin.
  - intros i exn. rewrite list_lookup_fmap.
    by destruct (formFieldsRef st0 !! i).
  - by intros exn ?%elem_of_nil.
Qed.

(** *** What one resumption changes *)

Ltac resumption_cases H :=
  destruct H as
    [-> Hidle
    | type next f evs Hc Hf Hp Hrank Hform Hch Hval Htr
    | f evs Hc Hf Hp Herr Hform Hch Hval Htr
    | f evs values Hc Hf Hp Herr Hfill Hform Hch Hval Htr
    | f evs exn Hc Hf Hp Herr Hfill Hform Hch Hval Htr
    | type f validator error errs Hc Hf Hv Hres Hg Hform Hch Hval Htr
    | type f validator error exn Hc Hf Hv Hres Hg Hform Hch Hval Htr].

Lemma resumption_chain_other i j r r' :
  resumption j r r' → i ≠ j → run_chains r' !! i = run_chains r !! i.
Proof.
  intros Hstep Hne. resumption_cases Hstep; [done|..];
    rewrite Hch; by apply list_lookup_insert_ne.
Qed.

Lemma resumption_fields_other i j r r' :
  resumption j r r' → i ≠ j → run_fields r' !! i = run_fields r !! i.
Proof.
  intros Hstep Hne. unfold run_fields.
  resumption_cases Hstep; [done|..]; rewrite Hform; try done.
  simpl. by apply list_lookup_insert_ne.
Qed.

Lemma resumption_calls_other i j r r' :
  resumption j r r' → i ≠ j → calls i (run_trace r') = calls i (run_trace r).
Proof.
  intros Hstep Hne. resumption_cases Hstep; [done|..]; rewrite Htr, ?calls_throwing_app;
    rewrite ?(awaitPassed_calls i _ _ _ _ _ Hp); simpl;
    rewrite ?bool_decide_eq_false_2 by done; by rewrite ?app_nil_r.
Qed.

(** A trace only grows. *)
Lemma resumption_trace j r r' (ev : @Event Validator) :
  resumption j r r' → ev ∈ run_trace r → ev ∈ run_trace r'.
Proof.
  intros Hstep Hin. resumption_cases Hstep; [done|..]; rewrite Htr;
    apply elem_of_app; by left.
Qed.

Lemma resumption_settling_form st0 j r r' :
  Settling st0 r → resumption j r r' → run_form r' = with_fields (run_fields r') st0.
Proof.
  intros Hinv Hstep. pose proof (sett_form _ _ Hinv) as Hfm. unfold run_fields in *.
  resumption_cases Hstep; [done|..]; rewrite Hform; try done.
  rewrite Hfm. done.
Qed.

Lemma resumption_settling_lengths st0 j r r' :
  Settling st0 r → resumption j r r' →
  length (run_chains r') = length (formFieldsRef st0)
  ∧ length (run_fields r') = length (formFieldsRef st0).
Proof.
  intros Hinv Hstep.
  pose proof (sett_chains_length _ _ Hinv) as Hlc.
  pose proof (sett_fields_length _ _ Hinv) as Hlf. unfold run_fields in *.
  resumption_cases Hstep; [done|..]; rewrite Hch, Hform, length_insert; try done.
  simpl. by rewrite length_insert.
Qed.

(** A field whose chain is suspended is as it was when [submit] started. *)
Lemma awaiting_unchanged st0 r j type f :
  Settling st0 r → run_chains r !! j = Some (Awaiting type) → run_fields r !! j = Some f →
  formFieldsRef st0 !! j = Some f.
Proof.
  intros Hinv Hc Hf. destruct (sett_fields _ _ Hinv j f Hf) as (f0 & Hf0 & _ & Heq).
  rewrite Heq; [done|]. by rewrite Hc.
Qed.

Lemma resumption_settling_fields st0 j r r' :
  Settling st0 r → resumption j r r' →
  ∀ i f, run_fields r' !! i = Some f →
    ∃ f0, formFieldsRef st0 !! i = Some f0
          ∧ f = setErrors (errors f) f0
          ∧ (run_chains r' !! i ≠ Some (Done false) → f = f0).
Proof.
  intros Hinv Hstep i fi Hfi.
  destruct (decide (i = j)) as [->|Hne].
  - pose proof (sett_fields _ _ Hinv j) as Hold.
    pose proof (λ type f, awaiting_unchanged st0 r j type f Hinv) as Hsame.
    unfold run_fields in Hfi.
    resumption_cases Hstep; [by apply Hold|..]; rewrite Hform in Hfi;
      pose proof (Hsame _ _ Hc Hf) as Hf0.
    1-4,6: unfold run_fields in Hf; assert (fi = f) as -> by congruence;
      exists f; by rewrite setErrors_same.
    simpl in Hfi. rewrite list_lookup_insert_eq in Hfi by (by eapply lookup_lt_Some).
    simplify_eq. exists f. repeat split; try done.
    rewrite Hch, list_lookup_insert_eq by (by eapply lookup_lt_Some). done.
  - rewrite (resumption_fields_other _ _ _ _ Hstep Hne) in Hfi.
    rewrite (resumption_chain_other _ _ _ _ Hstep Hne).
    by apply (sett_fields _ _ Hinv).
Qed.

Lemma resumption_settling_fill st0 j r r' :
  Settling st0 r → resumption j r r' →
  project fillPath (formFieldsRef st0) (fillOrder (run_trace r')) = Some (run_values r')
  ∧ NoDup (fillOrder (run_trace r'))
  ∧ (∀ i, i ∈ fillOrder (run_trace r') ↔ run_chains r' !! i = Some (Done true)).
Proof.
  intros Hinv Hstep.
  pose proof (sett_values _ _ Hinv) as Hv0.
  pose proof (sett_fill_NoDup _ _ Hinv) as Hnd.
  pose proof (sett_fill_done _ _ Hinv) as Hdone.
  assert (∀ type, run_chains r !! j = Some (Awaiting type) →
            j ∉ fillOrder (run_trace r)) as Hfresh.
  { intros type Hc Hin. apply Hdone in Hin. congruence. }
  assert (∀ c i, c ≠ Done true → run_chains r !! j ≠ Some (Done true) →
            (i ∈ fillOrder (run_trace r) ↔ <[j := c]> (run_chains r) !! i = Some (Done true)))
    as Hkeep.
  { intros c i Hc Hold. destruct (decide (i = j)) as [->|Hne].
    - rewrite Hdone. split; [done|].
      intros Hl. apply list_lookup_insert_Some in Hl. naive_solver.
    - by rewrite list_lookup_insert_ne. }
  resumption_cases Hstep; [done|..]; rewrite Hval, Htr, Hch, ?fillOrder_throwing_app.
  - rewrite (awaitPassed_fillOrder _ _ _ _ _ Hp), app_nil_r.
    repeat split; try done; apply Hkeep; congruence.
  - rewrite (awaitPassed_fillOrder _ _ _ _ _ Hp), app_nil_r.
    repeat split; try done; apply Hkeep; congruence.
  - rewrite (awaitPassed_fillOrder _ _ _ _ _ Hp). simpl.
    pose proof (awaiting_unchanged _ _ _ _ _ Hinv Hc Hf) as Hf0.
    split; [|split].
    + rewrite (project_throwing_snoc _ _ _ _ _ Hf0 Hv0). by rewrite Hfill.
    + apply NoDup_app. split; [done|]. split; [|apply NoDup_singleton].
      intros x Hx ->%list_elem_of_singleton. by eapply Hfresh.
    + intros i. rewrite elem_of_app, list_elem_of_singleton.
      destruct (decide (i = j)) as [->|Hne].
      * rewrite list_lookup_insert_eq by (by eapply lookup_lt_Some). naive_solver.
      * rewrite list_lookup_insert_ne by done. rewrite Hdone. naive_solver.
  - rewrite (awaitPassed_fillOrder _ _ _ _ _ Hp). simpl. rewrite app_nil_r.
    repeat split; try done; apply Hkeep; congruence.
  - simpl. rewrite app_nil_r.
    repeat split; try done; apply Hkeep; congruence.
  - simpl. rewrite app_nil_r.
    repeat split; try done; apply Hkeep; congruence.
Qed.

Lemma resumption_settling_chain st0 j r r' :
  Settling st0 r → resumption j r r' →
  ∀ i c f0, run_chains r' !! i = Some c → formFieldsRef st0 !! i = Some f0 →
    chainSays f0 c (calls i (run_trace r')).
Proof.
  intros Hinv Hstep i c f0 Hci Hf0.
  destruct (decide (i = j)) as [->|Hne].
  2:{ rewrite (resumption_calls_other _ _ _ _ Hstep Hne).
      rewrite (resumption_chain_other _ _ _ _ Hstep Hne) in Hci.
      by apply (sett_chain _ _ Hinv). }
  assert (∀ type f, run_chains r !! j = Some (Awaiting type) →
            run_fields r !! j = Some f →
            f = f0 ∧ (calls j (run_trace r)).*1 = declaredBelow f0 (rank type)
            ∧ allFulfilled (calls j (run_trace r))) as Hold.
  { intros type f Hc Hf.
    pose proof (awaiting_unchanged _ _ _ _ _ Hinv Hc Hf) as Hf0'.
    split; [congruence|].
    apply (sett_chain _ _ Hinv j (Awaiting type) f0 Hc Hf0). }
  assert (∀ type f evs, awaitPassed j f type r evs → f = f0 →
            (calls j (run_trace r)).*1 = declaredBelow f0 (rank type) →
            allFulfilled (calls j (run_trace r)) →
            (calls j (run_trace r ++ evs)).*1 = declaredBelow f0 (S (rank type))
            ∧ allFulfilled (calls j (run_trace r ++ evs)))
    as Hpass.
  { intros type f evs Hp -> Hcs Hful.
    rewrite calls_throwing_app, (awaitPassed_calls j _ _ _ _ _ Hp),
      bool_decide_eq_true_2 by done.
    rewrite declaredBelow_S, fmap_app, Hcs.
    destruct (propsValidator (props f0) type); simpl.
    - split; [done|]. apply Forall_app. split; [done|]. by repeat constructor.
    - by rewrite !app_nil_r. }
  resumption_cases Hstep; [by apply (sett_chain _ _ Hinv)|..];
    rewrite Hch, list_lookup_insert_eq in Hci by (by eapply lookup_lt_Some);
    simplify_eq; destruct (Hold _ _ Hc Hf) as (-> & Hcs & Hful); rewrite Htr; simpl.
  - rewrite Hrank. by eapply Hpass.
  - right. destruct (Hpass _ _ _ Hp eq_refl Hcs Hful) as [H1 H2]. done.
  - destruct (Hpass _ _ _ Hp eq_refl Hcs Hful) as [H1 H2].
    rewrite app_assoc, calls_throwing_app. simpl. rewrite app_nil_r. done.
  - destruct (Hpass _ _ _ Hp eq_refl Hcs Hful) as [H1 H2].
    rewrite app_assoc, calls_throwing_app. simpl. rewrite app_nil_r.
    right. repeat split; try done. eauto.
  - left. exists type, error, errs. split; [|done].
    exists (calls j (run_trace r)). rewrite calls_throwing_app. simpl.
    rewrite bool_decide_eq_true_2 by done. rewrite Hv. eauto.
  - left. exists type, error. split; [|done].
    exists (calls j (run_trace r)). rewrite calls_throwing_app. simpl.
    rewrite bool_decide_eq_true_2 by done. rewrite Hv. eauto.
Qed.

Lemma awaitPassed_eventSays st0 j f0 type r evs :
  formFieldsRef st0 !! j = Some f0 →
  awaitPassed j f0 type r evs → Forall (eventSays (formFieldsRef st0)) evs.
Proof.
  intros Hf0 [[_ ->]|(validator & Hv & Hres & ->)]; [constructor|].
  repeat constructor. exists f0, validator, (run_form r), (length (run_trace r)).
  by rewrite Hres.
Qed.

Lemma resumption_settling_events st0 j r r' :
  Settling st0 r → resumption j r r' → Forall (eventSays (formFieldsRef st0)) (run_trace r').
Proof.
  intros Hinv Hstep. pose proof (sett_events _ _ Hinv) as Hev.
  pose proof (λ type f, awaiting_unchanged st0 r j type f Hinv) as Hsame.
  resumption_cases Hstep; [done|..]; rewrite Htr; apply Forall_app; split; try done;
    pose proof (Hsame _ _ Hc Hf) as Hf0.
  - eapply awaitPassed_eventSays; eauto.
  - eapply awaitPassed_eventSays; eauto.
  - apply Forall_app. split; [eapply awaitPassed_eventSays; eauto|].
    repeat constructor. exists f. eauto.
  - apply Forall_app. split; [eapply awaitPassed_eventSays; eauto|].
    repeat constructor. exists f, (run_values r). eauto.
  - repeat constructor; [|by exists error].
    exists f, validator, (run_form r), (length (run_trace r)).
    rewrite Hres. eauto 10.
  - repeat constructor; [|done].
    exists f, validator, (run_form r), (length (run_trace r)).
    rewrite Hres. eauto 10.
Qed.

Lemma awaitPassed_no_reject i j f type0 r evs type v form error :
  awaitPassed j f type0 r evs →
  ValidateCalled i type v form (RejectedWith error) ∉ evs.
Proof.
  intros [[_ ->]|(validator & _ & _ & ->)] Hin; [by apply elem_of_nil in Hin|].
  apply list_elem_of_singleton in Hin. congruence.
Qed.

Lemma resumption_settling_reject st0 j r r' :
  Settling st0 r → resumption j r r' →
  ∀ i type v form error,
    ValidateCalled i type v form (RejectedWith error) ∈ run_trace r' →
    rejectionHandled r' i error.
Proof.
  intros Hinv Hstep i type0 v form error0 Hin.
  pose proof (sett_reject _ _ Hinv i type0 v form error0) as Hold.
  assert (ValidateCalled i type0 v form (RejectedWith error0) ∈ run_trace r → i ≠ j →
          rejectionHandled r' i error0) as Hother.
  { intros Hin' Hne. specialize (Hold Hin'). unfold rejectionHandled in *.
    rewrite (resumption_chain_other _ _ _ _ Hstep Hne).
    rewrite (resumption_fields_other _ _ _ _ Hstep Hne).
    destruct (getValidationError error0).
    - destruct Hold as (? & ? & ?). eauto using resumption_trace.
    - destruct Hold as (? & ?). eauto using resumption_trace. }
  assert (∀ type, run_chains r !! j = Some (Awaiting type) →
            ValidateCalled i type0 v form (RejectedWith error0) ∈ run_trace r → i ≠ j)
    as Hne.
  { intros type Hc Hin' ->. apply Hold in Hin'. unfold rejectionHandled in Hin'.
    destruct (getValidationError error0); destruct Hin' as [Hd _]; congruence. }
  resumption_cases Hstep; [by apply Hold|..]; rewrite Htr in Hin;
    repeat (apply elem_of_app in Hin as [Hin|Hin]); eauto;
    try (by eapply awaitPassed_no_reject in Hin);
    try (by apply list_elem_of_singleton in Hin).
  - apply elem_of_cons in Hin as [Hin|Hin];
      [|by apply list_elem_of_singleton in Hin].
    simplify_eq. unfold rejectionHandled. rewrite Hg, Hch, Htr.
    unfold run_fields. rewrite Hform. simpl.
    rewrite !list_lookup_insert_eq by (by eapply lookup_lt_Some).
    split; [done|]. split; [set_solver|]. by eexists.
  - apply elem_of_cons in Hin as [Hin|Hin];
      [|by apply list_elem_of_singleton in Hin].
    simplify_eq. unfold rejectionHandled. rewrite Hg, Hch, Htr.
    rewrite !list_lookup_insert_eq by (by eapply lookup_lt_Some).
    split; [done|]. set_solver.
Qed.

Lemma resumption_settling_failed st0 j r r' :
  Settling st0 r → resumption j r r' →
  ∀ i exn, run_chains r' !! i = Some (Failed exn) → exn ∈ thrown (run_trace r').
Proof.
  intros Hinv Hstep i exn0 Hci.
  pose proof (sett_failed _ _ Hinv i exn0) as Hold.
  destruct (decide (i = j)) as [->|Hne].
  2:{ rewrite (resumption_chain_other _ _ _ _ Hstep Hne) in Hci.
      apply Hold, elem_of_thrown in Hci. apply elem_of_thrown.
      destruct Hci as [(? & ? & ?)|(? & ? & ? & ?)];
        [left|right]; eauto using resumption_trace. }
  resumption_cases Hstep; [by apply Hold|..];
    rewrite Hch, list_lookup_insert_eq in Hci by (by eapply lookup_lt_Some);
    simplify_eq; rewrite Htr, !thrown_app; simpl; set_solver.
Qed.

Lemma resumption_settling_thrown st0 j r r' :
  Settling st0 r → resumption j r r' →
  ∀ exn, exn ∈ thrown (run_trace r') → ∃ i, run_chains r' !! i = Some (Failed exn).
Proof.
  intros Hinv Hstep exn0 Hin.
  pose proof (sett_thrown _ _ Hinv exn0) as Hold.
  assert (∀ type, run_chains r !! j = Some (Awaiting type) →
            exn0 ∈ thrown (run_trace r) →
            ∃ i, run_chains r' !! i = Some (Failed exn0)) as Hkeep.
  { intros type Hc Hin'. destruct (Hold Hin') as [i Hi]. exists i.
    rewrite (resumption_chain_other _ _ _ _ Hstep); [done|]. intros ->. congruence. }
  assert (j < length (run_chains r) → ∀ c, <[j := c]> (run_chains r) !! j = Some c)
    as Hset by (intros; by apply list_lookup_insert_eq).
  resumption_cases Hstep; [by apply Hold|..];
    pose proof (lookup_lt_Some _ _ _ Hc) as Hlt;
    rewrite Htr, !thrown_app, ?(awaitPassed_thrown _ _ _ _ _ Hp) in Hin; simpl in Hin;
    rewrite ?app_nil_r in Hin; eauto;
    (apply elem_of_app in Hin as [Hin|Hin]; [by eauto|]);
    apply list_elem_of_singleton in Hin; subst exn0;
    exists j; rewrite Hch; by apply Hset.
Qed.

(** Every resumption keeps the invariant. *)
Lemma resumption_settling st0 j r r' : Settling st0 r → resumption j r r' → Settling st0 r'.
Proof.
  intros Hinv Hstep.
  destruct (resumption_settling_lengths _ _ _ _ Hinv Hstep) as [Hlc Hlf].
  destruct (resumption_settling_fill _ _ _ _ Hinv Hstep) as (Hv & Hnd & Hdone).
  split; try done.
  - by eapply resumption_settling_form.
  - by eapply resumption_settling_fields.
  - by eapply resumption_settling_chain.
  - by eapply resumption_settling_events.
  - by eapply resumption_settling_reject.
  - by eapply resumption_settling_failed.
  - by eapply resumption_settling_thrown.
Qed.

Lemma runChains_settling st0 sched : Settling st0 (runChains_ sched (startRun st0)).
Proof.
  apply runChains_resumptions; [apply startRun_settling|].
  intros j r r'. apply resumption_settling.
Qed.

(** *** Every chain settles *)

Lemma resumption_progress st0 j r r' c :
  Settling st0 r → resumption j r r' → run_chains r !! j = Some c →
  ∃ c', run_chains r' !! j = Some c' ∧ stepsLeft c' ≤ stepsLeft c - 1.
Proof.
  intros Hinv Hstep Hcj.
  assert (j < length (run_chains r)) as Hlt by (by eapply lookup_lt_Some).
  resumption_cases Hstep.
  - destruct c as [type|b|exn]; [|eexists; split; [done|simpl; lia]..].
    destruct (lookup_lt_is_Some_2 (run_fields r) j) as [f Hf].
    { rewrite (sett_fields_length _ _ Hinv), <- (sett_chains_length _ _ Hinv). done. }
    destruct (Hidle _ _ Hcj Hf).
  - rewrite Hch, list_lookup_insert_eq by done. eexists; split; [done|].
    simplify_eq. simpl. lia.
  - rewrite Hch, list_lookup_insert_eq by done. eexists; split; [done|simpl; lia].
  - rewrite Hch, list_lookup_insert_eq by done. eexists; split; [done|simpl; lia].
  - rewrite Hch, list_lookup_insert_eq by done. eexists; split; [done|simpl; lia].
  - rewrite Hch, list_lookup_insert_eq by done. eexists; split; [done|simpl; lia].
  - rewrite Hch, list_lookup_insert_eq by done. eexists; split; [done|simpl; lia].
Qed.

Lemma runChains_settles st0 sched r i c :
  Settling st0 r → run_chains r !! i = Some c →
  ∃ c', run_chains (runChains_ sched r) !! i = Some c'
        ∧ stepsLeft c' ≤ stepsLeft c - resumptions i sched.
Proof.
  revert r c. induction sched as [|j sched IH]; intros r c Hinv Hc.
  - exists c. split; [done|]. unfold resumptions. simpl. lia.
  - pose proof (chainStep_resumption j r) as Hstep.
    pose proof (resumption_settling _ _ _ _ Hinv Hstep) as Hinv'.
    change (runChains_ (j :: sched) r) with (runChains_ sched (chainStep_ j r)).
    unfold resumptions. rewrite filter_cons. case_decide as Hji.
    + subst j. destruct (resumption_progress _ _ _ _ _ Hinv Hstep Hc) as (c1 & Hc1 & Hle1).
      destruct (IH _ _ Hinv' Hc1) as (c' & Hc' & Hle).
      exists c'. split; [done|]. unfold resumptions in Hle. simpl. lia.
    + rewrite <- (resumption_chain_other i j _ _ Hstep) in Hc by done.
      destruct (IH _ _ Hinv' Hc) as (c' & Hc' & Hle). by exists c'.
Qed.

(** Under a fair schedule no chain is left suspended: each one has
    returned or thrown. *)
Lemma fair_settled st0 sched i c :
  fair (length (formFieldsRef st0)) sched →
  run_chains (runChains_ sched (startRun st0)) !! i = Some c →
  (∃ b, c = Done b) ∨ (∃ exn, c = Failed exn).
Proof.
  intros Hfair Hc. set (r := runChains_ sched (startRun st0)) in *.
  pose proof (runChains_settling st0 sched) as Hinv. fold r in Hinv.
  assert (i < length (formFieldsRef st0)) as Hlt.
  { rewrite <- (sett_chains_length _ _ Hinv). by eapply lookup_lt_Some. }
  destruct (runChains_settles st0 sched (startRun st0) i (Awaiting onChangeValidate_t))
    as (c' & Hc' & Hle); [apply startRun_settling| |].
  { simpl. rewrite list_lookup_fmap.
    destruct (lookup_lt_is_Some_2 _ _ Hlt) as [f ->]. done. }
  fold r in Hc'. simplify_eq. specialize (Hfair i Hlt).
  destruct c as [type|b|exn]; [|eauto..].
  simpl in Hle. destruct type; simpl in Hle; lia.
Qed.

(** Under a fair schedule, when nothing was thrown, [Promise.all] resolves,
    with one boolean per field: the one its chain returned. *)
Lemma fair_validArrays_unless_thrown st0 sched :
  fair (length (formFieldsRef st0)) sched →
  thrown (run_trace (runChains_ sched (startRun st0))) = [] →
  ∃ valid, validArrays (runChains_ sched (startRun st0)) = Some valid
           ∧ length valid = length (formFieldsRef st0)
           ∧ ∀ i b, valid !! i = Some b ↔
                    run_chains (runChains_ sched (startRun st0)) !! i = Some (Done b).
Proof.
  intros Hfair Hnone. set (r := runChains_ sched (startRun st0)) in *.
  pose proof (runChains_settling st0 sched) as Hinv. fold r in Hinv.
  assert (∀ i c, run_chains r !! i = Some c → ∃ b, c = Done b) as Hsettled.
  { intros i c Hc. destruct (fair_settled st0 sched i c Hfair Hc) as [?|[exn ->]]; [done|].
    apply (sett_failed _ _ Hinv) in Hc. fold r in Hc. rewrite Hnone in Hc.
    by apply elem_of_nil in Hc. }
  assert (∃ valid, Forall2 (λ c b, chainResult c = Some b) (run_chains r) valid)
    as [valid Hvalid].
  { clear Hinv. induction (run_chains r) as [|c cs IH]; [by exists []|].
    destruct IH as [valid Hvalid].
    { intros i c' Hc'. by apply (Hsettled (S i)). }
    destruct (Hsettled 0 c eq_refl) as [b ->].
    exists (b :: valid). by constructor. }
  exists valid. split; [by apply mapM_Some|]. split.
  - rewrite <- (Forall2_length _ _ _ Hvalid). apply (sett_chains_length _ _ Hinv).
  - intros i b. split.
    + intros Hb. destruct (Forall2_lookup_r _ _ _ _ _ Hvalid Hb) as (c & Hc & Hres).
      destruct c; simpl in Hres; by simplify_eq.
    + intros Hc. destruct (Forall2_lookup_l _ _ _ _ _ Hvalid Hc) as (b' & Hb' & Hres).
      simpl in Hres. by simplify_eq.
Qed.

Lemma runChains_no_onSubmit st0 sched values form :
  OnSubmitCalled values form ∉ run_trace (runChains_ sched (startRun st0)).
Proof.
  intros Hin. pose proof (sett_events _ _ (runChains_settling st0 sched)) as Hev.
  rewrite Forall_forall in Hev. by apply Hev in Hin.
Qed.

Lemma elem_of_calls_throwing i (trace : list (@Event Validator)) type res :
  (type, res) ∈ calls i trace ↔ ∃ v form, ValidateCalled i type v form res ∈ trace.
Proof.
  unfold calls. rewrite list_elem_of_omap. split.
  - intros (ev & Hin & Heq). destruct ev; try done.
    case_bool_decide; simplify_eq. eauto.
  - intros (v & form & Hin). eexists. split; [done|]. simpl.
    by rewrite bool_decide_eq_true_2.
Qed.

Lemma elem_of_declaredBelow (f : @Field Validator) k type :
  type ∈ declaredBelow f k ↔ rank type < k ∧ is_Some (propsValidator (props f) type).
Proof.
  unfold declaredBelow. rewrite list_elem_of_filter.
  split; [tauto|]. intros H. split; [done|]. destruct type; set_solver.
Qed.

(** What the calls made for a field say once one of them is known to have
    rejected: it is the last one. *)
Lemma rejected_call_is_last (f0 : @Field Validator) cs type error type' error' :
  rejectedAt f0 cs type' error' → (type, RejectedWith error) ∈ cs →
  type' = type ∧ error' = error.
Proof.
  intros (cs' & -> & _ & Hful & _) [Hin|Hin]%elem_of_app.
  - unfold allFulfilled in Hful. rewrite Forall_forall in Hful.
    by apply Hful in Hin.
  - apply list_elem_of_singleton in Hin. by simplify_eq.
Qed.

(** *** The outcome of [submit] *)

(** [submit] settles under a fair schedule: it rejects with the first
    thing thrown in a chain, and calls nothing then; otherwise it ends as
    the gate and the callback say. *)
Lemma submit_shape props_ st sched :
  fair (length (formFieldsRef st)) sched →
  let r := runChains_ sched (startRun (setIsSubmitted true st)) in
  ∃ res tail,
    submit_ props_ sched st = Some (res, run_form r, run_trace r ++ tail)
    ∧ (tail = []
       ∨ ∃ callback,
           tail = [OnSubmitCalled (run_values r) (baseValue (run_form r))]
           ∧ onSubmit props_ = Some callback
           ∧ thrown (run_trace r) = []
           ∧ res = match callback (run_values r) (baseValue (run_form r)) with
                   | Returned => Resolved true
                   | Threw exn => Rejected exn
                   end)
    ∧ (∀ exn rest, thrown (run_trace r) = exn :: rest → res = Rejected exn ∧ tail = [])
    ∧ (tail = [] → ∀ exn, res = Rejected exn → ∃ rest, thrown (run_trace r) = exn :: rest)
    ∧ (thrown (run_trace r) = [] → submitWhenInvalid props_ = Some true →
       is_Some (onSubmit props_) → tail ≠ []).
Proof.
  intros Hfair r. unfold submit. fold r.
  destruct (thrown (run_trace r)) as [|exn rest] eqn:Hthrown.
  2:{ exists (Rejected exn), []. rewrite app_nil_r.
      repeat match goal with |- _ ∧ _ => split end; try done; [by left| |].
      - intros ? ? ?. by simplify_eq.
      - intros _ exn' ?. simplify_eq. eauto. }
  destruct (fair_validArrays_unless_thrown (setIsSubmitted true st) sched Hfair Hthrown)
    as (valid & Hvalid & _). fold r in Hvalid. rewrite Hvalid.
  destruct (negb (default false (submitWhenInvalid props_))
            && negb (forallb (λ isValid, isValid) valid)) eqn:Hgate.
  { exists (Resolved false), []. rewrite app_nil_r.
    repeat match goal with |- _ ∧ _ => split end; try done; [by left|].
    intros _ Hopen. rewrite Hopen in Hgate. done. }
  destruct (onSubmit props_) as [callback|] eqn:Hcb.
  - exists (match callback (run_values r) (baseValue (run_form r)) with
            | Returned => Resolved true
            | Threw exn => Rejected exn
            end), [OnSubmitCalled (run_values r) (baseValue (run_form r))].
    repeat match goal with |- _ ∧ _ => split end; try done.
    + by destruct (callback _ _).
    + right. by exists callback.
  - exists (Resolved true), []. rewrite app_nil_r.
    repeat match goal with |- _ ∧ _ => split end; try done. by left.
Qed.

(** How the error list [errs] of a field shows in the aggregates of the
    form in state [st']: it is part of what [getErrors] collects; the
    [errors] getter returns it when the cache was never computed, and after
    [recomputeErrors] and a render when the slot is armed; the [isValid]
    getter computes false when the cache was never computed. *)
Definition surfaces (st' : @FormState Validator) (errs : list string) : Prop :=
  (∀ msg, msg ∈ errs → msg ∈ getErrors (formFieldsRef st'))
  ∧ (cur (_errors st') = None → ∀ msg, msg ∈ errs → msg ∈ (errorGetter st').1.1)
  ∧ (armed SlotErrors st' = true →
       ∀ msg, msg ∈ errs → msg ∈ (errorGetter (rerender (recomputeErrors st').1)).1.1)
  ∧ (errs ≠ [] → cur (_isValid st') = None → (isValidGetter st').1.1 = false).

Lemma field_errors_surface st' i f :
  formFieldsRef st' !! i = Some f → surfaces st' (errors f).
Proof.
  intros Hf.
  assert (∀ msg, msg ∈ errors f → msg ∈ getErrors (formFieldsRef st')) as Hall.
  { intros msg Hmsg. apply elem_of_getErrors. exists f.
    split; [by eapply list_elem_of_lookup_2|done]. }
  split; [done|]. split; [|split].
  - intros Hnone msg Hmsg. unfold errorGetter. simpl. rewrite Hnone. simpl. by apply Hall.
  - intros Harmed msg Hmsg.
    destruct (recomputeErrors_armed_errors st' Harmed) as [Hnxt _].
    unfold errorGetter. simpl. rewrite Hnxt. simpl. by apply Hall.
  - intros Hne Hnone. unfold isValidGetter. simpl. rewrite Hnone. simpl.
    destruct (getValidBoolean (formFieldsRef st')) eqn:Hvalid; [|done].
    apply getValidBoolean_Forall in Hvalid. rewrite Forall_forall in Hvalid.
    destruct Hne. apply Hvalid. by eapply list_elem_of_lookup_2.
Qed.

(** The validator of [f0] for the phase [type] rejects whenever it is
    called, and the validators [f0] declares for the phases before it
    fulfil whenever they are called. *)
Definition rejectsAt (f0 : @Field Validator) (type : ValidationType) : Prop :=
  (∃ validator,
     propsValidator (props f0) type = Some validator
     ∧ ∀ now form, validate now (value f0) form validator ≠ Fulfilled)
  ∧ (∀ type' validator' now form,
       rank type' < rank type → propsValidator (props f0) type' = Some validator' →
       validate now (value f0) form validator' = Fulfilled).

(** A validator that rejects is reached, whatever the schedule, once the
    chain of its field has settled. *)
Lemma rejecting_validator_called st0 sched i f0 type :
  fair (length (formFieldsRef st0)) sched →
  formFieldsRef st0 !! i = Some f0 → rejectsAt f0 type →
  ∃ form error,
    ValidateCalled i type (value f0) form (RejectedWith error)
      ∈ run_trace (runChains_ sched (startRun st0)).
Proof.
  intros Hfair Hf0 [(validator & Hv & Hrejects) Hbefore].
  set (r := runChains_ sched (startRun st0)).
  pose proof (runChains_settling st0 sched) as Hinv. fold r in Hinv.
  destruct (lookup_lt_is_Some_2 (run_chains r) i) as [c Hc].
  { rewrite (sett_chains_length _ _ Hinv). by eapply lookup_lt_Some. }
  pose proof (sett_chain _ _ Hinv i c f0 Hc Hf0) as Hsays.
  pose proof (sett_events _ _ Hinv) as Hev. rewrite Forall_forall in Hev.
  (* what a call recorded for [i] is *)
  assert (∀ type' res, (type', res) ∈ calls i (run_trace r) →
            ∃ v form validator' now,
              ValidateCalled i type' v form res ∈ run_trace r
              ∧ propsValidator (props f0) type' = Some validator'
              ∧ v = value f0 ∧ res = validate now (value f0) form validator') as Hcall.
  { intros type' res (v & form & Hin)%elem_of_calls_throwing.
    destruct (Hev _ Hin) as (f0' & validator' & st' & now & Hf0' & Hv' & -> & -> & ->).
    simplify_eq. eauto 10. }
  (* a fulfilled call for [type] is impossible *)
  assert (∀ cs, allFulfilled cs → (∀ call, call ∈ cs → call ∈ calls i (run_trace r)) →
            type ∉ cs.*1) as Hnot.
  { intros cs Hful Hsub Hin. apply list_elem_of_fmap in Hin as ([type' res] & -> & Hin).
    unfold allFulfilled in Hful. rewrite Forall_forall in Hful.
    pose proof (Hful _ Hin) as Hres. simpl in *. subst res.
    destruct (Hcall _ _ (Hsub _ Hin)) as (v & form & validator' & now & _ & Hv' & _ & Hres).
    simplify_eq. by destruct (Hrejects now form). }
  assert (type ∈ declaredBelow f0 3) as Hdeclared.
  { apply elem_of_declaredBelow. split; [destruct type; simpl; lia|by eexists]. }
  assert (∀ type' error, rejectedAt f0 (calls i (run_trace r)) type' error →
            ∃ form, ValidateCalled i type (value f0) form (RejectedWith error) ∈ run_trace r)
    as Hrejected.
  { intros type' error (cs' & Hcs & Hbelow & Hful & _).
    destruct (Hcall type' (RejectedWith error)) as (v & form & validator' & now & Hin & Hv' & -> & Hres).
    { rewrite Hcs. set_solver. }
    destruct (decide (rank type' < rank type)) as [Hlt|Hge].
    { rewrite (Hbefore _ _ now form Hlt Hv') in Hres. done. }
    destruct (decide (rank type < rank type')) as [Hlt|Hle].
    { destruct (Hnot cs' Hful); [intros call ?; rewrite Hcs; set_solver|].
      rewrite Hbelow. apply elem_of_declaredBelow. split; [done|by eexists]. }
    assert (type' = type) as -> by (destruct type, type'; simpl in *; done || lia).
    eauto. }
  destruct (fair_settled st0 sched i c Hfair Hc) as [[b ->]|[exn ->]]; simpl in Hsays.
  - destruct b.
    + destruct Hsays as [[Hall Hful] _]. destruct (Hnot _ Hful); [done|by rewrite Hall].
    + destruct Hsays as [(type' & error & errs & Hrej & _)|[[Hall Hful] _]].
      * destruct (Hrejected _ _ Hrej) as [form Hin]. eauto.
      * destruct (Hnot _ Hful); [done|by rewrite Hall].
  - destruct Hsays as [(type' & error & Hrej & _)|([Hall Hful] & _)].
    + destruct (Hrejected _ _ Hrej) as [form Hin]. eauto.
    + destruct (Hnot _ Hful); [done|by rewrite Hall].
Qed.

(** A rejection recorded in the trace is the last call made for its field;
    what it led to is for [sett_reject] to say. *)
Lemma rejection_is_last st0 sched i type v form error :
  let r := runChains_ sched (startRun st0) in
  ValidateCalled i type v form (RejectedWith error) ∈ run_trace r →
  ∃ f0, formFieldsRef st0 !! i = Some f0 ∧ v = value f0
        ∧ rejectedAt f0 (calls i (run_trace r)) type error.
Proof.
  intros r Hin.
  pose proof (runChains_settling st0 sched) as Hinv. fold r in Hinv.
  pose proof (sett_events _ _ Hinv) as Hev. rewrite Forall_forall in Hev.
  destruct (Hev _ Hin) as (f0 & validator & st' & now & Hf0 & Hv & -> & -> & Hres).
  exists f0. split; [done|]. split; [done|].
  assert ((type, RejectedWith error) ∈ calls i (run_trace r)) as Hcall
    by (apply elem_of_calls_throwing; eauto).
  assert (∀ cs, allFulfilled cs → (type, RejectedWith error) ∉ cs) as Hnot.
  { intros cs Hful Hc. unfold allFulfilled in Hful. rewrite Forall_forall in Hful.
    by apply Hful in Hc. }
  pose proof (sett_reject _ _ Hinv _ _ _ _ _ Hin) as Hhandled.
  unfold rejectionHandled in Hhandled.
  destruct (getValidationError error) as [errs|exn] eqn:Hg.
  - destruct Hhandled as (Hc & _).
    destruct (sett_chain _ _ Hinv i _ f0 Hc Hf0)
      as [(type' & error' & errs' & Hrej & _)|[[_ Hful] _]].
    + by destruct (rejected_call_is_last _ _ _ _ _ _ Hrej Hcall) as [-> ->].
    + by destruct (Hnot _ Hful).
  - destruct Hhandled as (Hc & _).
    destruct (sett_chain _ _ Hinv i _ f0 Hc Hf0)
      as [(type' & error' & Hrej & _)|([_ Hful] & _)].
    + by destruct (rejected_call_is_last _ _ _ _ _ _ Hrej Hcall) as [-> ->].
    + by destruct (Hnot _ Hful).
Qed.

(** C5 - under a schedule that lets every chain settle, [submit] settles.
    It rejects in three cases only, with what was thrown: [getValidationError]
    threw in the [catch] handler of a validator, [fillPath] threw while the
    value of a passing field was projected, or the [onSubmit] callback
    threw; the first thing thrown in a chain makes it reject, and the
    callback is not called then.  A rejection of a validator is caught: it
    is the last call made for its field, and when [getValidationError]
    returns, the messages are set as the errors of the field, where the
    aggregates find them when they are next computed; [submit] itself
    leaves the caches as they were, so that a getter whose cache holds a
    list goes on returning that list.  A validator that rejects whenever it
    is called, after validators that fulfil, is called. *)
Theorem C5_rejections_of_submit props_ st sched
    (Hfair : fair (length (formFieldsRef st)) sched) :
  ∃ res st' trace,
    submit_ props_ sched st = Some (res, st', trace)
    ∧ (∀ exn, res = Rejected exn →
         (∃ i error, GetValidationErrorThrew i error exn ∈ trace
                     ∧ getValidationError error = Throws exn)
         ∨ (∃ i f0 values,
              formFieldsRef st !! i = Some f0
              ∧ FillPathThrew i (name (props f0)) (value f0) exn ∈ trace
              ∧ fillPath values (name (props f0)) (value f0) = Throws exn)
         ∨ (∃ callback values form,
              onSubmit props_ = Some callback
              ∧ OnSubmitCalled values form ∈ trace
              ∧ callback values form = Threw exn))
    ∧ (∀ exn rest, thrown trace = exn :: rest →
         res = Rejected exn ∧ ∀ values form, OnSubmitCalled values form ∉ trace)
    ∧ (∀ values form, OnSubmitCalled values form ∈ trace →
         ∃ callback, onSubmit props_ = Some callback
                     ∧ res = match callback values form with
                             | Returned => Resolved true
                             | Threw exn => Rejected exn
                             end)
    ∧ (∀ i type v form error,
         ValidateCalled i type v form (RejectedWith error) ∈ trace →
         (∃ f0, formFieldsRef st !! i = Some f0 ∧ v = value f0
                ∧ rejectedAt f0 (calls i trace) type error)
         ∧ match getValidationError error with
           | Returns errs =>
               SetErrorsCalled i errs ∈ trace
               ∧ (∃ f, formFieldsRef st' !! i = Some f ∧ errors f = errs)
               ∧ surfaces st' errs
           | Throws exn =>
               GetValidationErrorThrew i error exn ∈ trace
               ∧ ∃ exn', res = Rejected exn'
           end)
    ∧ (∀ i f0 type,
         formFieldsRef st !! i = Some f0 → rejectsAt f0 type →
         ∃ form error, ValidateCalled i type (value f0) form (RejectedWith error) ∈ trace)
    ∧ _errors st' = _errors st ∧ _isValid st' = _isValid st
    ∧ (∀ cached, cur (_errors st) = Some cached → (errorGetter st').1.1 = cached).
Proof.
  destruct (submit_shape props_ st sched Hfair)
    as (res & tail & Hsubmit & Htail & Hthrown & Hquiet & _).
  set (r := runChains_ sched (startRun (setIsSubmitted true st))) in *.
  pose proof (runChains_settling (setIsSubmitted true st) sched) as Hinv. fold r in Hinv.
  pose proof (sett_events _ _ Hinv) as Hev. rewrite Forall_forall in Hev.
  assert (thrown tail = [] ∧ ∀ i, calls i tail = []) as [Htail_thrown Htail_calls].
  { destruct Htail as [->|(callback & -> & _)]; done. }
  assert (∀ ev, ev ∈ run_trace r ++ tail →
            ev ∈ run_trace r ∨ ∃ values form, ev = OnSubmitCalled values form) as Hsplit.
  { intros ev [Hin|Hin]%elem_of_app; [by left|right].
    destruct Htail as [->|(callback & -> & _)]; [by apply elem_of_nil in Hin|].
    apply list_elem_of_singleton in Hin. eauto. }
  assert (_errors (run_form r) = _errors st ∧ _isValid (run_form r) = _isValid st)
    as [Herrors HisValid] by (by rewrite (sett_form _ _ Hinv)).
  exists res, (run_form r), (run_trace r ++ tail). split; [done|].
  repeat match goal with |- _ ∧ _ => split end; try done.
  - (* where a rejection comes from *)
    intros exn ->.
    destruct Htail as [->|(callback & -> & Hcb & _ & Hres)].
    + destruct (Hquiet eq_refl exn eq_refl) as [rest Hrest].
      assert (exn ∈ thrown (run_trace r)) as Hin by (rewrite Hrest; left).
      rewrite app_nil_r.
      apply elem_of_thrown in Hin as [(i & error & Hin)|(i & path & v & Hin)].
      * left. exists i, error. split; [done|]. by apply (Hev _ Hin).
      * right; left. destruct (Hev _ Hin) as (f0 & values & Hf0 & -> & -> & Hfill).
        exists i, f0, values. done.
    + right; right. exists callback, (run_values r), (baseValue (run_form r)).
      split; [done|]. split; [set_solver|].
      by destruct (callback _ _); simplify_eq.
  - (* the first throw wins *)
    rewrite thrown_app, Htail_thrown, app_nil_r. intros exn rest Hrest.
    destruct (Hthrown _ _ Hrest) as [-> ->]. split; [done|].
    rewrite app_nil_r. intros values form. apply runChains_no_onSubmit.
  - (* the callback decides when it is called *)
    intros values form [Hin|Hin]%elem_of_app; [by apply runChains_no_onSubmit in Hin|].
    destruct Htail as [->|(callback & -> & Hcb & _ & Hres)]; [by apply elem_of_nil in Hin|].
    apply list_elem_of_singleton in Hin. simplify_eq. by exists callback.
  - (* rejections of validators *)
    intros i type v form error Hin.
    destruct (Hsplit _ Hin) as [Hin'|(? & ? & ?)]; [|done].
    split.
    { rewrite calls_throwing_app, Htail_calls, app_nil_r.
      by eapply (rejection_is_last (setIsSubmitted true st) sched). }
    pose proof (sett_reject _ _ Hinv _ _ _ _ _ Hin') as Hhandled.
    unfold rejectionHandled in Hhandled.
    destruct (getValidationError error) as [errs|exn] eqn:Hg.
    + destruct Hhandled as (_ & Hset & f & Hf & Herrs).
      split; [set_solver|]. split; [by exists f|].
      rewrite <- Herrs. by eapply field_errors_surface.
    + destruct Hhandled as (Hc & Hthrew). split; [set_solver|].
      apply (sett_failed _ _ Hinv) in Hc.
      destruct (thrown (run_trace r)) as [|exn' rest] eqn:Hrest;
        [by apply elem_of_nil in Hc|].
      destruct (Hthrown _ _ eq_refl) as [-> _]. eauto.
  - (* a rejecting validator is reached *)
    intros i f0 type Hf0 Hrejects.
    destruct (rejecting_validator_called (setIsSubmitted true st) sched i f0 type)
      as (form & error & Hin); try done.
    exists form, error. fold r in Hin. set_solver.
  - (* the cache of a getter is what it was *)
    intros cached Hcached. unfold errorGetter. simpl. by rewrite Herrors, Hcached.
Qed.

(** X20 - under a schedule that lets every chain settle, the chain of a
    field has returned or thrown, and how it ended tells the calls made for
    the field: valid after a fulfilled call for every declared phase, in
    order, with no error carried from before and a projection that
    returned; failed after a rejection, which is the last call, or with an
    error carried from before; thrown where [getValidationError] or
    [fillPath] threw.  The handle is as it was when [submit] started, but
    for its errors, and those change only where the chain returned
    false. *)
Theorem X20_settled_chain_tells_the_calls st sched i f0
    (Hfair : fair (length (formFieldsRef st)) sched)
    (Hf0 : formFieldsRef st !! i = Some f0) :
  let r := runChains_ sched (startRun st) in
  ∃ c f,
    run_chains r !! i = Some c ∧ run_fields r !! i = Some f
    ∧ ((∃ b, c = Done b) ∨ (∃ exn, c = Failed exn))
    ∧ chainSays f0 c (calls i (run_trace r))
    ∧ f = setErrors (errors f) f0
    ∧ (c ≠ Done false → f = f0)
    ∧ (i ∈ fillOrder (run_trace r) ↔ c = Done true)
    ∧ (∀ exn, c = Failed exn → exn ∈ thrown (run_trace r)).
Proof.
  intros r.
  pose proof (runChains_settling st sched) as Hinv. fold r in Hinv.
  pose proof (lookup_lt_Some _ _ _ Hf0) as Hlt.
  destruct (lookup_lt_is_Some_2 (run_chains r) i) as [c Hc];
    [by rewrite (sett_chains_length _ _ Hinv)|].
  destruct (lookup_lt_is_Some_2 (run_fields r) i) as [f Hf];
    [by rewrite (sett_fields_length _ _ Hinv)|].
  exists c, f. split; [done|]. split; [done|].
  split; [by eapply fair_settled|].
  split; [by apply (sett_chain _ _ Hinv)|].
  destruct (sett_fields _ _ Hinv i f Hf) as (f0' & Hf0' & Hsame & Hkeep).
  assert (f0' = f0) as -> by congruence.
  split; [done|]. split; [intros Hne; apply Hkeep; congruence|].
  split.
  - rewrite (sett_fill_done _ _ Hinv). split; [congruence|by intros ->].
  - intros exn ->. by apply (sett_failed _ _ Hinv i).
Qed.

End ThrowingProperties.

(** *** The projection of four fields *)

Section ThrowingProjection.

Import Throwing.

Context {Validator : Type}.
Context (validate : nat → JsValue → @FormInstance Validator → Validator → Settled).
Context (getValidationError : JsValue → Outcome (list string)).

Lemma four_returned_true (chains : list Chain) :
  mapM chainResult chains = Some [true; true; true; true] →
  chains = [Done true; Done true; Done true; Done true].
Proof.
  intros H%mapM_Some.
  repeat (match goal with
          | H : Forall2 _ _ (_ :: _) |- _ =>
              let c := fresh "c" in let Hc := fresh "Hc" in
              apply Forall2_cons_inv_r in H as (c & ? & Hc & H & ->);
              destruct c; simpl in Hc; simplify_eq
          | H : Forall2 _ _ [] |- _ => apply Forall2_nil_inv_r in H as ->
          end).
  done.
Qed.

Lemma order_of_four (order : list nat) :
  NoDup order → (∀ i, i ∈ order ↔ i < 4) → order ∈ permutations [0; 1; 2; 3].
Proof.
  intros Hnd Hmem. apply permutations_Permutation.
  apply NoDup_Permutation; [repeat constructor; set_solver|done|].
  intros i. rewrite Hmem.
  rewrite !elem_of_cons, elem_of_nil. lia.
Qed.

(** C6 - when the registry holds four fields named "a", "b.c", "list[0]"
    and "list[1]" and all four end up valid, [submit] calls the [onSubmit]
    callback once, with the object {a, b: {c}, list: {"0", "1"}} built from
    the fields' values, whatever the schedule under which the four chains
    settled: what stands under "list" is an object with the keys "0" and
    "1", not an array. *)
Theorem C6_projection_into_objects props_ callback st sched fa fb f0 f1
    (Hregistry : formFieldsRef st = [fa; fb; f0; f1])
    (Hnames : name (props fa) = "a" ∧ name (props fb) = "b.c"
              ∧ name (props f0) = "list[0]" ∧ name (props f1) = "list[1]")
    (Hpass : validArrays (runChains validate getValidationError fillPath_spec sched
                            (startRun (setIsSubmitted true st)))
             = Some [true; true; true; true])
    (Hcallback : onSubmit props_ = Some callback) :
  let expected :=
    JObj (<["a" := value fa]>
          (<["b" := JObj (<["c" := value fb]> ∅)]>
           (<["list" := JObj (<["0" := value f0]> (<["1" := value f1]> ∅))]> ∅))) in
  ∃ res st' trace,
    submit validate getValidationError fillPath_spec props_ sched st = Some (res, st', trace)
    ∧ (∃ form, OnSubmitCalled expected form ∈ trace)
    ∧ (∀ values form, OnSubmitCalled values form ∈ trace → values = expected)
    ∧ res = match callback expected (baseValue st') with
            | Returned => Resolved true
            | Threw exn => Rejected exn
            end.
Proof.
  intros expected.
  set (r := runChains validate getValidationError fillPath_spec sched
              (startRun (setIsSubmitted true st))) in *.
  pose proof (runChains_settling validate getValidationError fillPath_spec
                (setIsSubmitted true st) sched) as Hinv.
  fold r in Hinv.
  apply four_returned_true in Hpass as Hchains.
  assert (run_values r = expected) as Hvalues.
  { pose proof (sett_values _ _ _ _ _ Hinv) as Hv.
    pose proof (sett_fill_NoDup _ _ _ _ _ Hinv) as Hnd.
    pose proof (sett_fill_done _ _ _ _ _ Hinv) as Hdone.
    rewrite Hchains in Hdone.
    assert (fillOrder (run_trace r) ∈ permutations [0; 1; 2; 3]) as Hperm.
    { apply order_of_four; [done|]. intros i. rewrite Hdone.
      do 4 (destruct i as [|i]; [simpl; split; [lia|done]|]).
      simpl. split; [done|lia]. }
    simpl in Hv. rewrite Hregistry in Hv. unfold expected.
    destruct Hnames as (Ha & Hb & H0 & H1).
    destruct fa as [[na ? ? ? ? ?] va ? ? ? ?], fb as [[nb ? ? ? ? ?] vb ? ? ? ?],
             f0 as [[n0 ? ? ? ? ?] v0 ? ? ? ?], f1 as [[n1 ? ? ? ? ?] v1 ? ? ? ?].
    simpl in Ha, Hb, H0, H1. subst na nb n0 n1. simpl.
    assert (Some (run_values r) =
            Some (JObj (<["a" := va]>
                    (<["b" := JObj (<["c" := vb]> ∅)]>
                       (<["list" := JObj (<["0" := v0]> (<["1" := v1]> ∅))]> ∅)))))
      as Hsome; [|by injection Hsome].
    rewrite <- Hv. clear Hv Hinv Hpass Hchains Hnd Hdone.
    generalize dependent (fillOrder (run_trace r)). intros order Hperm.
    vm_compute in Hperm.
    repeat (apply elem_of_cons in Hperm as [->|Hperm]; [vm_compute; reflexivity|]).
    by apply elem_of_nil in Hperm. }
  assert (thrown (run_trace r) = []) as Hquiet.
  { destruct (thrown (run_trace r)) as [|exn rest] eqn:Hthrown; [done|].
    destruct (sett_thrown _ _ _ _ _ Hinv exn) as [i Hi]; [rewrite Hthrown; left|].
    rewrite Hchains in Hi.
    do 4 (destruct i as [|i]; [done|]). done. }
  assert (∀ values form, OnSubmitCalled values form ∉ run_trace r) as Hnone.
  { intros values form. apply runChains_no_onSubmit. }
  unfold submit. fold r. rewrite Hquiet, Hpass, Hcallback. simpl.
  rewrite andb_false_r. rewrite Hvalues.
  assert (∀ values form,
            OnSubmitCalled values form
              ∈ run_trace r ++ [OnSubmitCalled expected (baseValue (run_form r))] →
            values = expected) as Honly.
  { intros values form [Hin|Hin]%elem_of_app; [by apply Hnone in Hin|].
    apply list_elem_of_singleton in Hin. congruence. }
  destruct (callback expected (baseValue (run_form r))) eqn:Hcalled;
    (eexists _, _, _; split; [done|]; split; [|split; [done|]]);
    try (exists (baseValue (run_form r)); apply elem_of_app; right; left);
    by rewrite Hcalled.
Qed.

End ThrowingProjection.

Section LazinessProperties.

Context {Validator : Type}.
Implicit Types (st : @FormState Validator) (op : Op Validator) (s : Slot).

Lemma runOps_snoc (ops : list (Op Validator)) op st :
  runOps (ops ++ [op]) st =
    ((runOp op (runOps ops st).1).1, (runOps ops st).2 ++ (runOp op (runOps ops st).1).2).
Proof.
  unfold runOps. rewrite foldl_app. simpl.
  destruct (foldl _ _ ops) as [st' log]. simpl. by destruct (runOp op st').
Qed.

(** An operation other than the getter of a slot neither arms the slot nor
    computes its aggregate while the slot is unarmed. *)
Lemma runOp_lazy op st s :
  op ≠ OpGet s → armed s st = false →
  armed s (runOp op st).1 = false ∧ s ∉ (runOp op st).2.
Proof.
  intros Hop Harm.
  destruct op as [s'| | | | | | | |]; simpl;
    try (split; [by destruct s|by apply not_elem_of_nil]).
  - destruct s', s; try (by destruct Hop); simpl in *;
      unfold errorGetter, isValidGetter, isDirtyGetter, isTouchedGetter; simpl;
      match goal with |- context [cur ?c] => destruct (cur c) end; simpl;
      (split; [done|]); rewrite ?list_elem_of_singleton; try done;
      apply not_elem_of_nil.
  - unfold recomputeErrors.
    destruct (shouldRerenderErrorOnRecompute st) eqn:He,
             (shouldRerenderIsValidOnRecompute st) eqn:Hv; simpl; rewrite ?Hv; simpl;
      destruct s; simpl in *; try congruence; split; try done;
      rewrite ?not_elem_of_cons; repeat split; try done; apply not_elem_of_nil.
  - unfold recomputeIsDirty.
    destruct (shouldRerenderIsDirtyOnRecompute st) eqn:Hd; simpl;
      destruct s; simpl in *; try congruence; split; try done;
      rewrite ?list_elem_of_singleton; try done; apply not_elem_of_nil.
  - unfold recomputeIsTouched.
    destruct (shouldRerenderIsTouchedOnRecompute st) eqn:Hd; simpl;
      destruct s; simpl in *; try congruence; split; try done;
      rewrite ?list_elem_of_singleton; try done; apply not_elem_of_nil.
Qed.

(** From mount on, as long as the getter of a slot has not been called the
    slot is unarmed and its aggregate has not been computed, whatever else
    happened. *)
Lemma never_computed_before_first_read (ops : list (Op Validator)) fields s :
  OpGet s ∉ ops →
  armed s (runOps ops (mount fields)).1 = false ∧ s ∉ (runOps ops (mount fields)).2.
Proof.
  induction ops as [|op ops IH] using rev_ind; intros Hget.
  - split; [by destruct s|apply not_elem_of_nil].
  - rewrite runOps_snoc. simpl.
    destruct IH as [Harm Hlog]; [set_solver|].
    destruct (runOp_lazy op (runOps ops (mount fields)).1 s) as [Harm' Hlog'];
      [set_solver|done|].
    split; [done|]. rewrite elem_of_app. tauto.
Qed.

End LazinessProperties.

(** * The engine at concrete forms *)

(** C4 - a form is mounted over one field and reset before anything read
    [isDirty]; React renders.  The first call of the [isDirty] getter then
    finds [false] in the cache: it returns it without arming the slot and
    without computing the aggregate.  When the user later edits the field,
    [recomputeIsDirty] does nothing, and the getter keeps answering [false]
    for a registry with a dirty field; the whole sequence computes the
    aggregate not once.  [isTouched] behaves the same, whereas the getters
    of [errors] and [isValid] arm their slot on every call, cached value or
    not. *)
Theorem C4_isDirty_unarmed_after_reset :
  let st1 := rerender (reset (mount [plainField "a" (JStr "x")])) in
  let st2 := with_fields [editedField] st1 in
  isDirtyGetter st1 = (false, st1, [])
  ∧ armed SlotIsDirty (isDirtyGetter st1).1.2 = false
  ∧ recomputeIsDirty st2 = (st2, [])
  ∧ getFieldBoolean isDirty (formFieldsRef st2) = true
  ∧ (isDirtyGetter (rerender (recomputeIsDirty st2).1)).1.1 = false
  ∧ runOps [OpReset; OpRerender; OpGet SlotIsDirty; OpFields [editedField];
            OpRecomputeIsDirty; OpRerender; OpGet SlotIsDirty]
           (mount [plainField "a" (JStr "x")])
    = (rerender st2, [])
  ∧ isTouchedGetter st1 = (false, st1, [])
  ∧ recomputeIsTouched st2 = (st2, [])
  ∧ getFieldBoolean isTouched (formFieldsRef st2) = true
  ∧ (∀ st : @FormState FnValidator,
       armed SlotErrors (errorGetter st).1.2 = true
       ∧ armed SlotIsValid (isValidGetter st).1.2 = true).
Proof.
  intros st1 st2.
  repeat match goal with |- _ ∧ _ => split end;
    try (vm_compute; reflexivity).
  intros st. split; [apply errorGetter_arms|apply isValidGetter_arms].
Qed.

(** C8 - the claim as stated fails for a registry with the handles
    "list[0]" and "list.0": the names differ, each handle carries the dotted
    form of its name, and the two equivalent queries resolve to different
    handles. *)
Lemma C8_lookup_counterexample :
  let st := mount [bracketField; dottedField] in
  formFieldsRef st !! 0 = Some bracketField
  ∧ name (props bracketField) ≠ name (props dottedField)
  ∧ Forall (λ field, _normalizedDotName field
                     = dottedName stringToPath_spec (name (props field)))
           (formFieldsRef st)
  ∧ dottedName stringToPath_spec "list.0"
    = dottedName stringToPath_spec (name (props bracketField))
  ∧ getFieldValue stringToPath_spec (name (props bracketField)) st = Some (0, bracketField)
  ∧ getFieldValue stringToPath_spec "list.0" st = Some (1, dottedField)
  ∧ getFieldValue stringToPath_spec "list.0" st
    ≠ getFieldValue stringToPath_spec (name (props bracketField)) st.
Proof.
  intros st. repeat match goal with |- _ ∧ _ => split end;
    try (vm_compute; reflexivity); try (vm_compute; intros [=]).
  repeat constructor.
Qed.

(** A registry in which the amended lookup property applies. *)
Lemma C8_lookup_witness :
  getFieldValue stringToPath_spec "list[1]" (mount (four JNull JNull JNull JNull))
  = Some (3, plainField "list[1]" JNull)
  ∧ getFieldValue stringToPath_spec "list.1" (mount (four JNull JNull JNull JNull))
    = Some (3, plainField "list[1]" JNull).
Proof.
  pose proof (C8_lookup_amended (Validator := FnValidator) stringToPath_spec
                (mount (four JNull JNull JNull JNull)) 3
                (plainField "list[1]" JNull) "list.1") as H.
  destruct H as (H1 & H2 & _).
  - reflexivity.
  - intros j g. simpl. do 4 (destruct j as [|j]; [intros [= <-]; reflexivity|]).
    intros Hj. by destruct j.
  - intros j g. simpl.
    do 3 (destruct j as [|j]; [intros [= <-]; vm_compute; intros [=]|]).
    destruct j as [|j]; [done|]. intros Hj. by destruct j.
  - reflexivity.
  - split; [exact H1|exact H2].
Defined.

(** A cached validity that is out of date: the field got an error after
    the cache was filled. *)
Lemma C9_reset_keeps_isValid_witness :
  let st := with_fields [setErrors ["required"] (plainField "a" (JStr ""))]
              (rerender (isValidGetter (mount [plainField "a" (JStr "")])).1.2) in
  nxt (_isValid st) = Some true
  ∧ getValidBoolean (formFieldsRef (reset st)) = false
  ∧ isValidGetter (rerender (reset st)) = (true, arm SlotIsValid (rerender (reset st)), []).
Proof.
  intros st. split; [reflexivity|]. split; [reflexivity|].
  destruct (C9_reset_keeps_isValid st true eq_refl) as (_ & _ & Hget & _).
  exact Hget.
Defined.


(** A field whose onChange validator rejects while it also declares an
    onBlur and an onSubmit validator. *)
Lemma C3_validation_phase_order_witness :
  let f := checkedField "a" JNull (Some rejecting) (Some accepting) (Some accepting) in
  let st := mount [f] in
  formFieldsRef st !! 0 = Some f
  ∧ calls 0 (run_trace (runChains_fn [0; 0; 0] (startRun (setIsSubmitted true st))))
    = [(onChangeValidate_t, RejectedWith (JStr "invalid"))].
Proof.
  intros f st. split; [reflexivity|].
  destruct (C3_validation_phase_order validate_fn getValidationError_spec fillPath_returning
              [0; 0; 0] st 0 f eq_refl) as (_ & _ & Hfirst & _).
  apply (Hfirst JNull (baseValue (setIsSubmitted true st)) (JStr "invalid")).
  vm_compute. left.
Defined.

(** A form with a validator and a callback: both are handed the stub. *)
Lemma C10_callbacks_get_base_instance_witness :
  let props_ := mkFormProps (Some (λ _ _, Returned)) None in
  let st := mount [checkedField "a" JNull (Some accepting) None None] in
  fair 1 (sequential 1)
  ∧ ∃ res st' trace,
      submit_fn props_ (sequential 1) st = Some (res, st', trace)
      ∧ ∀ ev form, ev ∈ trace → eventForm ev = Some form →
          submit_member form = SubmitStub.
Proof.
  intros props_ st.
  assert (fair 1 (sequential 1)) as Hfair
    by (intros [|i] Hi; [vm_compute; lia|lia]).
  split; [exact Hfair|].
  destruct (C10_callbacks_get_base_instance validate_fn getValidationError_spec
              fillPath_returning props_ st (sequential 1) Hfair)
    as (res & st' & trace & Hres & Hstub & _).
  exists res, st', trace. split; [exact Hres|].
  intros ev form Hin Hform. destruct (Hstub ev form Hin Hform) as (_ & H & _).
  exact H.
Defined.

(** *** Runs of [submit] on small forms *)

(** The gate is open: of a failing and a passing field only the passing one
    reaches the object given to the callback. *)
Example submit_when_invalid_passes_valid_values :
  let props_ := mkFormProps (Some (λ _ _, Returned)) (Some true) in
  let st := mount [checkedField "a" (JNum 1) (Some rejecting) None None;
                   checkedField "b" (JNum 2) (Some accepting) None None] in
  let r := runChains_fn (sequential 2) (startRun (setIsSubmitted true st)) in
  (λ out, out.1.1) <$> submit_fn props_ (sequential 2) st = Some (Resolved true)
  ∧ (λ out, last out.2) <$> submit_fn props_ (sequential 2) st
    = Some (Some (OnSubmitCalled (JObj (<["b" := JNum 2]> ∅)) (baseValue (run_form r))))
  ∧ calls 0 (run_trace r) = [(onChangeValidate_t, RejectedWith (JStr "invalid"))]
  ∧ calls 1 (run_trace r) = [(onChangeValidate_t, Fulfilled)]
  ∧ fillOrder (run_trace r) = [1]
  ∧ errors <$> run_fields r = [["invalid"]; []].
Proof.
  intros props_ st r.
  repeat match goal with |- _ ∧ _ => split end; vm_compute; reflexivity.
Qed.

(** A callback that throws makes [submit] reject with what it threw. *)
Example submit_rejects_with_callback_exception :
  let props_ := @mkFormProps FnValidator (Some (λ _ _, Threw (JStr "boom"))) None in
  (λ out, out.1.1) <$> submit_fn props_ (sequential 1) (mount [plainField "a" JNull])
  = Some (Rejected (JStr "boom")).
Proof. vm_compute. reflexivity. Qed.

(** A field that passes its three phases and still carries an error from
    before ends up failed. *)
Example submit_fails_field_with_stale_errors :
  let props_ := @mkFormProps FnValidator (Some (λ _ _, Returned)) None in
  let f := setErrors ["old"] (checkedField "a" JNull (Some accepting) None None) in
  (λ out, out.1.1) <$> submit_fn props_ (sequential 1) (mount [f])
  = Some (Resolved false).
Proof. vm_compute. reflexivity. Qed.

(** The four fields settle last-to-first and interleaved: the object is
    the same. *)
Example four_fields_reverse_schedule :
  let r := runChains_fn [3; 2; 1; 0; 3; 2; 1; 0; 3; 2; 1; 0]
             (startRun (setIsSubmitted true (mount (four (JNum 1) (JNum 2) (JNum 3) (JNum 4))))) in
  fillOrder (run_trace r) = [3; 2; 1; 0]
  ∧ run_values r
    = JObj (<["a" := JNum 1]>
            (<["b" := JObj (<["c" := JNum 2]> ∅)]>
             (<["list" := JObj (<["0" := JNum 3]> (<["1" := JNum 4]> ∅))]> ∅))).
Proof. split; vm_compute; reflexivity. Qed.

(** While a chain is pending, [submit] has not settled. *)
Example submit_pending_under_short_schedule :
  submit_fn (mkFormProps None None) [0; 0] (mount [plainField "a" JNull]) = None.
Proof. vm_compute. reflexivity. Qed.

(** *** Runs of [submit] with utilities that throw *)

(** C5 - the claim as stated fails for a form with two fields without
    validators, named "a" and "a.b", and without an [onSubmit] callback.
    The first field puts the number 5 under "a"; the projection of the
    second needs an object there, [fillPath] throws, and [submit] rejects
    with the [TypeError]: no validator and no callback was called. *)
Lemma C5_submit_rejects_without_callback :
  let props_ := @mkFormProps FnValidator None None in
  let st := mount collidingFields in
  Throwing.submit_fn props_ (sequential 2) st
  = Some (Rejected (typeError "Cannot create property"),
          setIsSubmitted true st,
          [Throwing.FillPathCalled 0 "a" (JNum 5);
           Throwing.FillPathThrew 1 "a.b" (JNum 1) (typeError "Cannot create property")])
  ∧ fillPath_spec (JObj (<["a" := JNum 5]> ∅)) "a.b" (JNum 1)
    = Throws (typeError "Cannot create property").
Proof. split; vm_compute; reflexivity. Qed.

(** A form whose field is rejected by its onChange validator, with the gate
    open and a callback that throws: [submit] rejects with what the
    callback threw, and the message of the validator is what the [errors]
    getter returns afterwards. *)
Lemma C5_rejections_of_submit_witness :
  let props_ := mkFormProps (Some (λ _ _, Threw (JStr "boom"))) (Some true) in
  let st := mount [checkedField "a" JNull (Some rejecting) None None] in
  fair 1 (sequential 1)
  ∧ ∃ st' trace,
      Throwing.submit_fn props_ (sequential 1) st = Some (Rejected (JStr "boom"), st', trace)
      ∧ (∃ form error,
           Throwing.ValidateCalled 0 onChangeValidate_t JNull form (RejectedWith error)
             ∈ trace)
      ∧ Throwing.SetErrorsCalled 0 ["invalid"] ∈ trace
      ∧ "invalid" ∈ (errorGetter st').1.1.
Proof.
  intros props_ st.
  assert (fair 1 (sequential 1)) as Hfair
    by (intros [|i] Hi; [vm_compute; lia|lia]).
  split; [exact Hfair|].
  destruct (C5_rejections_of_submit validate_fn
              (λ error, Returns (getValidationError_spec error)) fillPath_spec
              props_ st (sequential 1) Hfair)
    as (res & st' & trace & Hres & _ & _ & _ & Hrejected & Hreached & _).
  change (Throwing.submit_fn props_ (sequential 1) st = Some (res, st', trace)) in Hres.
  exists st', trace.
  assert (∃ form error,
            Throwing.ValidateCalled 0 onChangeValidate_t JNull form (RejectedWith error)
              ∈ trace) as Hcalled.
  { apply (Hreached 0 (checkedField "a" JNull (Some rejecting) None None)
             onChangeValidate_t); [reflexivity|].
    split.
    - exists rejecting. split; [reflexivity|]. intros now form. discriminate.
    - intros type' validator' now form Hrank. simpl in Hrank. lia. }
  vm_compute in Hres. injection Hres as <- <- <-.
  destruct (Hrejected 0 onChangeValidate_t JNull
              (baseValue (setIsSubmitted true st)) (JStr "invalid"))
    as (_ & Hset & _ & _ & Hgetter & _); [vm_compute; left|].
  split; [reflexivity|]. split; [exact Hcalled|]. split; [exact Hset|].
  apply Hgetter; [reflexivity|left].
Defined.

(** C6 - the claim as stated fails for the four fields holding 1, 2, 3 and
    4: what the callback is given has an object with the keys "0" and "1"
    under "list", where the claim has the array [3, 4]. *)
Lemma C6_list_is_an_object :
  let props_ := mkFormProps (Some (λ _ _, Returned)) None in
  let st := mount (four (JNum 1) (JNum 2) (JNum 3) (JNum 4)) in
  let given :=
    JObj (<["a" := JNum 1]>
          (<["b" := JObj (<["c" := JNum 2]> ∅)]>
           (<["list" := JObj (<["0" := JNum 3]> (<["1" := JNum 4]> ∅))]> ∅))) in
  let claimed :=
    JObj (<["a" := JNum 1]>
          (<["b" := JObj (<["c" := JNum 2]> ∅)]>
           (<["list" := JArr [JNum 3; JNum 4]]> ∅))) in
  (λ out, out.1.1) <$> Throwing.submit_fn props_ (sequential 4) st = Some (Resolved true)
  ∧ (λ out, last out.2) <$> Throwing.submit_fn props_ (sequential 4) st
    = Some (Some (Throwing.OnSubmitCalled given
                    (baseValue (setIsSubmitted true st))))
  ∧ given ≠ claimed.
Proof.
  intros props_ st given claimed.
  split; [vm_compute; reflexivity|]. split; [vm_compute; reflexivity|].
  intros Heq. apply (f_equal (λ v, getProp v "list")) in Heq.
  vm_compute in Heq. discriminate Heq.
Qed.

(** The four fields, settling last-to-first and interleaved. *)
Lemma C6_projection_into_objects_witness :
  let props_ := mkFormProps (Some (λ _ _, Returned)) None in
  let st := mount (four (JNum 1) (JNum 2) (JNum 3) (JNum 4)) in
  let sched := [3; 2; 1; 0; 3; 2; 1; 0; 3; 2; 1; 0] in
  ∃ st' trace,
    Throwing.submit_fn props_ sched st = Some (Resolved true, st', trace)
    ∧ ∃ form,
        Throwing.OnSubmitCalled
          (JObj (<["a" := JNum 1]>
                 (<["b" := JObj (<["c" := JNum 2]> ∅)]>
                  (<["list" := JObj (<["0" := JNum 3]> (<["1" := JNum 4]> ∅))]> ∅))))
          form ∈ trace.
Proof.
  intros props_ st sched.
  destruct (C6_projection_into_objects validate_fn
              (λ error, Returns (getValidationError_spec error))
              props_ (λ _ _, Returned) st sched
              (plainField "a" (JNum 1)) (plainField "b.c" (JNum 2))
              (plainField "list[0]" (JNum 3)) (plainField "list[1]" (JNum 4)))
    as (res & st' & trace & Hres & Hcalled & _ & ->).
  - reflexivity.
  - repeat split.
  - vm_compute. reflexivity.
  - reflexivity.
  - exists st', trace. split; [exact Hres|exact Hcalled].
Defined.

(** *** [reset] and declared values that are falsy *)

(** C7 - [reset] on a registry of two fields: a number input declared with
    the initial value 0, and a field declared with the empty string as its
    reset value and 7 as its initial value.  The claim resets the first to
    0 and the second to the empty string, their declared reset values;
    [reset] gives the first the empty string and the second 7, because
    [||] skips a declared value that is falsy. *)
Theorem C7_reset_skips_declared_falsy_value :
  let st := reset (mount [zeroField; blankResetField]) in
  declaredResetValue <$> [zeroField; blankResetField] = [Some (JNum 0); Some (JStr "")]
  ∧ resetValue_as_stated <$> [zeroField; blankResetField] = [JNum 0; JStr ""]
  ∧ value <$> formFieldsRef st = [JStr ""; JNum 7].
Proof. repeat split. Qed.


(** * Further properties of the engine *)

Section AggregateProperties.

Context {Validator : Type}.
Implicit Types (st : @FormState Validator) (field : @Field Validator).
Implicit Types (fields fs : list (@Field Validator)).

Lemma getErrors_app fields fs : getErrors (fields ++ fs) = getErrors fields ++ getErrors fs.
Proof.
  induction fields as [|f fields IH]; [done|].
  simpl. rewrite !getErrors_cons, IH. by rewrite app_assoc.
Qed.

(** X1 - the error aggregate lists the messages of the fields in registry
    order, duplicates included: the aggregate of two registries put one
    after the other is the one list followed by the other, its length is
    the sum of the fields' error counts, and a message is in it exactly when
    some field has it. *)
Theorem X1_getErrors_in_registry_order fields fs :
  getErrors (fields ++ fs) = getErrors fields ++ getErrors fs
  ∧ length (getErrors fields) = sum_list ((λ field, length (errors field)) <$> fields)
  ∧ (∀ msg : string, msg ∈ getErrors fields ↔ ∃ field, field ∈ fields ∧ msg ∈ errors field).
Proof.
  split; [apply getErrors_app|]. split; [|intros; apply elem_of_getErrors].
  induction fields as [|f fields IH]; [done|].
  rewrite getErrors_cons, length_app, IH. done.
Qed.

(** X2 - the two aggregates agree: the form is valid exactly when the error
    aggregate is empty. *)
Theorem X2_isValid_iff_no_errors fields :
  getValidBoolean fields = true ↔ getErrors fields = [].
Proof.
  rewrite getValidBoolean_Forall. induction fields as [|f fields IH].
  - split; [done|constructor].
  - rewrite getErrors_cons, Forall_cons, IH. split.
    + intros [-> ->]. done.
    + intros [H1 H2]%app_eq_nil. done.
Qed.

Lemma getFieldBoolean_exists (flag : @Field Validator → bool) fields :
  getFieldBoolean flag fields = true ↔ ∃ field, field ∈ fields ∧ flag field = true.
Proof.
  unfold getFieldBoolean. rewrite existsb_exists.
  split; intros (f & Hin & Hf); exists f; (split; [by apply list_elem_of_In|done]).
Qed.

(** X3 - a flag aggregate ([isDirty], [isTouched]) is true exactly when some
    field of the registry has the flag; it is false on the empty registry
    and is the disjunction over two registries put together. *)
Theorem X3_getFieldBoolean_some (flag : @Field Validator → bool) fields fs :
  (getFieldBoolean flag fields = true ↔ ∃ field, field ∈ fields ∧ flag field = true)
  ∧ getFieldBoolean flag (@nil (@Field Validator)) = false
  ∧ getFieldBoolean flag (fields ++ fs)
    = getFieldBoolean flag fields || getFieldBoolean flag fs.
Proof.
  split; [apply getFieldBoolean_exists|]. split; [done|].
  unfold getFieldBoolean. apply existsb_app.
Qed.

Lemma getFieldBoolean_const (flag : @Field Validator → bool) (b : bool) fields :
  Forall (λ field, flag field = b) fields →
  getFieldBoolean flag fields = b && negb (bool_decide (fields = [])).
Proof.
  intros Hall. destruct fields as [|f fields]; [by destruct b|].
  rewrite bool_decide_eq_false_2 by done. rewrite andb_true_r.
  destruct b.
  - apply getFieldBoolean_exists. exists f. split; [left|].
    by apply Forall_cons in Hall as [? _].
  - apply not_true_is_false. intros (g & Hin & Hg)%getFieldBoolean_exists.
    rewrite Forall_forall in Hall. rewrite (Hall g Hin) in Hg. done.
Qed.

(** X4 - [setIsDirty] gives every field the flag it is called with and
    leaves the rest of each field alone; the dirtiness of the registry is
    then that flag, or false when there is no field.  The caches are not
    written: a cached [isDirty] stays as it is until [recomputeIsDirty]
    runs.  [setIsTouched] does the same for the touched flag. *)
Theorem X4_setIsDirty_setIsTouched (b : bool) st :
  Forall2 (λ field field', field' = field_setIsDirty b field)
          (formFieldsRef st) (formFieldsRef (setIsDirty b st))
  ∧ getFieldBoolean isDirty (formFieldsRef (setIsDirty b st))
    = b && negb (bool_decide (formFieldsRef st = []))
  ∧ getFieldBoolean isTouched (formFieldsRef (setIsDirty b st))
    = getFieldBoolean isTouched (formFieldsRef st)
  ∧ getErrors (formFieldsRef (setIsDirty b st)) = getErrors (formFieldsRef st)
  ∧ setIsDirty b st = with_fields (formFieldsRef (setIsDirty b st)) st
  ∧ Forall2 (λ field field', field' = field_setIsTouched b field)
            (formFieldsRef st) (formFieldsRef (setIsTouched b st))
  ∧ getFieldBoolean isTouched (formFieldsRef (setIsTouched b st))
    = b && negb (bool_decide (formFieldsRef st = []))
  ∧ getFieldBoolean isDirty (formFieldsRef (setIsTouched b st))
    = getFieldBoolean isDirty (formFieldsRef st)
  ∧ setIsTouched b st = with_fields (formFieldsRef (setIsTouched b st)) st.
Proof.
  assert (∀ (g : @Field Validator → @Field Validator) fields,
            fmap g fields = [] ↔ fields = []) as Hnil.
  { intros g fields. destruct fields; naive_solver. }
  assert (∀ (g : @Field Validator → @Field Validator) (flag : @Field Validator → bool) fields,
            (∀ field, flag (g field) = flag field) →
            getFieldBoolean flag (g <$> fields) = getFieldBoolean flag fields) as Hsame.
  { intros g flag fields Hg. unfold getFieldBoolean.
    induction fields as [|f fields IH]; [done|].
    rewrite fmap_cons. simpl. rewrite Hg. f_equal. apply IH. }
  repeat match goal with |- _ ∧ _ => split end; simpl; try done.
  - apply Forall2_fmap_r, Forall_Forall2_diag, Forall_forall. done.
  - rewrite (getFieldBoolean_const isDirty b).
    + f_equal. f_equal. apply bool_decide_ext, Hnil.
    + apply Forall_fmap, Forall_forall. done.
  - by apply Hsame.
  - induction (formFieldsRef st) as [|f fields IH]; [done|].
    rewrite fmap_cons, !getErrors_cons, IH. done.
  - apply Forall2_fmap_r, Forall_Forall2_diag, Forall_forall. done.
  - rewrite (getFieldBoolean_const isTouched b).
    + f_equal. f_equal. apply bool_decide_ext, Hnil.
    + apply Forall_fmap, Forall_forall. done.
  - by apply Hsame.
Qed.

End AggregateProperties.

Section CacheCoherence.

Context {Validator : Type}.
Implicit Types (st : @FormState Validator) (s : Slot).
Implicit Types (fields fs : list (@Field Validator)).

(** X5 - on an armed slot the recompute entry point computes the aggregate
    of the registry as it is now and publishes it: after the next render
    the getter returns exactly that aggregate, without computing again.
    Recomputing changes neither the registry nor any arming flag. *)
Theorem X5_recompute_refreshes_armed_slot s st (Harmed : armed s st = true) :
  s ∈ (recomputeSlot s st).2
  ∧ (readSlot s (rerender (recomputeSlot s st).1)).1.1 = aggregate s (formFieldsRef st)
  ∧ (readSlot s (rerender (recomputeSlot s st).1)).2 = []
  ∧ formFieldsRef (recomputeSlot s st).1 = formFieldsRef st
  ∧ ∀ s', armed s' (recomputeSlot s st).1 = armed s' st.
Proof.
  destruct s; simpl in Harmed; simpl;
    unfold recomputeErrors, recomputeIsDirty, recomputeIsTouched,
           errorGetter, isValidGetter, isDirtyGetter, isTouchedGetter;
    rewrite ?Harmed; simpl;
    repeat match goal with
           | |- context [if ?b then _ else _] => destruct b eqn:?; simpl
           end;
    rewrite ?Harmed; simpl;
    (split; [set_solver|]); repeat split; try done; by intros [].
Qed.

(** X6 - a slot read for the first time computes the aggregate; from the
    next render on the getter serves that value without computing, even
    when the registry has changed in the meantime, for as long as no
    recompute runs. *)
Theorem X6_cached_value_is_served s st fs (Hfresh : cur (cached s st) = None) :
  (readSlot s st).1.1 = aggregate s (formFieldsRef st)
  ∧ (readSlot s st).2 = [s]
  ∧ (readSlot s (with_fields fs (rerender (readSlot s st).1.2))).1.1
    = aggregate s (formFieldsRef st)
  ∧ (readSlot s (with_fields fs (rerender (readSlot s st).1.2))).2 = [].
Proof.
  destruct s; simpl in Hfresh; simpl;
    unfold errorGetter, isValidGetter, isDirtyGetter, isTouchedGetter; simpl;
    match goal with
    | H : _ <$> ?c = None |- _ => destruct c eqn:Hc; [done|]
    end; simpl; rewrite ?Hc; done.
Qed.

(** What a slot that was never read can hold. *)
Definition holdsNoAggregate s st : Prop :=
  match s with
  | SlotErrors => _errors st = mkCell None None
  | SlotIsValid => _isValid st = mkCell None None
  | SlotIsDirty =>
      (cur (_isDirty st) = None ∨ cur (_isDirty st) = Some false)
      ∧ (nxt (_isDirty st) = None ∨ nxt (_isDirty st) = Some false)
  | SlotIsTouched =>
      (cur (_isTouched st) = None ∨ cur (_isTouched st) = Some false)
      ∧ (nxt (_isTouched st) = None ∨ nxt (_isTouched st) = Some false)
  end.

Lemma runOp_holdsNoAggregate (op : Op Validator) st s :
  op ≠ OpGet s → armed s st = false → holdsNoAggregate s st →
  holdsNoAggregate s (runOp op st).1.
Proof.
  intros Hop Harm Hhold.
  destruct op as [s'| | | | | | | |].
  - destruct s', s; try (by destruct Hop); simpl in *;
      unfold errorGetter, isValidGetter, isDirtyGetter, isTouchedGetter; simpl;
      match goal with
      | |- context [match ?x with Some _ => _ | None => _ end] => destruct x eqn:?
      end; simpl; done.
  - simpl. unfold recomputeErrors.
    destruct s; simpl in *; rewrite ?Harm; simpl;
      repeat match goal with
             | |- context [if ?b then _ else _] => destruct b eqn:?; simpl
             end; try done; congruence.
  - simpl. unfold recomputeIsDirty.
    destruct s; simpl in *; rewrite ?Harm; simpl;
      repeat match goal with
             | |- context [if ?b then _ else _] => destruct b eqn:?; simpl
             end; done.
  - simpl. unfold recomputeIsTouched.
    destruct s; simpl in *; rewrite ?Harm; simpl;
      repeat match goal with
             | |- context [if ?b then _ else _] => destruct b eqn:?; simpl
             end; done.
  - destruct s; simpl in *; try done.
    + by rewrite Hhold.
    + destruct Hhold as [Hc _]. split; [done|by right].
    + destruct Hhold as [Hc _]. split; [done|by right].
  - destruct s; simpl in *; try (by rewrite Hhold).
    + destruct Hhold as [_ Hn]. done.
    + destruct Hhold as [_ Hn]. done.
  - by destruct s.
  - by destruct s.
  - by destruct s.
Qed.

(** X7 - from mount on, whatever was recomputed, reset, rendered or changed
    in the registry, a slot whose getter was never called holds no
    aggregate: the [errors] and the [isValid] cache are empty, and the
    [isDirty] and the [isTouched] cache are empty or hold the [false] that
    [reset] wrote. *)
Theorem X7_unread_slot_holds_no_aggregate (ops : list (Op Validator)) fields s
    (Hunread : OpGet s ∉ ops) :
  holdsNoAggregate s (runOps ops (mount fields)).1
  ∧ armed s (runOps ops (mount fields)).1 = false.
Proof.
  split; [|by apply never_computed_before_first_read].
  induction ops as [|op ops IH] using rev_ind.
  - destruct s; simpl; auto.
  - rewrite runOps_snoc. simpl.
    apply runOp_holdsNoAggregate; [set_solver| |apply IH; set_solver].
    apply never_computed_before_first_read. set_solver.
Qed.

End CacheCoherence.

Section ResetComposition.

Context {Validator : Type}.
Context (stringToPath : string → list string).
Implicit Types (st : @FormState Validator) (field : @Field Validator).

Lemma resetField_idempotent field : resetField (resetField field) = resetField field.
Proof.
  destruct field as [[n iv rv c b sb] v e d t nn].
  unfold resetField, jsOr, setValue, setValues. simpl.
  destruct (isArray v) eqn:Hv; simpl;
    destruct (truthy rv) eqn:Hr; simpl; rewrite ?Hr; simpl;
    try (destruct (isArray rv); simpl; by rewrite ?Hr);
    destruct (truthy iv) eqn:Hi; simpl; rewrite ?Hr, ?Hi; simpl;
    try (destruct (isArray iv); simpl; by rewrite ?Hr, ?Hi);
    by rewrite ?Hr, ?Hi.
Qed.

Lemma getErrors_resetField (fields : list (@Field Validator)) :
  getErrors (resetField <$> fields) = getErrors fields.
Proof.
  induction fields as [|f fields IH]; [done|].
  rewrite fmap_cons, !getErrors_cons, IH.
  by destruct (resetField_frame f) as (_ & -> & _).
Qed.

(** X8 - [reset] is idempotent: a second reset changes nothing, neither at
    once nor across a render. *)
Theorem X8_reset_idempotent st :
  reset (reset st) = reset st
  ∧ rerender (reset (rerender (reset st))) = rerender (reset st).
Proof.
  assert (resetField <$> (resetField <$> formFieldsRef st) = resetField <$> formFieldsRef st)
    as Hfields.
  { rewrite <- list_fmap_compose. apply list_fmap_ext.
    intros i f _. apply resetField_idempotent. }
  split; unfold reset, rerender; simpl; by rewrite Hfields.
Qed.

(** X9 - [reset] keeps the registry searchable: a lookup after it finds the
    handle at the position it had before, with its value reset. *)
Theorem X9_lookup_after_reset (q : string) st :
  getFieldValue stringToPath q (reset st)
  = prod_map id resetField <$> getFieldValue stringToPath q st.
Proof.
  unfold getFieldValue. simpl. rewrite !list_find_fmap.
  rewrite (list_find_ext (_ ∘ resetField) (λ field, name (props field) = q)).
  2:{ intros f. simpl. by destruct (resetField_frame f) as (-> & _). }
  rewrite (list_find_ext (_ ∘ resetField)
             (λ field, _normalizedDotName field = dottedName stringToPath q)).
  2:{ intros f. simpl. by destruct (resetField_frame f) as (_ & _ & _ & _ & ->). }
  by destruct (list_find _ (formFieldsRef st)) as [[i f]|].
Qed.

(** X10 - after a reset and the render that follows it, reading [errors]
    computes the aggregate anew, and it is the aggregate from before the
    reset since a reset leaves the fields' errors alone; reading [isDirty]
    or [isTouched] gives [false] without looking at the fields; the arming
    flags and the submitted flag are as before. *)
Theorem X10_reads_after_reset st :
  readSlot SlotErrors (rerender (reset st))
  = (ErrorsValue (getErrors (formFieldsRef st)),
     _setErrors (Some (getErrors (formFieldsRef st))) (arm SlotErrors (rerender (reset st))),
     [SlotErrors])
  ∧ readSlot SlotIsDirty (rerender (reset st)) = (BoolValue false, rerender (reset st), [])
  ∧ readSlot SlotIsTouched (rerender (reset st)) = (BoolValue false, rerender (reset st), [])
  ∧ (∀ s, armed s (reset st) = armed s st)
  ∧ isSubmitted (reset st) = isSubmitted st.
Proof.
  split; [|repeat split; by intros []].
  simpl. unfold errorGetter. simpl. by rewrite getErrors_resetField.
Qed.

(** X11 - what a lookup answers: a handle of the registry, at its position;
    it is the first handle with exactly the queried name or, when no handle
    has that name, the first handle whose normalized name is the dotted
    form of the query.  On the empty registry every lookup misses. *)
Theorem X11_lookup_characterised (q : string) st i field :
  (getFieldValue stringToPath q st = Some (i, field) ↔
   formFieldsRef st !! i = Some field
   ∧ ((name (props field) = q
       ∧ ∀ j g, formFieldsRef st !! j = Some g → j < i → name (props g) ≠ q)
      ∨ (Forall (λ g, name (props g) ≠ q) (formFieldsRef st)
         ∧ _normalizedDotName field = dottedName stringToPath q
         ∧ ∀ j g, formFieldsRef st !! j = Some g → j < i →
             _normalizedDotName g ≠ dottedName stringToPath q)))
  ∧ (formFieldsRef st = [] → getFieldValue stringToPath q st = None).
Proof.
  split; [|unfold getFieldValue; by intros ->].
  unfold getFieldValue.
  destruct (list_find (λ g, name (props g) = q) (formFieldsRef st))
    as [[j g]|] eqn:Hexact.
  - apply list_find_Some in Hexact as (Hj & Hq & Hfirst). split.
    + intros [= -> ->]. split; [done|]. left. split; [done|]. exact Hfirst.
    + intros (Hi & [[Hname Hfirst']|[Hnone _]]).
      * destruct (lt_eq_lt_dec i j) as [[Hlt| ->]|Hlt].
        -- destruct (Hfirst i field Hi Hlt Hname).
        -- congruence.
        -- destruct (Hfirst' j g Hj Hlt Hq).
      * rewrite Forall_forall in Hnone.
        destruct (Hnone g (list_elem_of_lookup_2 _ _ _ Hj) Hq).
  - rewrite list_find_None in Hexact. rewrite list_find_Some. split.
    + intros (Hi & Hn & Hfirst). split; [done|]. right. done.
    + intros (Hi & [[Hname _]|(_ & Hn & Hfirst)]); [|done].
      rewrite Forall_forall in Hexact.
      destruct (Hexact field (list_elem_of_lookup_2 _ _ _ Hi) Hname).
Qed.

End ResetComposition.

Section SubmitFurther.

Context {Validator : Type}.
Context (validate : nat → JsValue → @FormInstance Validator → Validator → Settled).
Context (getValidationError : JsValue → list string).
Context (fillPath : JsValue → string → JsValue → JsValue).

Implicit Types (st : @FormState Validator) (f field : @Field Validator).
Implicit Types (r : @SubmitRun Validator) (i j : nat).

Local Abbreviation runChains_ := (runChains validate getValidationError fillPath).
Local Abbreviation submit_ := (submit validate getValidationError fillPath).
Local Abbreviation RunInv_ := (RunInv validate getValidationError fillPath).
Local Abbreviation stepOf_ := (stepOf validate getValidationError fillPath).

(** A field during [submit]: as it was, or with the messages of a rejection
    recorded in the trace as its errors. *)
Definition untouchedOrRejected (trace : list (@Event Validator)) i
    (f0 f : @Field Validator) : Prop :=
  f = f0
  ∨ ∃ type v form error,
      ValidateCalled i type v form (RejectedWith error) ∈ trace
      ∧ f = setErrors (getValidationError error) f0.

(** The form state user code is shown: the one [submit] started from, with
    the registry as it is at the call. *)
Definition showsStartState st0 (ev : @Event Validator) : Prop :=
  ∀ form, eventForm ev = Some form →
    ∃ fs, form = baseValue (with_fields fs st0).

Record FrameInv st0 r : Prop := mkFrameInv {
  frame_run : RunInv_ st0 r;
  frame_fields : ∀ i f, run_fields r !! i = Some f →
      ∃ f0, formFieldsRef st0 !! i = Some f0 ∧ untouchedOrRejected (run_trace r) i f0 f;
  frame_forms : Forall (showsStartState st0) (run_trace r)
}.

Lemma untouchedOrRejected_mono (t1 t2 : list (@Event Validator)) i f0 f :
  untouchedOrRejected t1 i f0 f → untouchedOrRejected (t1 ++ t2) i f0 f.
Proof.
  intros [->|(type & v & form & error & Hin & ->)]; [by left|right].
  exists type, v, form, error. split; [|done]. apply elem_of_app. by left.
Qed.

Lemma passed_showsStartState st0 j f type r evs :
  run_form r = with_fields (run_fields r) st0 →
  passed validate j f type r evs → Forall (showsStartState st0) evs.
Proof.
  intros Hform [[_ ->]|(validator & _ & _ & ->)]; [constructor|].
  repeat constructor. intros form [= <-]. exists (run_fields r). by rewrite Hform at 1.
Qed.

Lemma step_frame st0 j r r' : FrameInv st0 r → stepOf_ j r r' → FrameInv st0 r'.
Proof.
  intros [Hinv Hfields Hforms] Hstep.
  pose proof (step_inv _ _ _ _ _ _ _ Hinv Hstep) as Hinv'.
  pose proof (inv_form _ _ _ _ _ Hinv) as Hform0.
  split; [done| |].
  - intros i fi Hfi. destruct (decide (i = j)) as [->|Hne].
    + destruct Hstep as
        [-> Hidle
        | type next f evs Hc Hf Hp Hrank Hform Hch Hval Htr
        | f evs Hc Hf Hp Herr Hform Hch Hval Htr
        | f evs Hc Hf Hp Herr Hform Hch Hval Htr
        | type f validator error Hc Hf Hv Hres Hform Hch Hval Htr];
        [by apply Hfields|..]; unfold run_fields in Hfi; rewrite Hform in Hfi.
      * destruct (Hfields j fi Hfi) as (f0 & Hf0 & Hu). exists f0. split; [done|].
        rewrite Htr. by apply untouchedOrRejected_mono.
      * destruct (Hfields j fi Hfi) as (f0 & Hf0 & Hu). exists f0. split; [done|].
        rewrite Htr. by apply untouchedOrRejected_mono.
      * destruct (Hfields j fi Hfi) as (f0 & Hf0 & Hu). exists f0. split; [done|].
        rewrite Htr. by apply untouchedOrRejected_mono.
      * simpl in Hfi.
        rewrite list_lookup_insert_eq in Hfi by (by eapply lookup_lt_Some).
        simplify_eq.
        destruct (inv_fields _ _ _ _ _ Hinv j f Hf) as (f0 & Hf0 & _ & _ & Heq).
        rewrite Heq in * by (by rewrite Hc).
        exists f0. split; [done|]. right. rewrite Htr.
        eexists _, _, _, _. split; [|done]. apply elem_of_app. right. left.
    + rewrite (step_fields_other _ _ _ _ _ _ _ Hstep Hne) in Hfi.
      destruct (Hfields i fi Hfi) as (f0 & Hf0 & Hu). exists f0. split; [done|].
      destruct Hstep as
        [-> Hidle
        | type next f evs Hc Hf Hp Hrank Hform Hch Hval Htr
        | f evs Hc Hf Hp Herr Hform Hch Hval Htr
        | f evs Hc Hf Hp Herr Hform Hch Hval Htr
        | type f validator error Hc Hf Hv Hres Hform Hch Hval Htr];
        [done|..]; rewrite Htr; by apply untouchedOrRejected_mono.
  - destruct Hstep as
      [-> Hidle
      | type next f evs Hc Hf Hp Hrank Hform Hch Hval Htr
      | f evs Hc Hf Hp Herr Hform Hch Hval Htr
      | f evs Hc Hf Hp Herr Hform Hch Hval Htr
      | type f validator error Hc Hf Hv Hres Hform Hch Hval Htr];
      [done|..]; rewrite Htr; apply Forall_app; split; try done.
    + by eapply passed_showsStartState.
    + by eapply passed_showsStartState.
    + apply Forall_app. split; [by eapply passed_showsStartState|].
      repeat constructor. by intros form [=].
    + repeat constructor; [|by intros form [=]].
      intros form [= <-]. exists (run_fields r). by rewrite Hform0 at 1.
Qed.

Lemma runChains_frame st0 sched : FrameInv st0 (runChains_ sched (startRun st0)).
Proof.
  apply runChains_invariant.
  - split; [apply startRun_inv| |constructor].
    intros i f Hf. exists f. split; [done|by left].
  - intros j r r'. apply step_frame.
Qed.

(** What [submit] returns is the run it made, with the callback's event
    last when the callback was called. *)
Lemma submit_Some_run props_ sched st res st' trace :
  submit_ props_ sched st = Some (res, st', trace) →
  let r := runChains_ sched (startRun (setIsSubmitted true st)) in
  st' = run_form r
  ∧ (trace = run_trace r
     ∨ trace = run_trace r ++ [OnSubmitCalled (run_values r) (baseValue (run_form r))]).
Proof.
  intros Hsub r. unfold submit in Hsub. fold r in Hsub.
  destruct (validArrays r) as [valid|]; [|done].
  destruct (_ && _); [simplify_eq; by auto|].
  destruct (onSubmit props_) as [callback|]; [|simplify_eq; by auto].
  destruct (callback _ _); simplify_eq; by auto.
Qed.

Lemma runChains_empty sched r : run_chains r = [] → runChains_ sched r = r.
Proof.
  intros Hempty. induction sched as [|j sched IH]; [done|].
  change (runChains_ (j :: sched) r) with (runChains_ sched (chainStep validate getValidationError fillPath j r)).
  unfold chainStep. rewrite Hempty. simpl. exact IH.
Qed.

(** X12 - on a form without fields [submit] has nothing to wait for: under
    any schedule it marks the form submitted, calls [onSubmit] (when there
    is one) with the empty object and resolves true, or rejects with what
    the callback threw; the gate never closes. *)
Theorem X12_submit_empty_registry props_ st sched (Hempty : formFieldsRef st = []) :
  submit_ props_ sched st =
    match onSubmit props_ with
    | None => Some (Resolved true, setIsSubmitted true st, [])
    | Some callback =>
        Some (match callback (JObj ∅) (baseValue (setIsSubmitted true st)) with
              | Returned => Resolved true
              | Threw exn => Rejected exn
              end,
              setIsSubmitted true st,
              [OnSubmitCalled (JObj ∅) (baseValue (setIsSubmitted true st))])
    end.
Proof.
  unfold submit. rewrite runChains_empty by (simpl; by rewrite Hempty).
  simpl. unfold validArrays. simpl. rewrite Hempty. simpl. rewrite andb_false_r.
  destruct (onSubmit props_) as [callback|]; [|done].
  by destruct (callback _ _).
Qed.


Lemma field_with_errors_settles_false st sched i f0 :
  fair (length (formFieldsRef st)) sched →
  formFieldsRef st !! i = Some f0 → errors f0 ≠ [] →
  ∃ valid, validArrays (runChains_ sched (startRun st)) = Some valid
           ∧ valid !! i = Some false.
Proof.
  intros Hfair Hreg Herrors.
  destruct (fair_validArrays validate getValidationError fillPath st sched Hfair)
    as (valid & Hvalid & Hlen & Hlookup).
  pose proof (runChains_inv validate getValidationError fillPath st sched) as Hinv.
  exists valid. split; [done|].
  destruct (lookup_lt_is_Some_2 valid i) as [b Hb].
  { rewrite Hlen. by eapply lookup_lt_Some. }
  destruct b; [|done]. apply Hlookup in Hb.
  pose proof (inv_chain _ _ _ _ _ Hinv i (Done true) f0 Hb Hreg) as (_ & _ & He).
  done.
Qed.




Section PureValidators.

Context (check : JsValue → Validator → Settled).
Context (Hpure : ∀ now v form validator, validate now v form validator = check v validator).



End PureValidators.

(** X16 - the form instance a validator or the [onSubmit] callback is given
    shows the state of the render in which [submit] was called: the
    submitted flag is not yet the [true] that [submit] has just set, the
    four caches and arming flags are as at the call, and an aggregate that
    was cached reads as cached, whatever the validation found. *)
Theorem X16_callbacks_see_render_state props_ st sched res st' trace ev form
    (Hsubmit : submit_ props_ sched st = Some (res, st', trace))
    (Hevent : ev ∈ trace) (Hform : eventForm ev = Some form) :
  cur (isSubmitted (instanceState form)) = cur (isSubmitted st)
  ∧ nxt (isSubmitted (instanceState form)) = true
  ∧ (∀ s, cached s (instanceState form) = cached s st)
  ∧ (∀ s, armed s (instanceState form) = armed s st)
  ∧ (∀ s v, cur (cached s st) = Some v → (readSlot s (instanceState form)).1.1 = v).
Proof.
  destruct (submit_Some_run _ _ _ _ _ _ Hsubmit) as [-> Htrace].
  set (r := runChains_ sched (startRun (setIsSubmitted true st))) in *.
  pose proof (runChains_frame (setIsSubmitted true st) sched) as [Hinv _ Hforms].
  fold r in Hinv, Hforms. rewrite Forall_forall in Hforms.
  assert (∃ fs, form = baseValue (with_fields fs (setIsSubmitted true st))) as [fs ->].
  { destruct Htrace as [->| ->]; [by apply (Hforms ev)|].
    apply elem_of_app in Hevent as [Hin|Hin]; [by apply (Hforms ev)|].
    apply list_elem_of_singleton in Hin. subst ev. simpl in Hform. simplify_eq.
    exists (run_fields r). by rewrite (inv_form _ _ _ _ _ Hinv) at 1. }
  simpl. split; [done|]. split; [done|]. split; [by intros []|].
  split; [by intros []|].
  intros s v Hv. destruct s; simpl in *;
    unfold errorGetter, isValidGetter, isDirtyGetter, isTouchedGetter; simpl;
    match goal with
    | H : _ <$> ?c = Some _ |- _ => destruct c eqn:Hc; simpl in H; simplify_eq
    end; done.
Qed.

(** X17 - [submit] does not clear what an earlier [submit] recorded: a field
    one of whose validators rejected with a non-empty message list ends up
    failed again in the next [submit], after the render, whatever its
    validators answer then and under any schedule that lets the chains
    settle. *)
Theorem X17_failed_field_fails_again props_ st sched sched' res st' trace
    i type v form error
    (Hsubmit : submit_ props_ sched st = Some (res, st', trace))
    (Hrejected : ValidateCalled i type v form (RejectedWith error) ∈ trace)
    (Hmessages : getValidationError error ≠ [])
    (Hfair : fair (length (formFieldsRef st)) sched') :
  ∃ valid,
    validArrays (runChains_ sched' (startRun (setIsSubmitted true (rerender st'))))
    = Some valid
    ∧ valid !! i = Some false.
Proof.
  destruct (submit_Some_run _ _ _ _ _ _ Hsubmit) as [-> Htrace].
  set (r := runChains_ sched (startRun (setIsSubmitted true st))) in *.
  pose proof (runChains_inv validate getValidationError fillPath
                (setIsSubmitted true st) sched) as Hinv.
  fold r in Hinv.
  assert (ValidateCalled i type v form (RejectedWith error) ∈ run_trace r) as Hin.
  { destruct Htrace as [->| ->]; [done|].
    apply elem_of_app in Hrejected as [Hin|Hin]; [done|].
    by apply list_elem_of_singleton in Hin. }
  destruct (inv_reject _ _ _ _ _ Hinv _ _ _ _ _ Hin) as (_ & f & Hf & He).
  apply (field_with_errors_settles_false _ sched' i f).
  - simpl. fold (run_fields r). by rewrite (inv_fields_length _ _ _ _ _ Hinv).
  - exact Hf.
  - by rewrite He.
Qed.

End SubmitFurther.

Section HandleMembers.

Lemma getMember_setMember key key' m (obj : JsObject) :
  getMember key (setMember key' m obj)
  = if bool_decide (key' = key) then Some m else getMember key obj.
Proof.
  induction obj as [|[k m'] obj IH]; simpl.
  - done.
  - destruct (bool_decide (k = key')) eqn:Hk; simpl.
    + apply bool_decide_eq_true in Hk as ->.
      by destruct (bool_decide (key' = key)).
    + apply bool_decide_eq_false in Hk. rewrite IH.
      repeat case_bool_decide; by simplify_eq.
Qed.

Lemma getMember_keys key (obj : JsObject) : key ∈ obj.*1 ↔ is_Some (getMember key obj).
Proof.
  induction obj as [|[k m] obj IH]; simpl.
  - split; [by intros ?%elem_of_nil|by intros [? ?]].
  - rewrite elem_of_cons, IH. case_bool_decide; naive_solver.
Qed.

Lemma getMember_pick (base : JsObject) omitted (keys : list string) key (val : JsObject) :
  getMember key (foldl (pickKey base omitted) val keys)
  = (if bool_decide (key ∈ keys ∧ (key ∉ omitted) ∧ is_Some (getMember key base))
     then getMember key base else getMember key val).
Proof.
  revert val. induction keys as [|k keys IH]; intros val; cbn [foldl].
  - rewrite bool_decide_eq_false_2; [done|]. intros [?%elem_of_nil _]. done.
  - rewrite IH. clear IH.
    assert (getMember key (pickKey base omitted val k)
            = if bool_decide (k = key ∧ (key ∉ omitted) ∧ is_Some (getMember key base))
              then getMember key base else getMember key val) as ->.
    { unfold pickKey. destruct (decide (k = key)) as [->|Hne].
      - case_bool_decide as Hom.
        + rewrite bool_decide_eq_false_2 by tauto. done.
        + destruct (getMember key base) as [m|] eqn:Hm.
          * rewrite getMember_setMember, !bool_decide_eq_true_2; [done| |done].
            split; [done|]. split; [done|]. by eexists.
          * rewrite bool_decide_eq_false_2; [done|]. intros (_ & _ & [? ?]). done.
      - rewrite (bool_decide_eq_false_2 (k = key ∧ _)) by tauto.
        case_bool_decide; [done|]. destruct (getMember k base); [|done].
        by rewrite getMember_setMember, bool_decide_eq_false_2. }
    repeat case_bool_decide; try done; exfalso; set_solver.
Qed.

(** X18 - the loop that builds the public handle copies every key of the
    base object that is not in the omitted list and leaves the omitted ones
    as the literal wrote them.  For the form this means: the public handle
    has, under every key, what the base object has there (the registry, the
    listener registries and the recompute entry points included), except
    under [submit], where it has the real [submit]. *)
Theorem X18_public_handle_members (key : string) :
  (∀ (base val : JsObject) (omitted : list string),
     getMember key (pickKeys base omitted val)
     = if bool_decide (key ∈ omitted) then getMember key val
       else match getMember key base with
            | Some m => Some m
            | None => getMember key val
            end)
  ∧ getMember key valueObject
    = if bool_decide (key = "submit") then Some (M_submit SubmitReal)
      else getMember key baseValueObject.
Proof.
  assert (∀ (base val : JsObject) (omitted : list string),
     getMember key (pickKeys base omitted val)
     = if bool_decide (key ∈ omitted) then getMember key val
       else match getMember key base with
            | Some m => Some m
            | None => getMember key val
            end) as Hgeneral.
  { intros base val omitted. unfold pickKeys. rewrite getMember_pick.
    destruct (decide (key ∈ omitted)) as [Hom|Hom].
    - rewrite bool_decide_eq_false_2 by tauto.
      by rewrite bool_decide_eq_true_2.
    - rewrite (bool_decide_eq_false_2 (key ∈ omitted)) by done.
      destruct (getMember key base) as [m|] eqn:Hm.
      + rewrite bool_decide_eq_true_2; [done|].
        split; [|done]. apply getMember_keys. by rewrite Hm.
      + rewrite bool_decide_eq_false_2; [done|]. intros (_ & _ & [? ?]). done. }
  split; [exact Hgeneral|].
  unfold valueObject. rewrite Hgeneral.
  destruct (decide (key ∈ omittedKeysToPick)) as [Hom|Hom].
  - unfold omittedKeysToPick in Hom.
    repeat (apply elem_of_cons in Hom as [->|Hom]; [vm_compute; reflexivity|]).
    by apply elem_of_nil in Hom.
  - assert (key ≠ "submit") as Hne.
    { intros ->. apply Hom. unfold omittedKeysToPick. set_solver. }
    rewrite (bool_decide_eq_false_2 (key ∈ omittedKeysToPick)) by done.
    rewrite (bool_decide_eq_false_2 (key = "submit")) by done.
    destruct (getMember key baseValueObject) as [m|]; [done|].
    assert (getMember key valLiteral = None ∨ key ∈ omittedKeysToPick) as [H|H];
      [|done|done].
    unfold valLiteral, omittedKeysToPick. simpl.
    repeat (case_bool_decide; [right; subst; set_solver|]). by left.
Qed.

End HandleMembers.

Section EnginesAgree.

Context {Validator : Type}.
Context (validate : nat → JsValue → @FormInstance Validator → Validator → Settled).
Context (getValidationError : JsValue → list string).
Context (fillPath : JsValue → string → JsValue → JsValue).

Implicit Types (r : @SubmitRun Validator).

Local Abbreviation returning1 := (λ error, Returns (getValidationError error)).
Local Abbreviation returning3 := (λ values path v, Returns (fillPath values path v)).







End EnginesAgree.

(** * The further properties at concrete forms *)

(** The [isDirty] slot is armed by a first read; the user then edits the
    field and the collaborator recomputes. *)
Lemma X5_recompute_refreshes_armed_slot_witness :
  let st := with_fields [editedField]
              (rerender (readSlot SlotIsDirty (mount [plainField "a" (JStr "x")])).1.2) in
  armed SlotIsDirty st = true
  ∧ (readSlot SlotIsDirty (rerender (recomputeSlot SlotIsDirty st).1)).1.1 = BoolValue true.
Proof.
  intros st. split; [reflexivity|].
  destruct (X5_recompute_refreshes_armed_slot SlotIsDirty st eq_refl) as (_ & Hread & _).
  exact Hread.
Defined.

(** [errors] is read on a fresh form; the field then gets an error and
    nothing recomputes. *)
Lemma X6_cached_value_is_served_witness :
  let st := mount [plainField "a" (JStr "x")] in
  let fs := [setErrors ["required"] (plainField "a" (JStr "x"))] in
  cur (cached SlotErrors st) = None
  ∧ (readSlot SlotErrors (with_fields fs (rerender (readSlot SlotErrors st).1.2))).1.1
    = ErrorsValue [].
Proof.
  intros st fs. split; [reflexivity|].
  destruct (X6_cached_value_is_served SlotErrors st fs eq_refl) as (_ & _ & Hread & _).
  exact Hread.
Defined.

(** A form that is reset, rendered and recomputed without [isDirty] ever
    being read. *)
Lemma X7_unread_slot_holds_no_aggregate_witness :
  let ops := [OpReset; OpRerender; OpFields [editedField]; OpRecomputeIsDirty] in
  (OpGet SlotIsDirty ∉ ops)
  ∧ armed SlotIsDirty (runOps ops (mount [plainField "a" (JStr "x")])).1 = false.
Proof.
  intros ops.
  assert (OpGet SlotIsDirty ∉ ops) as Hunread.
  { intros Hin. unfold ops in Hin.
    repeat (apply elem_of_cons in Hin as [Hin|Hin]; [discriminate Hin|]).
    by apply elem_of_nil in Hin. }
  split; [exact Hunread|].
  destruct (X7_unread_slot_holds_no_aggregate ops [plainField "a" (JStr "x")]
              SlotIsDirty Hunread) as [_ Harmed].
  exact Harmed.
Defined.

(** A form without fields and without callback, under some schedule. *)
Lemma X12_submit_empty_registry_witness :
  let st := mount (@nil (@Field FnValidator)) in
  formFieldsRef st = []
  ∧ submit_fn (mkFormProps None None) [0; 1] st
    = Some (Resolved true, setIsSubmitted true st, []).
Proof.
  intros st. split; [reflexivity|].
  exact (X12_submit_empty_registry validate_fn getValidationError_spec fillPath_returning
           (mkFormProps None None) st [0; 1] eq_refl).
Defined.




(** A first submit of a form with a callback: the callback's instance does
    not show the form as submitted. *)
Lemma X16_callbacks_see_render_state_witness :
  let props_ := @mkFormProps FnValidator (Some (λ _ _, Returned)) None in
  let st := mount [plainField "a" JNull] in
  ∃ res st' trace ev form,
    submit_fn props_ (sequential 1) st = Some (res, st', trace)
    ∧ ev ∈ trace ∧ eventForm ev = Some form
    ∧ cur (isSubmitted (instanceState form)) = false
    ∧ cur (isSubmitted (rerender st')) = true.
Proof.
  intros props_ st.
  destruct (submit_fn props_ (sequential 1) st) as [[[res st'] trace]|] eqn:Hsubmit;
    [|vm_compute in Hsubmit; discriminate Hsubmit].
  assert (∃ ev form, ev ∈ trace ∧ eventForm ev = Some form) as (ev & form & Hev & Hform).
  { pose proof Hsubmit as Hrun. vm_compute in Hrun. injection Hrun as <- <- <-.
    eexists _, _. split; [right; left|reflexivity]. }
  exists res, st', trace, ev, form.
  split; [reflexivity|]. split; [exact Hev|]. split; [exact Hform|].
  destruct (X16_callbacks_see_render_state validate_fn getValidationError_spec
              fillPath_returning props_ st (sequential 1) res st' trace ev form
              Hsubmit Hev Hform) as (Hcur & _).
  split; [exact Hcur|].
  pose proof Hsubmit as Hrun. vm_compute in Hrun. injection Hrun as <- <- <-.
  reflexivity.
Defined.

(** A field is rejected in a first submit and accepted by its validator in
    the second: it fails again. *)
Lemma X17_failed_field_fails_again_witness :
  let props_ := @mkFormProps FnValidator None None in
  let st := mount [checkedField "a" JNull (Some rejecting) None None] in
  ∃ res st' trace,
    submit_fn props_ (sequential 1) st = Some (res, st', trace)
    ∧ ∃ valid,
        validArrays (runChains_fn (sequential 1)
                       (startRun (setIsSubmitted true (rerender st')))) = Some valid
        ∧ valid !! 0 = Some false.
Proof.
  intros props_ st.
  destruct (submit_fn props_ (sequential 1) st) as [[[res st'] trace]|] eqn:Hsubmit;
    [|vm_compute in Hsubmit; discriminate Hsubmit].
  exists res, st', trace. split; [reflexivity|].
  assert (fair 1 (sequential 1)) as Hfair
    by (intros [|i] Hi; [vm_compute; lia|lia]).
  assert (getValidationError_spec (JStr "invalid") ≠ []) as Hmessages by discriminate.
  assert (∃ form, ValidateCalled 0 onChangeValidate_t JNull form
                    (RejectedWith (JStr "invalid")) ∈ trace) as [form Hin].
  { pose proof Hsubmit as Hrun. vm_compute in Hrun. injection Hrun as <- <- <-.
    eexists. left. }
  exact (X17_failed_field_fails_again validate_fn getValidationError_spec fillPath_returning
           props_ st (sequential 1) (sequential 1) res st' trace
           0 onChangeValidate_t JNull form (JStr "invalid")
           Hsubmit Hin Hmessages Hfair).
Defined.

(** A field with a rejecting onBlur validator next to one whose projection
    throws. *)
Lemma X20_settled_chain_tells_the_calls_witness :
  let fields := [checkedField "a" (JNum 5) None (Some rejecting) None;
                 plainField "b" (JNum 5); plainField "b.c" (JNum 1)] in
  let r := Throwing.runChains_fn (sequential 3) (Throwing.startRun (mount fields)) in
  fair 3 (sequential 3)
  ∧ Throwing.run_chains r
    = [Throwing.Done false; Throwing.Done true;
       Throwing.Failed (typeError "Cannot create property")]
  ∧ Throwing.calls 0 (Throwing.run_trace r)
    = [(onBlurValidate_t, RejectedWith (JStr "invalid"))]
  ∧ ∃ f, Throwing.run_fields r !! 0 = Some f ∧ errors f = ["invalid"]
         ∧ f = setErrors (errors f) (checkedField "a" (JNum 5) None (Some rejecting) None).
Proof.
  intros fields r.
  assert (fair 3 (sequential 3)) as Hfair
    by (intros [|[|[|i]]] Hi; [vm_compute; lia..|lia]).
  split; [exact Hfair|].
  split; [vm_compute; reflexivity|]. split; [vm_compute; reflexivity|].
  destruct (X20_settled_chain_tells_the_calls validate_fn
              (λ error, Returns (getValidationError_spec error)) fillPath_spec
              (mount fields) (sequential 3) 0
              (checkedField "a" (JNum 5) None (Some rejecting) None) Hfair eq_refl)
    as (c & f & _ & Hf & _ & _ & Hsame & _).
  exists f. split; [exact Hf|]. split; [|exact Hsame].
  vm_compute in Hf. by injection Hf as <-.
Defined.
